(** * Battleships server: a shallow embedding of server.js

    The game server keeps one mutable [state] object and reacts to socket
    events (join, placeShips, ready, fire, chat, reset, disconnect).  Each
    handler runs to completion, so the server is modelled as a transition
    function [handle] from an event and a state to the next state and the
    list of messages emitted, in emission order.

    Conventions of the embedding
    - JS objects used as maps ([board], [ships], the fog board) are [gmap]s,
      JS [Set]s ([shotsTaken], [hits], [seenKeys], [occupied]) are [gset]s.
    - A cell key is built in the source as the template string r,c of two
      numbers.  Coordinates are integers here and the key is the pair
      [(r, c)]; [cellKey] renders the source's string and [cellKey_inj]
      shows that the pair and the string determine each other.
    - A handler that would die on a TypeError returns [None]; every other
      run returns [Some (state', messages)].
    - What a handler reads from outside the state, the clock and the random
      draw of the first turn, comes with the event as an [Env].
    - Payloads have the format the source documents and the page script
      sends: slots and coordinates are integers, kinds, names and chat
      texts are strings, a placement is a list of descriptors
      [{ key, name, cells }].  The server checks none of these types, and
      what it does with other values is outside the embedding: an array
      sent as kind, which [required[key]] reads by its string form and
      [seenKeys.has(key)] by identity; a null or fractional coordinate,
      which passes the bounds test; a descriptor without a name, whose
      ship is reported sunk without one; an integer of magnitude 2^53 or
      more, which a number does not hold exactly; a text with characters
      beyond ASCII, which [slice] and [trim] read by UTF-16 unit.

    The page script, client.js, follows the server; it is embedded as far
    as it decides what the client sends. *)

From Stdlib Require Import ZArith Lia Permutation Ascii.
From stdpp Require Import base decidable option list sorting gmap sets strings pretty.

Local Open Scope Z_scope.
Local Open Scope string_scope.

(** ** Game constants *)

Abbreviation Coord := (Z * Z)%type.
Abbreviation SocketId := nat.

Definition BOARD_SIZE : Z := 10.

Record ShipDef := mkShipDef {
  def_key : string;
  def_name : string;
  def_size : nat;
  def_count : nat;
}.

Definition SHIP_DEFS : list ShipDef :=
  [ mkShipDef "carrier" "Carrier" 5 1;
    mkShipDef "battleship" "Battleship" 4 1;
    mkShipDef "cruiser" "Cruiser" 3 1;
    mkShipDef "submarine" "Submarine" 3 1;
    mkShipDef "destroyer" "Destroyer" 2 1 ].

Inductive Phase := LOBBY | PLACING | IN_PROGRESS | FINISHED.

Inductive Seat := P1 | P2.

#[global] Instance Phase_eq_dec : EqDecision Phase.
Proof. solve_decision. Defined.

#[global] Instance Seat_eq_dec : EqDecision Seat.
Proof. solve_decision. Defined.

(** [pn === 1 ? 2 : 1] *)
Definition opponent (pn : Seat) : Seat :=
  match pn with P1 => P2 | P2 => P1 end.

(** The [slot] field of a payload is whatever number the client sent; the
    handlers go on only when it is [1] or [2]. *)
Definition seat_of_slot (slot : Z) : option Seat :=
  if decide (slot = 1) then Some P1
  else if decide (slot = 2) then Some P2
  else None.

(** The key string of the source, [`${r},${c}`], of two integers that a
    number holds exactly: below 2^53 in magnitude, where the template
    string prints plain decimal digits. *)
Definition cellKey (k : Coord) : string :=
  pretty k.1 +:+ "," +:+ pretty k.2.

(** ** Game state *)

Record Cell := mkCell {
  shipId : string;
  hit : bool;
}.

Record Ship := mkShip {
  ship_name : string;
  ship_size : nat;
  ship_hits : gset Coord;
}.

Record Player := mkPlayer {
  socketId : option SocketId;
  name : option string;
  ready : bool;
  board : gmap Coord Cell;
  ships : gmap string Ship;
  shotsTaken : gset Coord;
}.

Record State := mkState {
  phase : Phase;
  player1 : Player;
  player2 : Player;
  turn : option Seat;
  winner : option Seat;
  createdAt : Z;
}.

#[global] Instance Cell_eq_dec : EqDecision Cell.
Proof. solve_decision. Defined.

#[global] Instance Ship_eq_dec : EqDecision Ship.
Proof. solve_decision. Defined.

#[global] Instance Player_eq_dec : EqDecision Player.
Proof. solve_decision. Defined.

#[global] Instance State_eq_dec : EqDecision State.
Proof. solve_decision. Defined.

Definition mkPlayerState : Player :=
  {| socketId := None; name := None; ready := false;
     board := ∅; ships := ∅; shotsTaken := ∅ |}.

(** [now] is the value of [Date.now()] when the state is created. *)
Definition initialState (now : Z) : State :=
  {| phase := LOBBY; player1 := mkPlayerState; player2 := mkPlayerState;
     turn := None; winner := None; createdAt := now |}.

(** [state.players[pn]] and the assignment to it. *)
Definition players (s : State) (pn : Seat) : Player :=
  match pn with P1 => player1 s | P2 => player2 s end.

Definition set_player (pn : Seat) (p : Player) (s : State) : State :=
  match pn with
  | P1 => {| phase := phase s; player1 := p; player2 := player2 s;
             turn := turn s; winner := winner s; createdAt := createdAt s |}
  | P2 => {| phase := phase s; player1 := player1 s; player2 := p;
             turn := turn s; winner := winner s; createdAt := createdAt s |}
  end.

Definition set_phase (ph : Phase) (s : State) : State :=
  {| phase := ph; player1 := player1 s; player2 := player2 s;
     turn := turn s; winner := winner s; createdAt := createdAt s |}.

Definition set_turn (t : option Seat) (s : State) : State :=
  {| phase := phase s; player1 := player1 s; player2 := player2 s;
     turn := t; winner := winner s; createdAt := createdAt s |}.

Definition set_winner (w : option Seat) (s : State) : State :=
  {| phase := phase s; player1 := player1 s; player2 := player2 s;
     turn := turn s; winner := w; createdAt := createdAt s |}.

(** [!!p.socketId]: a connection id is never the empty string, so a seat is
    occupied exactly when its [socketId] is not null. *)
Definition seated (p : Player) : bool :=
  match socketId p with Some _ => true | None => false end.

(** [p.socketId === socket.id] *)
Definition owns (p : Player) (sock : SocketId) : bool :=
  bool_decide (socketId p = Some sock).

(** ** Placement validation *)

(** A ship descriptor of the [placeShips] payload,
    [{ key, name, cells: [{r,c}, ...] }], in the documented format: the
    kind and the name are strings, the coordinates integers. *)
Record ShipPayload := mkShipPayload {
  sp_key : string;
  sp_name : string;
  sp_cells : list Coord;
}.

(** The reasons [validatePlacement] rejects with, and their texts.  The two
    format errors of the source ('Invalid placement format.', 'Invalid ship
    object.') need a payload that is not a list of descriptors and do not
    arise on [list ShipPayload]. *)
Inductive Reject :=
  | UnexpectedKey (key : string)
  | DuplicateShip (key : string)
  | IncorrectSize (label : string)
  | NotStraight (label : string)
  | OutOfBounds
  | Overlap
  | Gaps
  | MissingShip (key : string).

Definition reject_msg (e : Reject) : string :=
  match e with
  | UnexpectedKey key => "Unexpected ship key: " +:+ key
  | DuplicateShip key => "Duplicate ship: " +:+ key
  | IncorrectSize label => label +:+ " has incorrect size."
  | NotStraight label => label +:+ " must be straight."
  | OutOfBounds => "Placement out of bounds."
  | Overlap => "Ships cannot overlap."
  | Gaps => "Gaps in ship cells."
  | MissingShip key => "Missing ship: " +:+ key
  end.

Inductive Verdict := Ok | Fail (e : Reject).

(** [required] is a plain object filled from [SHIP_DEFS]; reading
    [required[key]] therefore also finds what every object inherits from
    [Object.prototype], which is truthy and is not a number. *)
Definition required : gmap string nat :=
  foldl (λ acc d, <[def_key d := def_size d]> acc) ∅ SHIP_DEFS.

Definition objectPrototypeProps : list string :=
  [ "constructor"; "__proto__"; "hasOwnProperty"; "isPrototypeOf";
    "propertyIsEnumerable"; "toLocaleString"; "toString"; "valueOf";
    "__defineGetter__"; "__defineSetter__"; "__lookupGetter__";
    "__lookupSetter__" ].

Inductive Lookup := Absent | OwnSize (n : nat) | Inherited.

Definition required_get (key : string) : Lookup :=
  match required !! key with
  | Some n => OwnSize n
  | None => if bool_decide (key ∈ objectPrototypeProps) then Inherited else Absent
  end.

(** [!required[key]] *)
Definition falsy (v : Lookup) : bool :=
  match v with
  | Absent => true
  | OwnSize n => bool_decide (n = 0%nat)
  | Inherited => false
  end.

(** [cells.length !== required[key]] *)
Definition length_differs (len : nat) (v : Lookup) : bool :=
  match v with
  | OwnSize n => negb (bool_decide (len = n))
  | _ => true
  end.

(** [name || key] *)
Definition label (ship : ShipPayload) : string :=
  if bool_decide (sp_name ship = "") then sp_key ship else sp_name ship.

(** [xs.every((x) => x === xs[0])] *)
Definition every_same (xs : list Z) : bool :=
  match xs with
  | [] => true
  | x0 :: _ => forallb (λ x, bool_decide (x = x0)) xs
  end.

(** The bounds-and-duplicates loop over the cells of one ship. *)
Fixpoint scanCells (occupied : gset Coord) (cells : list Coord)
  : Reject + gset Coord :=
  match cells with
  | [] => inr occupied
  | (r, c) :: rest =>
      if bool_decide (r < 0 ∨ r >= BOARD_SIZE ∨ c < 0 ∨ c >= BOARD_SIZE)
      then inl OutOfBounds
      else if bool_decide ((r, c) ∈ occupied) then inl Overlap
      else scanCells ({[ (r, c) ]} ∪ occupied) rest
  end.

(** [cells.slice().sort(cmp)] with [cmp] the difference of one coordinate:
    a stable sort by that coordinate, written as insertion sort.  An element
    goes in front of the first later element whose key is not smaller, so
    equal keys keep their order. *)
Fixpoint insert_by (f : Coord → Z) (x : Coord) (l : list Coord) : list Coord :=
  match l with
  | [] => [x]
  | y :: l' =>
      if bool_decide (f x ≤ f y)%Z then x :: l else y :: insert_by f x l'
  end.

Definition sort_by (f : Coord → Z) (l : list Coord) : list Coord :=
  foldr (insert_by f) [] l.

(** The contiguity loop [for (i = 1; i < sorted.length; i++)]. *)
Fixpoint gapLoop (sameRow sameCol : bool) (prev : Coord) (rest : list Coord)
  : bool :=
  match rest with
  | [] => true
  | cur :: rest' =>
      if sameRow && negb (bool_decide (cur.2 = prev.2 + 1)) then false
      else if sameCol && negb (bool_decide (cur.1 = prev.1 + 1)) then false
      else gapLoop sameRow sameCol cur rest'
  end.

Definition noGaps (sameRow sameCol : bool) (sorted : list Coord) : bool :=
  match sorted with
  | [] => true
  | first :: rest => gapLoop sameRow sameCol first rest
  end.

(** The body of [for (const ship of payload)]. *)
Definition checkShip (seenKeys : gset string) (occupied : gset Coord)
    (ship : ShipPayload) : Reject + (gset string * gset Coord) :=
  let key := sp_key ship in
  let cells := sp_cells ship in
  if falsy (required_get key) then inl (UnexpectedKey key)
  else if bool_decide (key ∈ seenKeys) then inl (DuplicateShip key)
  else
    let seenKeys' := {[ key ]} ∪ seenKeys in
    if length_differs (length cells) (required_get key)
    then inl (IncorrectSize (label ship))
    else
      let sameRow := every_same (cells.*1) in
      let sameCol := every_same (cells.*2) in
      if negb sameRow && negb sameCol then inl (NotStraight (label ship))
      else
        match scanCells occupied cells with
        | inl e => inl e
        | inr occupied' =>
            let sorted := sort_by (if sameRow then snd else fst) cells in
            if noGaps sameRow sameCol sorted then inr (seenKeys', occupied')
            else inl Gaps
        end.

Fixpoint scanShips (seenKeys : gset string) (occupied : gset Coord)
    (payload : list ShipPayload) : Reject + gset string :=
  match payload with
  | [] => inr seenKeys
  | ship :: rest =>
      match checkShip seenKeys occupied ship with
      | inl e => inl e
      | inr (seenKeys', occupied') => scanShips seenKeys' occupied' rest
      end
  end.

Definition allKeys : list string := def_key <$> SHIP_DEFS.

Definition validatePlacement (payload : list ShipPayload) : Verdict :=
  match scanShips ∅ ∅ payload with
  | inl e => Fail e
  | inr seenKeys =>
      match find (λ k, negb (bool_decide (k ∈ seenKeys))) allKeys with
      | Some k => Fail (MissingShip k)
      | None => Ok
      end
  end.

(** The two nested loops of [setPlacementForPlayer]. *)
Definition placeCells (shipId : string) (cells : list Coord)
    (b : gmap Coord Cell) : gmap Coord Cell :=
  foldl (λ acc k, <[k := mkCell shipId false]> acc) b cells.

Definition placeShip (acc : gmap Coord Cell * gmap string Ship)
    (ship : ShipPayload) : gmap Coord Cell * gmap string Ship :=
  (placeCells (sp_key ship) (sp_cells ship) acc.1,
   <[sp_key ship := mkShip (sp_name ship) (length (sp_cells ship)) ∅]> acc.2).

Definition layout (shipsPayload : list ShipPayload)
  : gmap Coord Cell * gmap string Ship :=
  foldl placeShip (∅, ∅) shipsPayload.

Definition setPlacementForPlayer (pn : Seat) (shipsPayload : list ShipPayload)
    (s : State) : Verdict * State :=
  match validatePlacement shipsPayload with
  | Fail e => (Fail e, s)
  | Ok =>
      let p := players s pn in
      let '(b, sh) := layout shipsPayload in
      (Ok, set_player pn
             {| socketId := socketId p; name := name p; ready := ready p;
                board := b; ships := sh; shotsTaken := shotsTaken p |} s)
  end.

(** ** Outbound messages *)

Inductive NoticeType := NoticeError | NoticeOk.

Inductive FogResult := FogH | FogM.

Inductive ShotOutcome := ShotHit | ShotMiss.

(** One seat of the public state, [scrubPlayer]. *)
Record Scrubbed := mkScrubbed {
  pub_connected : bool;
  pub_ready : bool;
  pub_name : option string;
}.

Record PublicState := mkPublicState {
  pub_phase : Phase;
  pub_turn : option Seat;
  pub_winner : option Seat;
  pub_player1 : Scrubbed;
  pub_player2 : Scrubbed;
}.

Record ShipSummary := mkShipSummary {
  sum_name : string;
  sum_size : nat;
  sum_hits : gset Coord;
}.

(** The [boards] payload: [{ you: { board, ships }, opponent: { fog } }]. *)
Record Boards := mkBoards {
  you_board : gmap Coord Cell;
  you_ships : gmap string ShipSummary;
  opponent_fog : gmap Coord FogResult;
}.

Record ShotResult := mkShotResult {
  shot_by : Seat;
  shot_at : Coord;
  shot_result : ShotOutcome;
  shot_sunkShip : option string;
  shot_nextTurn : option Seat;
  shot_phase : Phase;
  shot_winner : option Seat;
}.

Inductive Payload :=
  | Hello (msg : string)
  | StateMsg (st : PublicState)
  | Notice (type : NoticeType) (text : string)
  | Joined (slot : Z)
  | BoardsMsg (b : Boards)
  | ShotResultMsg (r : ShotResult)
  | ChatMsg (from text : string) (ts : Z).

(** [socket.emit] and [io.to(id).emit] reach one connection, [io.emit]
    reaches every connection. *)
Inductive Msg :=
  | ToSocket (sock : SocketId) (p : Payload)
  | ToAll (p : Payload).

#[global] Instance FogResult_eq_dec : EqDecision FogResult.
Proof. solve_decision. Defined.

#[global] Instance ShipSummary_eq_dec : EqDecision ShipSummary.
Proof. solve_decision. Defined.

#[global] Instance Boards_eq_dec : EqDecision Boards.
Proof. solve_decision. Defined.

Definition scrubPlayer (s : State) (pn : Seat) : Scrubbed :=
  let p := players s pn in
  {| pub_connected := seated p; pub_ready := ready p; pub_name := name p |}.

Definition publicState (s : State) : PublicState :=
  {| pub_phase := phase s; pub_turn := turn s; pub_winner := winner s;
     pub_player1 := scrubPlayer s P1; pub_player2 := scrubPlayer s P2 |}.

Definition broadcast (s : State) : Msg := ToAll (StateMsg (publicState s)).

Definition summarizeShips (sh : gmap string Ship) : gmap string ShipSummary :=
  (λ s, mkShipSummary (ship_name s) (ship_size s) (ship_hits s)) <$> sh.

(** What one of my shots shows: 'H' when the opponent's cell there is
    flagged hit, 'M' otherwise. *)
Definition fogEntry (oppBoard : gmap Coord Cell) (shot : Coord) : FogResult :=
  match oppBoard !! shot with
  | Some cell => if hit cell then FogH else FogM
  | None => FogM
  end.

(** The loop [for (const shot of oppShots)] filling [oppBoardPublic]. *)
Definition fogBoard (oppBoard : gmap Coord Cell) (oppShots : gset Coord)
  : gmap Coord FogResult :=
  set_fold (λ shot acc, <[shot := fogEntry oppBoard shot]> acc) ∅ oppShots.

(** The payload [sendPrivateBoards] builds for one viewer. *)
Definition boardsFor (s : State) (viewer : Seat) : Boards :=
  let opp := opponent viewer in
  {| you_board := board (players s viewer);
     you_ships := summarizeShips (ships (players s viewer));
     opponent_fog :=
       fogBoard (board (players s opp)) (shotsTaken (players s viewer)) |}.

Definition sendPrivateBoards (s : State) : list Msg :=
  omap (λ viewer,
          match socketId (players s viewer) with
          | Some sock => Some (ToSocket sock (BoardsMsg (boardsFor s viewer)))
          | None => None
          end) [P1; P2].

(** ** Shot resolution *)

(** [Object.values(p.ships).every((s) => s.hits.size === s.size)] *)
Definition allShipsSunk (s : State) (pn : Seat) : bool :=
  bool_decide
    (map_Forall (λ _ sh, size (ship_hits sh) = ship_size sh)
                (ships (players s pn))).

(** The lookup of the target cell and the marking of a fresh hit.  [None]
    is the TypeError of reading [sh.hits] when the cell names a ship that
    the fleet does not hold.  The name reported with a sinking shot is the
    name the ship was placed with, [sh.name], a string in the documented
    format. *)
Definition resolveShot (target : Player) (key : Coord)
  : option (Player * ShotOutcome * option string) :=
  match board target !! key with
  | None => Some (target, ShotMiss, None)
  | Some cell =>
      if hit cell then Some (target, ShotHit, None)
      else
        match ships target !! shipId cell with
        | None => None
        | Some sh =>
            let sh' := mkShip (ship_name sh) (ship_size sh)
                              ({[ key ]} ∪ ship_hits sh) in
            let target' :=
              {| socketId := socketId target; name := name target;
                 ready := ready target;
                 board := <[key := mkCell (shipId cell) true]> (board target);
                 ships := <[shipId cell := sh']> (ships target);
                 shotsTaken := shotsTaken target |} in
            Some (target', ShotHit,
                  if bool_decide (size (ship_hits sh') = ship_size sh')
                  then Some (ship_name sh') else None)
        end
  end.

(** ** Socket events *)

Inductive Event :=
  | Connect
  | Join (slot : Z)
  | PlaceShips (slot : Z) (shipsPayload : list ShipPayload)
  | Ready (slot : Z)
  | Fire (slot : Z) (r c : Z)
  | Chat (from text : string)
  | Reset
  | Disconnect.

(** What a handler run reads from outside the state: the clock
    ([Date.now()]) and whether [Math.random() < 0.5]. *)
Record Env := mkEnv {
  now : Z;
  random_lt_half : bool;
}.

Definition playerName (pn : Seat) : string :=
  match pn with P1 => "Player 1" | P2 => "Player 2" end.

Definition with_ready (b : bool) (p : Player) : Player :=
  {| socketId := socketId p; name := name p; ready := b;
     board := board p; ships := ships p; shotsTaken := shotsTaken p |}.

Definition with_shot (key : Coord) (p : Player) : Player :=
  {| socketId := socketId p; name := name p; ready := ready p;
     board := board p; ships := ships p;
     shotsTaken := {[ key ]} ∪ shotsTaken p |}.

Definition onConnect (sock : SocketId) (s : State) : State * list Msg :=
  (s, [ ToSocket sock (Hello "Welcome to Battleships!");
        ToSocket sock (StateMsg (publicState s)) ]).

Definition onJoin (sock : SocketId) (slot : Z) (s : State)
  : State * list Msg :=
  match seat_of_slot slot with
  | None => (s, [])
  | Some pn =>
      let other := opponent pn in
      if seated (players s pn) && negb (owns (players s pn) sock) then
        (s, [ ToSocket sock (Notice NoticeError "That slot is already taken.") ])
      else
        let s1 := if owns (players s other) sock
                  then set_player other mkPlayerState s else s in
        let s2 := set_player pn
                    {| socketId := Some sock; name := Some (playerName pn);
                       ready := false; board := ∅; ships := ∅;
                       shotsTaken := ∅ |} s1 in
        let s3 := if bool_decide (phase s2 = LOBBY)
                     && seated (players s2 P1) && seated (players s2 P2)
                  then set_phase PLACING s2 else s2 in
        (s3, ToSocket sock (Joined slot) :: broadcast s3 :: sendPrivateBoards s3)
  end.

Definition onPlaceShips (sock : SocketId) (slot : Z)
    (shipsPayload : list ShipPayload) (s : State) : State * list Msg :=
  match seat_of_slot slot with
  | None => (s, [])
  | Some pn =>
      if negb (owns (players s pn) sock) then (s, [])
      else if negb (bool_decide (phase s = PLACING))
              && negb (bool_decide (phase s = LOBBY)) then (s, [])
      else
        match setPlacementForPlayer pn shipsPayload s with
        | (Fail e, _) =>
            (s, [ ToSocket sock (Notice NoticeError (reject_msg e)) ])
        | (Ok, s1) =>
            let s2 := set_player pn (with_ready false (players s1 pn)) s1 in
            (s2, broadcast s2 :: sendPrivateBoards s2
                   ++ [ ToSocket sock (Notice NoticeOk "Placement saved.") ])
        end
  end.

Definition onReady (env : Env) (sock : SocketId) (slot : Z) (s : State)
  : State * list Msg :=
  match seat_of_slot slot with
  | None => (s, [])
  | Some pn =>
      if negb (owns (players s pn) sock) then (s, [])
      else if negb (bool_decide (size (ships (players s pn)) = length SHIP_DEFS))
      then (s, [ ToSocket sock (Notice NoticeError "Place all ships first.") ])
      else
        let s1 := set_player pn (with_ready true (players s pn)) s in
        let s2 := if ready (players s1 P1) && ready (players s1 P2)
                  then set_turn (Some (if random_lt_half env then P1 else P2))
                         (set_phase IN_PROGRESS s1)
                  else s1 in
        (s2, broadcast s2 :: sendPrivateBoards s2)
  end.

(** The handler from [shooter.shotsTaken.add(key)] on: the shot of seat
    [pn] at [key] once every guard has passed. *)
Definition resolveFire (pn : Seat) (key : Coord) (s : State)
  : option (State * list Msg) :=
  let oppn := opponent pn in
  let s1 := set_player pn (with_shot key (players s pn)) s in
  match resolveShot (players s1 oppn) key with
  | None => None
  | Some (target', result, sunkShip) =>
      let s2 := set_player oppn target' s1 in
      let s3 := if allShipsSunk s2 oppn
                then set_winner (Some pn) (set_phase FINISHED s2)
                else set_turn (Some oppn) s2 in
      Some (s3,
            ToAll (ShotResultMsg
                     {| shot_by := pn; shot_at := key;
                        shot_result := result;
                        shot_sunkShip := sunkShip;
                        shot_nextTurn := turn s3;
                        shot_phase := phase s3;
                        shot_winner := winner s3 |})
              :: sendPrivateBoards s3 ++ [ broadcast s3 ])
  end.

Definition onFire (sock : SocketId) (slot r c : Z) (s : State)
  : option (State * list Msg) :=
  if negb (bool_decide (phase s = IN_PROGRESS)) then Some (s, [])
  else
    match seat_of_slot slot with
    | None => Some (s, [])
    | Some pn =>
        if negb (owns (players s pn) sock) then Some (s, [])
        else if negb (bool_decide (turn s = Some pn)) then Some (s, [])
        else if bool_decide ((r, c) ∈ shotsTaken (players s pn)) then
          Some (s, [ ToSocket sock
                       (Notice NoticeError "You already fired there.") ])
        else resolveFire pn (r, c) s
    end.

(** [clean.trim()] is empty exactly when every character is white space;
    of the ASCII characters these are tab, line feed, vertical tab, form
    feed, carriage return and space. *)
Fixpoint all_white (s : string) : bool :=
  match s with
  | EmptyString => true
  | String a s' => Ascii.is_space a && all_white s'
  end.

Definition onChat (env : Env) (sock : SocketId) (from text : string)
    (s : State) : State * list Msg :=
  let clean := String.substring 0 400 text in
  if all_white clean then (s, [])
  else
    let label0 := "Spectator" in
    let label1 := if owns (players s P1) sock then playerName P1 else label0 in
    let label2 := if owns (players s P2) sock then playerName P2 else label1 in
    (s, [ ToAll (ChatMsg (if bool_decide (from = "") then label2 else from)
                         clean (now env)) ]).

Definition resetGame (env : Env) (prev : State) : State * list Msg :=
  let fresh := initialState (now env) in
  let keep pn := {| socketId := socketId (players prev pn);
                    name := name (players prev pn);
                    ready := ready (players fresh pn);
                    board := board (players fresh pn);
                    ships := ships (players fresh pn);
                    shotsTaken := shotsTaken (players fresh pn) |} in
  let s1 := set_player P2 (keep P2) (set_player P1 (keep P1) fresh) in
  let s2 := set_phase PLACING s1 in
  let s3 := if negb (seated (players s2 P1)) || negb (seated (players s2 P2))
            then set_phase LOBBY s2 else s2 in
  (s3, [ broadcast s3 ]).

Definition onReset (env : Env) (sock : SocketId) (s : State)
  : State * list Msg :=
  if owns (players s P1) sock || owns (players s P2) sock
  then resetGame env s else (s, []).

Definition onDisconnect (sock : SocketId) (s : State) : State * list Msg :=
  let free pn st := if owns (players st pn) sock
                    then set_player pn mkPlayerState st else st in
  let s1 := free P2 (free P1 s) in
  let s2 := if negb (seated (players s1 P1)) || negb (seated (players s1 P2))
            then set_winner None (set_turn None (set_phase LOBBY s1))
            else s1 in
  (s2, [ broadcast s2 ]).

(** One handler run: the event [e] arriving on connection [sock]. *)
Definition handle (env : Env) (sock : SocketId) (e : Event) (s : State)
  : option (State * list Msg) :=
  match e with
  | Connect => Some (onConnect sock s)
  | Join slot => Some (onJoin sock slot s)
  | PlaceShips slot shipsPayload => Some (onPlaceShips sock slot shipsPayload s)
  | Ready slot => Some (onReady env sock slot s)
  | Fire slot r c => onFire sock slot r c s
  | Chat from text => Some (onChat env sock from text s)
  | Reset => Some (onReset env sock s)
  | Disconnect => Some (onDisconnect sock s)
  end.

(** A run of the server: events are served one at a time, each to
    completion, from the state the module creates when it is loaded. *)
Record Input := mkInput {
  in_env : Env;
  in_sock : SocketId;
  in_event : Event;
}.

Fixpoint run (inputs : list Input) (s : State) : option State :=
  match inputs with
  | [] => Some s
  | i :: rest =>
      match handle (in_env i) (in_sock i) (in_event i) s with
      | None => None
      | Some (s', _) => run rest s'
      end
  end.

Definition reachable (s : State) : Prop :=
  ∃ t0 inputs, run inputs (initialState t0) = Some s.

(** ** The invariant of reachable states *)

(** Every cell of a board names a ship of the fleet, and a cell not yet
    flagged is not in that ship's hit set. *)
Definition fleet_ok (p : Player) : Prop :=
  ∀ k cell, board p !! k = Some cell →
    ∃ sh, ships p !! shipId cell = Some sh ∧
          (hit cell = false → k ∉ ship_hits sh).

Record Inv (s : State) : Prop := mkInv {
  inv_distinct :
    ∀ sock, socketId (player1 s) = Some sock → socketId (player2 s) ≠ Some sock;
  inv_ready : ∀ pn, ready (players s pn) = true → seated (players s pn) = true;
  inv_lobby :
    phase s = LOBBY ↔
    ¬ (seated (player1 s) = true ∧ seated (player2 s) = true);
  inv_turn : turn s ≠ None ↔ phase s = IN_PROGRESS ∨ phase s = FINISHED;
  inv_winner : winner s ≠ None → phase s = IN_PROGRESS ∨ phase s = FINISHED;
  inv_finished : phase s = FINISHED → winner s ≠ None ∧ turn s = winner s;
  inv_fleet : ∀ pn, fleet_ok (players s pn);
}.

(** What the placement loops keep true of the board and fleet they build. *)
Definition layout_ok (acc : gmap Coord Cell * gmap string Ship) : Prop :=
  (∀ id sh, acc.2 !! id = Some sh → ship_hits sh = ∅) ∧
  (∀ k cell, acc.1 !! k = Some cell → is_Some (acc.2 !! shipId cell)).

(** ** Sample runs *)

(** [n] cells along row [r], from column [c0]. *)
Definition row_cells (r c0 : Z) (n : nat) : list Coord :=
  (λ c, (r, c)) <$> seqZ c0 (Z.of_nat n).

(** [n] cells down column [c], from row [r0]. *)
Definition col_cells (r0 c : Z) (n : nat) : list Coord :=
  (λ r, (r, c)) <$> seqZ r0 (Z.of_nat n).

(** A fleet as the client's placement screen would send it. *)
Definition sampleFleet : list ShipPayload :=
  [ mkShipPayload "carrier" "Carrier" (row_cells 0 0 5);
    mkShipPayload "battleship" "Battleship" (row_cells 1 0 4);
    mkShipPayload "cruiser" "Cruiser" (row_cells 2 0 3);
    mkShipPayload "submarine" "Submarine" (row_cells 3 0 3);
    mkShipPayload "destroyer" "Destroyer" (row_cells 4 0 2) ].

(** The clock stands at 0 and the coin gives seat 1 the first turn. *)
Definition env0 : Env := mkEnv 0 true.

(** Two connections open; connection 1 takes seat 1 and connection 2 takes
    seat 2. *)
Definition seatBoth : list Input :=
  [ mkInput env0 1%nat Connect; mkInput env0 2%nat Connect;
    mkInput env0 1%nat (Join 1); mkInput env0 2%nat (Join 2) ].

(** Both seats place [sampleFleet] and declare themselves ready. *)
Definition toInProgress : list Input :=
  (seatBoth ++
  [ mkInput env0 1%nat (PlaceShips 1 sampleFleet);
    mkInput env0 2%nat (PlaceShips 2 sampleFleet);
    mkInput env0 1%nat (Ready 1); mkInput env0 2%nat (Ready 2) ])%list.

(** All cells a submission claims, ship after ship. *)
Definition fleetCells (payload : list ShipPayload) : list Coord :=
  concat (sp_cells <$> payload).

(** Sixteen cells on which [sampleFleet] has no ship. *)
Definition missCells : list Coord := (row_cells 9 0 10 ++ row_cells 8 0 6)%list.

(** Seat 1 and seat 2 fire in turn, seat 1 first. *)
Fixpoint volley (mine theirs : list Coord) : list Input :=
  match mine with
  | [] => []
  | (r, c) :: mine' =>
      mkInput env0 1%nat (Fire 1 r c) ::
      match theirs with
      | [] => []
      | (r', c') :: theirs' =>
          mkInput env0 2%nat (Fire 2 r' c') :: volley mine' theirs'
      end
  end.

(** A whole match: seat 1 sinks the fleet of seat 2 with its 17th shot. *)
Definition fullGame : list Input :=
  (toInProgress ++ volley (fleetCells sampleFleet) missCells)%list.

(** The match up to, and without, the shot that ends it. *)
Definition beforeLastShot : list Input := removelast fullGame.

(** The shot that ends [fullGame]. *)
Definition lastShot : Input := mkInput env0 1%nat (Fire 1 4 1).

(** Seat 1 asks for a reset in the middle of a match. *)
Definition resetMidGame : list Input :=
  (toInProgress ++ [ mkInput env0 1%nat Reset ])%list.

(** Seat 2 disconnects in the middle of a match. *)
Definition seat2Leaves : list Input :=
  (toInProgress ++ [ mkInput env0 2%nat Disconnect ])%list.

(** Seat 1 sends [ready] once more after winning [fullGame]. *)
Definition readyAfterFinish : list Input :=
  (fullGame ++ [ mkInput env0 1%nat (Ready 1) ])%list.

(** Seat 1 fires once and then sends [ready] again. *)
Definition readyAfterShot : list Input :=
  (toInProgress ++ [ mkInput env0 1%nat (Fire 1 0 0);
                     mkInput env0 1%nat (Ready 1) ])%list.

(** The match with the first shot of seat 1 taken. *)
Definition firstShot : list Input := removelast readyAfterShot.

(** Seat 1 fires, sends [ready] again, and fires once more. *)
Definition twoShotsInARow : list Input :=
  (readyAfterShot ++ [ mkInput env0 1%nat (Fire 1 0 1) ])%list.

(** The state a run of the server ends in. *)
Definition stateAfter (inputs : list Input) : State :=
  default (initialState 0) (run inputs (initialState 0)).

(** What the handler emits for input [i] after the run [inputs]. *)
Definition emitted (inputs : list Input) (i : Input) : list Msg :=
  default [] (snd <$> handle (in_env i) (in_sock i) (in_event i)
                        (stateAfter inputs)).

(** A destroyer, then a cruiser whose first cell lies on the destroyer and
    whose other cells are off the board. *)
Definition overlapThenOutside : list ShipPayload :=
  [ mkShipPayload "destroyer" "Destroyer" [ (0, 0); (0, 1) ];
    mkShipPayload "cruiser" "Cruiser" [ (0, 0); (0, 10); (0, 11) ] ].

(** ** The vocabulary of the claims *)

(** *** Phases, seats and rejected actions *)

(** The phase changes the specification lists. *)
Definition listed_transition (ph ph' : Phase) : Prop :=
  (ph = LOBBY ∧ ph' = PLACING) ∨ (ph = PLACING ∧ ph' = IN_PROGRESS) ∨
  (ph = IN_PROGRESS ∧ ph' = FINISHED) ∨ ph' = LOBBY.

Definition is_ready_event (e : Event) : Prop :=
  match e with Ready _ => True | _ => False end.

Definition bothSeated (s : State) : bool :=
  seated (players s P1) && seated (players s P2).

(** A seat's game data is gone: board, fleet, shot history, readiness. *)
Definition discarded (p : Player) : Prop :=
  board p = ∅ ∧ ships p = ∅ ∧ shotsTaken p = ∅ ∧ ready p = false.

(** The guards of the [fire] handler: the shot of connection [sock] for
    seat [pn] is taken. *)
Definition fire_accepted (sock : SocketId) (slot r c : Z) (s : State)
    (pn : Seat) : Prop :=
  phase s = IN_PROGRESS ∧ seat_of_slot slot = Some pn ∧
  socketId (players s pn) = Some sock ∧ turn s = Some pn ∧
  (r, c) ∉ shotsTaken (players s pn).

(** The [placeShips] event of connection [sock] passes the guards of the
    handler and the validator. *)
Definition place_accepted (sock : SocketId) (slot : Z)
    (payload : list ShipPayload) (s : State) (pn : Seat) : Prop :=
  seat_of_slot slot = Some pn ∧ socketId (players s pn) = Some sock ∧
  (phase s = PLACING ∨ phase s = LOBBY) ∧ validatePlacement payload = Ok.

(** The error taxonomy of the specification. *)
Inductive Rejection :=
  | SeatTaken
  | NotOwner
  | WrongPhase
  | NotYourTurn
  | InvalidPlacement (e : Reject)
  | RepeatFire.

(** [rejected sock s e k]: event [e], arriving on connection [sock] in
    state [s], is an action the taxonomy rejects for reason [k]. *)
Inductive rejected (sock : SocketId) (s : State) : Event → Rejection → Prop :=
  | rej_seat_taken slot pn other :
      seat_of_slot slot = Some pn →
      socketId (players s pn) = Some other → other ≠ sock →
      rejected sock s (Join slot) SeatTaken
  | rej_place_not_owner slot pn payload :
      seat_of_slot slot = Some pn → socketId (players s pn) ≠ Some sock →
      rejected sock s (PlaceShips slot payload) NotOwner
  | rej_ready_not_owner slot pn :
      seat_of_slot slot = Some pn → socketId (players s pn) ≠ Some sock →
      rejected sock s (Ready slot) NotOwner
  | rej_fire_not_owner slot pn r c :
      seat_of_slot slot = Some pn → socketId (players s pn) ≠ Some sock →
      rejected sock s (Fire slot r c) NotOwner
  | rej_fire_phase slot r c :
      phase s ≠ IN_PROGRESS →
      rejected sock s (Fire slot r c) WrongPhase
  | rej_place_phase slot payload :
      phase s ≠ PLACING → phase s ≠ LOBBY →
      rejected sock s (PlaceShips slot payload) WrongPhase
  | rej_fire_turn slot pn r c :
      seat_of_slot slot = Some pn → turn s ≠ Some pn →
      rejected sock s (Fire slot r c) NotYourTurn
  | rej_place_invalid slot pn payload e :
      seat_of_slot slot = Some pn → socketId (players s pn) = Some sock →
      phase s = PLACING ∨ phase s = LOBBY →
      validatePlacement payload = Fail e →
      rejected sock s (PlaceShips slot payload) (InvalidPlacement e)
  | rej_fire_repeat slot pn r c :
      phase s = IN_PROGRESS →
      seat_of_slot slot = Some pn → socketId (players s pn) = Some sock →
      turn s = Some pn → (r, c) ∈ shotsTaken (players s pn) →
      rejected sock s (Fire slot r c) RepeatFire.

(** What the server sends back for each kind of rejection. *)
Definition response (sock : SocketId) (k : Rejection) : list Msg :=
  match k with
  | SeatTaken =>
      [ ToSocket sock (Notice NoticeError "That slot is already taken.") ]
  | InvalidPlacement e => [ ToSocket sock (Notice NoticeError (reject_msg e)) ]
  | RepeatFire =>
      [ ToSocket sock (Notice NoticeError "You already fired there.") ]
  | NotOwner | WrongPhase | NotYourTurn => []
  end.

(** An error notice addressed to connection [sock]. *)
Definition is_error_notice_to (sock : SocketId) (m : Msg) : Prop :=
  ∃ text, m = ToSocket sock (Notice NoticeError text).


(** This shot raises the hit set of the opponent's ship [id] to the ship's
    declared size. *)
Definition sinks (before after : gmap string Ship) (id : string) (n : string)
  : Prop :=
  ∃ sh sh', before !! id = Some sh ∧ after !! id = Some sh' ∧
            (size (ship_hits sh) < size (ship_hits sh'))%nat ∧
            size (ship_hits sh') = ship_size sh' ∧ ship_name sh' = n.

(** *** The rules of a legal placement, as the specification lists them *)

(** The cells lie on one row or on one column. *)
Definition straight (cells : list Coord) : Prop :=
  (∃ r, Forall (λ k, k.1 = r) cells) ∨ (∃ c, Forall (λ k, k.2 = c) cells).

(** The cells are, in some order, a run of adjacent cells along a row or
    along a column. *)
Definition contiguous (cells : list Coord) : Prop :=
  ∃ r c, cells ≡ₚ row_cells r c (length cells) ∨
         cells ≡ₚ col_cells r c (length cells).

(** The cell lies on the 10 by 10 board. *)
Definition in_bounds (k : Coord) : Prop :=
  0 ≤ k.1 < BOARD_SIZE ∧ 0 ≤ k.2 < BOARD_SIZE.

Definition keysOf (p : list ShipPayload) : list string := sp_key <$> p.

(** 1. Every kind is one of the five required kinds, none repeated. *)
Definition rule1 (p : list ShipPayload) : Prop :=
  Forall (λ ship, sp_key ship ∈ allKeys) p ∧ NoDup (keysOf p).

(** 2. The cell count of a descriptor is the required size of its kind. *)
Definition rule2 (p : list ShipPayload) : Prop :=
  Forall (λ ship, required !! sp_key ship = Some (length (sp_cells ship))) p.

(** 3. The cells of a ship share their row or share their column. *)
Definition rule3 (p : list ShipPayload) : Prop :=
  Forall (λ ship, straight (sp_cells ship)) p.

(** 4. Every cell lies on the 10 by 10 board. *)
Definition rule4 (p : list ShipPayload) : Prop :=
  Forall (λ ship, Forall in_bounds (sp_cells ship)) p.

(** 5. No cell is claimed twice across the submission. *)
Definition rule5 (p : list ShipPayload) : Prop := NoDup (fleetCells p).

(** 6. The cells of a ship form a contiguous run. *)
Definition rule6 (p : list ShipPayload) : Prop :=
  Forall (λ ship, contiguous (sp_cells ship)) p.

(** 7. All five required kinds are present. *)
Definition rule7 (p : list ShipPayload) : Prop :=
  Forall (λ k, k ∈ keysOf p) allKeys.

(** The rules that are checked ship by ship. *)
Definition PerShipRules (p : list ShipPayload) : Prop :=
  rule1 p ∧ rule2 p ∧ rule3 p ∧ rule4 p ∧ rule5 p ∧ rule6 p.

Definition ValidPlacement (p : list ShipPayload) : Prop :=
  PerShipRules p ∧ rule7 p.

(** The declared size of a kind, zero for a kind that is not required. *)
Definition requiredSize (key : string) : nat := default 0%nat (required !! key).

(** The seven rules, numbered as in the specification. *)
Inductive Rule := Rule1 | Rule2 | Rule3 | Rule4 | Rule5 | Rule6 | Rule7.

Definition rule_holds (r : Rule) (p : list ShipPayload) : Prop :=
  match r with
  | Rule1 => rule1 p
  | Rule2 => rule2 p
  | Rule3 => rule3 p
  | Rule4 => rule4 p
  | Rule5 => rule5 p
  | Rule6 => rule6 p
  | Rule7 => rule7 p
  end.

Definition rule_number (r : Rule) : nat :=
  match r with
  | Rule1 => 1 | Rule2 => 2 | Rule3 => 3 | Rule4 => 4
  | Rule5 => 5 | Rule6 => 6 | Rule7 => 7
  end.

(** The rule a rejection text speaks of. *)
Definition rule_of_reject (e : Reject) : Rule :=
  match e with
  | UnexpectedKey _ | DuplicateShip _ => Rule1
  | IncorrectSize _ => Rule2
  | NotStraight _ => Rule3
  | OutOfBounds => Rule4
  | Overlap => Rule5
  | Gaps => Rule6
  | MissingShip _ => Rule7
  end.

(** [r] is the first rule of the list that the submission violates. *)
Definition first_violated (p : list ShipPayload) (r : Rule) : Prop :=
  ¬ rule_holds r p ∧
  ∀ r', (rule_number r' < rule_number r)%nat → rule_holds r' p.

(** *** The scan of the validator *)

(** What the loop body accepts, given the keys and cells seen so far. *)
Definition ShipOk (seenKeys : gset string) (occupied : gset Coord)
    (ship : ShipPayload) : Prop :=
  required !! sp_key ship = Some (length (sp_cells ship)) ∧
  (sp_key ship ∉ seenKeys) ∧
  straight (sp_cells ship) ∧
  Forall in_bounds (sp_cells ship) ∧
  NoDup (sp_cells ship) ∧
  (∀ k, k ∈ sp_cells ship → k ∉ occupied) ∧
  contiguous (sp_cells ship).

Fixpoint ScanOk (seenKeys : gset string) (occupied : gset Coord)
    (p : list ShipPayload) : Prop :=
  match p with
  | [] => True
  | ship :: rest =>
      ShipOk seenKeys occupied ship ∧
      ScanOk ({[ sp_key ship ]} ∪ seenKeys)
             (list_to_set (sp_cells ship) ∪ occupied) rest
  end.

(** The descriptor [ship], coming after the accepted descriptors [pre], has
    a fresh key of a required kind and that kind's number of cells. *)
Definition fresh_sized (pre : list ShipPayload) (ship : ShipPayload) : Prop :=
  (sp_key ship ∉ keysOf pre) ∧
  required !! sp_key ship = Some (length (sp_cells ship)).

(** The cells [cs] are on the board, pairwise distinct and free of the cells
    of [pre]. *)
Definition cells_clear (pre : list ShipPayload) (cs : list Coord) : Prop :=
  Forall in_bounds cs ∧ NoDup cs ∧ ∀ k, k ∈ cs → k ∉ fleetCells pre.

(** [Reported pre ship e]: scanning [ship] after the descriptors [pre], the
    first check that fails, in the order kind, repeat, size, straightness,
    then cell by cell bounds before overlap, then contiguity, is [e]. *)
Inductive Reported (pre : list ShipPayload) (ship : ShipPayload)
  : Reject → Prop :=
  | rep_unexpected :
      sp_key ship ∉ allKeys →
      Reported pre ship (UnexpectedKey (sp_key ship))
  | rep_duplicate :
      sp_key ship ∈ allKeys → sp_key ship ∈ keysOf pre →
      Reported pre ship (DuplicateShip (sp_key ship))
  | rep_size :
      sp_key ship ∈ allKeys → sp_key ship ∉ keysOf pre →
      required !! sp_key ship ≠ Some (length (sp_cells ship)) →
      Reported pre ship (IncorrectSize (label ship))
  | rep_straight :
      fresh_sized pre ship → ¬ straight (sp_cells ship) →
      Reported pre ship (NotStraight (label ship))
  | rep_bounds cs1 cell cs2 :
      fresh_sized pre ship → straight (sp_cells ship) →
      sp_cells ship = (cs1 ++ cell :: cs2)%list → cells_clear pre cs1 →
      ¬ in_bounds cell →
      Reported pre ship OutOfBounds
  | rep_overlap cs1 cell cs2 :
      fresh_sized pre ship → straight (sp_cells ship) →
      sp_cells ship = (cs1 ++ cell :: cs2)%list → cells_clear pre cs1 →
      in_bounds cell → cell ∈ cs1 ∨ cell ∈ fleetCells pre →
      Reported pre ship Overlap
  | rep_gaps :
      fresh_sized pre ship → straight (sp_cells ship) →
      cells_clear pre (sp_cells ship) → ¬ contiguous (sp_cells ship) →
      Reported pre ship Gaps.

(** [Reports p e]: [e] is the first violation met when the submission [p]
    is scanned descriptor by descriptor, missing kinds coming last in the
    order of [SHIP_DEFS]. *)
Inductive Reports (p : list ShipPayload) : Reject → Prop :=
  | reports_ship pre ship post e :
      p = (pre ++ ship :: post)%list → PerShipRules pre →
      Reported pre ship e → Reports p e
  | reports_missing ks1 k ks2 :
      PerShipRules p → allKeys = (ks1 ++ k :: ks2)%list →
      Forall (λ k', k' ∈ keysOf p) ks1 → k ∉ keysOf p →
      Reports p (MissingShip k).

(** *** Cell keys *)

(** The string has no comma in it. *)
Fixpoint comma_free (s : string) : Prop :=
  match s with
  | EmptyString => True
  | String a s' => a ≠ ","%char ∧ comma_free s'
  end.

(** ** Seats, fleets and messages along a run *)

(** *** Submissions up to order *)

(** Two descriptors of the same kind whose cells are the same up to
    order. *)
Definition same_ship (a b : ShipPayload) : Prop :=
  sp_key a = sp_key b ∧ sp_cells a ≡ₚ sp_cells b.

(** An integer that a number holds exactly. *)
Definition safe_integer (z : Z) : Prop := - 2 ^ 53 < z < 2 ^ 53.

Definition safe_cell (k : Coord) : Prop := safe_integer k.1 ∧ safe_integer k.2.

(** *** What a handler run does to a seat *)

(** What one handler run can do to the record of a seat: leave it, replace
    it by an empty record, store a validated layout, mark it ready, add a
    shot to its history, or resolve a shot on its board. *)
Inductive player_step : Player → Player → Prop :=
  | ps_same p : player_step p p
  | ps_fresh p so nm :
      player_step p {| socketId := so; name := nm; ready := false;
                       board := ∅; ships := ∅; shotsTaken := ∅ |}
  | ps_place p payload :
      validatePlacement payload = Ok →
      player_step p {| socketId := socketId p; name := name p; ready := false;
                       board := (layout payload).1;
                       ships := (layout payload).2;
                       shotsTaken := shotsTaken p |}
  | ps_ready p :
      size (ships p) = length SHIP_DEFS → player_step p (with_ready true p)
  | ps_shot p key : player_step p (with_shot key p)
  | ps_hit p key p' res sunk :
      resolveShot p key = Some (p', res, sunk) → player_step p p'.

(** The board and fleet of [p] are what the submission [payload] laid out,
    with the cells of [H] hit since. *)
Definition fleet_of (payload : list ShipPayload) (H : gset Coord) (p : Player)
  : Prop :=
  (∀ k cell, board p !! k = Some cell ↔
     ∃ ship, ship ∈ payload ∧ k ∈ sp_cells ship ∧
             cell = mkCell (sp_key ship) (bool_decide (k ∈ H))) ∧
  (∀ id sh, ships p !! id = Some sh ↔
     ∃ ship, ship ∈ payload ∧ sp_key ship = id ∧
             sh = mkShip (sp_name ship) (length (sp_cells ship))
                         (H ∩ list_to_set (sp_cells ship))).

(** The seat holds no fleet, or a fleet that passed the validator and the
    hits it has taken. *)
Definition placed (p : Player) : Prop :=
  ∃ payload H, (payload = [] ∨ ValidPlacement payload) ∧ fleet_of payload H p.

(** The declared size of every ship of the seat is the number of board
    cells that name it, as it is when the fleet was placed from a submission
    in the documented format. *)
Definition sizes_match_board (p : Player) : Prop :=
  ∀ id sh, ships p !! id = Some sh →
           size (filter (λ kc, shipId kc.2 = id) (board p)) = ship_size sh.

(** *** Connections and messages *)

(** Every character of the text is an ASCII character, one UTF-16 unit of
    the source's string. *)
Fixpoint ascii_only (s : string) : bool :=
  match s with
  | EmptyString => true
  | String a s' => bool_decide (nat_of_ascii a < 128)%nat && ascii_only s'
  end.

(** The connection holds neither seat. *)
Definition spectator (sock : SocketId) (s : State) : Prop :=
  ∀ pn, socketId (players s pn) ≠ Some sock.

(** The event is a [join] for a seat nobody holds. *)
Definition joins_free_seat (e : Event) (s : State) : Prop :=
  ∃ slot pn, e = Join slot ∧ seat_of_slot slot = Some pn ∧
             socketId (players s pn) = None.

(** Where a message may go and what it may carry, for the handler run that
    serves connection [sock] and ends in state [s']: state and shot reports
    speak of [s'], board payloads go to the holder of the seat they are built
    for, and notices, the [joined] answer and the greeting go to [sock]
    alone. *)
Definition routed (sock : SocketId) (s' : State) (m : Msg) : Prop :=
  match m with
  | ToAll (StateMsg st) => st = publicState s'
  | ToAll (ShotResultMsg r) =>
      shot_nextTurn r = turn s' ∧ shot_phase r = phase s' ∧
      shot_winner r = winner s'
  | ToAll (ChatMsg _ _ _) => True
  | ToAll _ => False
  | ToSocket to (BoardsMsg b) =>
      ∃ V, socketId (players s' V) = Some to ∧ b = boardsFor s' V
  | ToSocket to (StateMsg st) => to = sock ∧ st = publicState s'
  | ToSocket _ (ShotResultMsg _) | ToSocket _ (ChatMsg _ _ _) => False
  | ToSocket to _ => to = sock
  end.

(** *** Further sample runs *)

(** [sampleFleet] with the ships in reverse order, the cells of each in
    reverse order, and no names. *)
Definition sampleFleetReversed : list ShipPayload :=
  (λ ship, mkShipPayload (sp_key ship) "" (reverse (sp_cells ship)))
    <$> reverse sampleFleet.

(** Seat 2 takes its own seat again in the middle of a match, which empties
    its record. *)
Definition seat2Rejoins : list Input :=
  (toInProgress ++ [ mkInput env0 2%nat (Join 2) ])%list.

(** The run up to, and without, the second [ready]. *)
Definition beforeStart : list Input := removelast toInProgress.

(** ** The client, client.js

    The page script is embedded as far as it decides what the client sends:
    the escaping of chat text, the random placement, and the variables that
    guard a shot with the listeners that set them.  What the script writes
    to the page is left out. *)

(** *** Escaping *)

(** [escapeHtml]: each of the five characters of the class (ampersand, less
    than, greater than, double quote, single quote) is replaced by its
    entity, every other character is kept. *)
Definition escapeChar (ch : ascii) : string :=
  if decide (ch = "&"%char) then "&amp;"
  else if decide (ch = "<"%char) then "&lt;"
  else if decide (ch = ">"%char) then "&gt;"
  else if decide (ch = "034"%char) then "&quot;"
  else if decide (ch = "'"%char) then "&#39;"
  else String ch "".

Fixpoint escapeHtml (s : string) : string :=
  match s with
  | EmptyString => ""
  | String ch s' => escapeChar ch +:+ escapeHtml s'
  end.

(** The characters with which markup or an attribute value begins or
    ends. *)
Definition markup_char (ch : ascii) : Prop :=
  ch = "<"%char ∨ ch = ">"%char ∨ ch = "034"%char ∨ ch = "'"%char.

(** The characters [escapeHtml] replaces. *)
Definition special_char (ch : ascii) : Prop :=
  ch = "&"%char ∨ markup_char ch.

Fixpoint chars (s : string) : list ascii :=
  match s with
  | EmptyString => []
  | String ch s' => ch :: chars s'
  end.

(** *** Random placement *)

(** The client's copy of the fleet, [SHIPS] of client.js. *)
Record ClientShip := mkClientShip {
  cs_key : string;
  cs_name : string;
  cs_size : nat;
}.

Definition SHIPS : list ClientShip :=
  [ mkClientShip "carrier" "Carrier" 5;
    mkClientShip "battleship" "Battleship" 4;
    mkClientShip "cruiser" "Cruiser" 3;
    mkClientShip "submarine" "Submarine" 3;
    mkClientShip "destroyer" "Destroyer" 2 ].

(** The three random numbers of one try: whether [Math.random() < 0.5],
    which gives the direction 'H', and the two values of
    [Math.floor(Math.random() * BOARD_SIZE)]. *)
Record Draw := mkDraw {
  draw_horizontal : bool;
  draw_r0 : Z;
  draw_c0 : Z;
}.

(** [Math.random()] lies in the interval from 0 to 1, 1 excluded, so the
    two floors are integers from 0 to 9. *)
Definition draw_ok (d : Draw) : Prop :=
  0 ≤ draw_r0 d < BOARD_SIZE ∧ 0 ≤ draw_c0 d < BOARD_SIZE.

(** The loop [for (let i = 0; i < ship.size; i++)] from index [i] on, with
    [n] rounds to go: it leaves with no cells at the first cell past the
    last row or column. *)
Fixpoint buildCells (d : Draw) (i : Z) (n : nat) (cells : list Coord)
  : list Coord :=
  match n with
  | O => cells
  | S n' =>
      let r := draw_r0 d + (if draw_horizontal d then 0 else i) in
      let c := draw_c0 d + (if draw_horizontal d then i else 0) in
      if bool_decide (r >= BOARD_SIZE ∨ c >= BOARD_SIZE) then []
      else buildCells d (i + 1) n' (cells ++ [(r, c)])
  end.

(** The loop [for (let tries = 0; tries < 500 && !placed; tries++)] with
    [tries] rounds to go.  [grid] is the set of the cells whose entry in the
    10 by 10 array is 1; [rand] is the sequence of the draws and [i] the
    number of draws used so far. *)
Fixpoint tryShip (rand : nat → Draw) (size : nat) (grid : gset Coord)
    (tries : nat) (i : nat) : option (list Coord) * nat :=
  match tries with
  | O => (None, i)
  | S tries' =>
      let cells := buildCells (rand i) 0 size [] in
      if bool_decide (length cells = 0%nat)
      then tryShip rand size grid tries' (S i)
      else if existsb (λ k, bool_decide (k ∈ grid)) cells
      then tryShip rand size grid tries' (S i)
      else (Some cells, S i)
  end.

(** The loop [for (const ship of SHIPS)]: [None] when a ship found no place
    in 500 tries. *)
Fixpoint placeFleet (rand : nat → Draw) (todo : list ClientShip)
    (grid : gset Coord) (placement : list ShipPayload) (i : nat)
  : option (list ShipPayload) * nat :=
  match todo with
  | [] => (Some placement, i)
  | ship :: todo' =>
      match tryShip rand (cs_size ship) grid 500 i with
      | (Some cells, i') =>
          placeFleet rand todo' (list_to_set cells ∪ grid)
            (placement ++ [ mkShipPayload (cs_key ship) (cs_name ship) cells ])
            i'
      | (None, i') => (None, i')
      end
  end.

(** [randomizePlacement]: it starts over, with an empty grid, whenever a
    ship found no place.  The source puts no bound on the number of starts;
    [fuel] is the number of starts looked at, and [None] says that none of
    them placed the fleet. *)
Fixpoint randomizePlacement (fuel : nat) (rand : nat → Draw) (i : nat)
  : option (list ShipPayload * nat) :=
  match fuel with
  | O => None
  | S fuel' =>
      match placeFleet rand SHIPS ∅ [] i with
      | (Some placement, i') => Some (placement, i')
      | (None, i') => randomizePlacement fuel' rand i'
      end
  end.

(** [drawLocalPlacement]: the board the client paints before the server
    answers. *)
Definition drawLocalPlacement (myPlacement : list ShipPayload)
  : gmap Coord Cell :=
  foldl (λ myBoard p,
           foldl (λ myBoard k, <[k := mkCell (sp_key p) false]> myBoard)
                 myBoard (sp_cells p))
        ∅ myPlacement.

(** The cells a draw aims at, when none of them is off the grid. *)
Definition drawCells (d : Draw) (i : Z) (n : nat) : list Coord :=
  if draw_horizontal d then row_cells (draw_r0 d) (draw_c0 d + i) n
  else col_cells (draw_r0 d + i) (draw_c0 d) n.

(** What the placement loop keeps true of the ships placed so far. *)
Definition laid_out (grid : gset Coord) (placement : list ShipPayload) : Prop :=
  rule2 placement ∧ rule3 placement ∧ rule4 placement ∧ rule5 placement ∧
  rule6 placement ∧ grid = list_to_set (fleetCells placement).

(** *** The variables of the client and its listeners *)

(** Of the client's variables, those that [tryFire] reads: [mySlot],
    [phase], [turn] and [oppFog].  [winner] is kept with them. *)
Record Client := mkClient {
  mySlot : option Z;
  cl_phase : Phase;
  cl_turn : option Seat;
  cl_winner : option Seat;
  oppFog : gmap Coord FogResult;
}.

(** The variables as the script sets them when the page loads. *)
Definition initialClient : Client :=
  {| mySlot := None; cl_phase := LOBBY; cl_turn := None; cl_winner := None;
     oppFog := ∅ |}.

(** The number a seat goes by in payloads. *)
Definition slot_of (pn : Seat) : Z :=
  match pn with P1 => 1 | P2 => 2 end.

(** The listeners [socket.on(...)] of the client, as far as they assign to
    the variables above; what they write to the page is left out.  The
    payloads of this server carry no [opponent.full], so the [boards]
    listener takes the branch that stores the fog. *)
Definition onMessage (p : Payload) (cl : Client) : Client :=
  match p with
  | StateMsg st =>
      {| mySlot := mySlot cl; cl_phase := pub_phase st; cl_turn := pub_turn st;
         cl_winner := pub_winner st; oppFog := oppFog cl |}
  | BoardsMsg b =>
      {| mySlot := mySlot cl; cl_phase := cl_phase cl; cl_turn := cl_turn cl;
         cl_winner := cl_winner cl; oppFog := opponent_fog b |}
  | ShotResultMsg r =>
      {| mySlot := mySlot cl; cl_phase := shot_phase r;
         cl_turn := shot_nextTurn r; cl_winner := shot_winner r;
         oppFog :=
           if bool_decide (Some (slot_of (shot_by r)) = mySlot cl)
           then <[shot_at r := match shot_result r with
                               | ShotHit => FogH
                               | ShotMiss => FogM
                               end]> (oppFog cl)
           else oppFog cl |}
  | Joined slot =>
      {| mySlot := Some slot; cl_phase := cl_phase cl; cl_turn := cl_turn cl;
         cl_winner := cl_winner cl; oppFog := oppFog cl |}
  | Hello _ | Notice _ _ | ChatMsg _ _ _ => cl
  end.

(** The client of connection [sock] receives what is sent to all and what
    is sent to [sock], in the order of emission. *)
Definition receive (sock : SocketId) (cl : Client) (m : Msg) : Client :=
  match m with
  | ToAll p => onMessage p cl
  | ToSocket to p => if decide (to = sock) then onMessage p cl else cl
  end.

Definition deliver (sock : SocketId) (out : list Msg) (cl : Client) : Client :=
  foldl (receive sock) cl out.

(** [tryFire(r, c)]: the [fire] event the click on a cell emits, if any. *)
Definition tryFire (cl : Client) (r c : Z) : option Event :=
  match mySlot cl with
  | None => None
  | Some slot =>
      if bool_decide (slot = 0) then None
      else if negb (bool_decide (cl_phase cl = IN_PROGRESS)) then None
      else if negb (bool_decide (slot_of <$> cl_turn cl = Some slot)) then None
      else if bool_decide (is_Some (oppFog cl !! (r, c))) then None
      else Some (Fire slot r c)
  end.

(** [sendPlacement]: the [placeShips] event the client emits for the
    placement [myPlacement], which is the one [randomizePlacement] stored
    when the page loaded or when the button was last pressed. *)
Definition sendPlacement (cl : Client) (myPlacement : list ShipPayload)
  : option Event :=
  match mySlot cl with
  | None => None
  | Some slot =>
      if bool_decide (slot = 0) then None
      else Some (PlaceShips slot myPlacement)
  end.

(** The server serves the events [inputs] while the client of connection
    [sock] takes in every message as it is emitted. *)
Fixpoint session (sock : SocketId) (inputs : list Input) (s : State)
    (cl : Client) : option (State * Client) :=
  match inputs with
  | [] => Some (s, cl)
  | i :: rest =>
      match handle (in_env i) (in_sock i) (in_event i) s with
      | None => None
      | Some (s', out) => session sock rest s' (deliver sock out cl)
      end
  end.

(** The client's phase, turn and winner are those of the state [s]. *)
Definition pub_synced (s : State) (cl : Client) : Prop :=
  cl_phase cl = phase s ∧ cl_turn cl = turn s ∧ cl_winner cl = winner s.

(** [mySlot] is the seat the connection holds, if any, and during a match
    the fog has an entry exactly at the shots the server has on record for
    that seat. *)
Definition seat_synced (sock : SocketId) (s : State) (cl : Client) : Prop :=
  match mySlot cl with
  | None => spectator sock s
  | Some slot =>
      ∃ pn, slot = slot_of pn ∧ socketId (players s pn) = Some sock ∧
            (phase s = IN_PROGRESS →
             dom (oppFog cl) = shotsTaken (players s pn))
  end.

(** The client's variables agree with the server. *)
Definition Sync (sock : SocketId) (s : State) (cl : Client) : Prop :=
  pub_synced s cl ∧ seat_synced sock s cl.

(** A message that changes neither [mySlot] nor [oppFog] at any client. *)
Definition quiet (m : Msg) : Prop :=
  match m with
  | ToSocket _ (BoardsMsg _) | ToSocket _ (Joined _)
  | ToSocket _ (ShotResultMsg _)
  | ToAll (BoardsMsg _) | ToAll (Joined _) | ToAll (ShotResultMsg _) => False
  | _ => True
  end.

(** The event is not the disconnect of connection [sock]. *)
Definition stays (sock : SocketId) (i : Input) : Prop :=
  ¬ (in_sock i = sock ∧ in_event i = Disconnect).

(** *** Sample draws and a sample session *)

(** Draws that lay the five ships along the rows 0 to 4, from column 0. *)
Definition rowsDraws (n : nat) : Draw := mkDraw true (Z.of_nat n `mod` 10) 0.

(** The variables of the client of connection 1 after the run
    [toInProgress], which its own connection opens. *)
Definition clientAfterStart : Client :=
  default initialClient
    (snd <$> session 1%nat toInProgress (initialState 0) initialClient).

(** * Properties *)

#[local] Set Warnings "-clear-no-such-hyp".

Example sampleFleet_ok : validatePlacement sampleFleet = Ok.
Proof. vm_compute. reflexivity. Qed.

(** ** Records and seats *)

Lemma players_set_player_ne pn pn' p s :
  pn ≠ pn' → players (set_player pn p s) pn' = players s pn'.
Proof. by destruct pn, pn'. Qed.

Lemma opponent_ne' pn : pn ≠ opponent pn.
Proof. by destruct pn. Qed.

Lemma owns_true p sock : owns p sock = true ↔ socketId p = Some sock.
Proof. unfold owns. by rewrite bool_decide_eq_true. Qed.

Lemma owns_false p sock : owns p sock = false ↔ socketId p ≠ Some sock.
Proof. unfold owns. by rewrite bool_decide_eq_false. Qed.

Lemma owns_seated p sock : owns p sock = true → seated p = true.
Proof. rewrite owns_true. unfold seated. by intros ->. Qed.

Lemma fleet_ok_empty p : board p = ∅ → fleet_ok p.
Proof. intros Hb k cell. by rewrite Hb, lookup_empty. Qed.

Lemma Inv_initial t0 : Inv (initialState t0).
Proof.
  split; simpl; try done.
  - by intros [].
  - split; [by intros _ [? ?] | done].
  - split; [done | by intros [?|?]].
  - by intros [].
Qed.

Lemma placeCells_lookup id cells b k :
  placeCells id cells b !! k =
  if decide (k ∈ cells) then Some (mkCell id false) else b !! k.
Proof.
  unfold placeCells. revert b. induction cells as [|c cells IH]; intros b; simpl.
  - done.
  - rewrite IH. destruct (decide (k ∈ cells)) as [Hin|Hnin].
    + rewrite decide_True; [done | by right].
    + destruct (decide (c = k)) as [->|Hne].
      * rewrite decide_True; [| by left]. by rewrite lookup_insert_eq.
      * rewrite decide_False; [by rewrite lookup_insert_ne |].
        rewrite elem_of_cons. by intros [?|?].
Qed.

Lemma placeShip_ok acc ship : layout_ok acc → layout_ok (placeShip acc ship).
Proof.
  intros [Hh Hb]. split; simpl.
  - intros id sh. rewrite lookup_insert. case_decide; [| by apply Hh].
    by intros [= <-].
  - intros k cell. rewrite placeCells_lookup. case_decide.
    + intros [= <-]. simpl. rewrite lookup_insert_eq. by eexists.
    + intros Hk. rewrite lookup_insert. case_decide; [by eexists | by eapply Hb].
Qed.

Lemma foldl_placeShip_ok payload acc :
  layout_ok acc → layout_ok (foldl placeShip acc payload).
Proof.
  revert acc. induction payload as [|ship payload IH]; intros acc Hacc; simpl.
  - done.
  - by apply IH, placeShip_ok.
Qed.

Lemma layout_layout_ok payload : layout_ok (layout payload).
Proof.
  apply foldl_placeShip_ok. split; simpl; intros ??; by rewrite lookup_empty.
Qed.

Lemma layout_fleet_ok payload p :
  board p = (layout payload).1 → ships p = (layout payload).2 → fleet_ok p.
Proof.
  intros Hb Hs k cell Hk. destruct (layout_layout_ok payload) as [Hh Hc].
  rewrite Hb in Hk. destruct (Hc _ _ Hk) as [sh Hsh].
  exists sh. rewrite Hs. split; [done |].
  intros _. rewrite (Hh _ _ Hsh). set_solver.
Qed.

Ltac open_state s :=
  destruct s as [?ph [?so ?nm ?rd ?bd ?sh ?st] [?so ?nm ?rd ?bd ?sh ?st] ?t ?w ?ca].

Ltac open_Inv H :=
  let Hr := fresh "Hr" in
  let Hfl := fresh "Hfl" in
  destruct H as [?Hd Hr ?Hl ?Ht ?Hw ?Hf Hfl];
  pose proof (Hr P1); pose proof (Hr P2);
  pose proof (Hfl P1); pose proof (Hfl P2); clear Hr Hfl.

Ltac light := first [ done | solve [intuition congruence] | naive_solver ].

Ltac solve_Inv :=
  split; simpl;
  [ light
  | intros []; simpl; light
  | light ..
  | intros []; simpl; try done; try (by apply fleet_ok_empty) ].

Lemma Inv_onJoin sock slot s :
  Inv s → Inv (onJoin sock slot s).1.
Proof.
  intros HI. unfold onJoin.
  destruct (seat_of_slot slot) as [pn|]; [| done].
  destruct (seated (players s pn) && negb (owns (players s pn) sock)) eqn:Hc;
    [done |]. simpl.
  open_Inv HI. open_state s. unfold owns, seated in *.
  destruct pn; simpl in *;
    destruct so as [a|], so0 as [b|]; simpl in *;
    repeat case_bool_decide; simpl in *; simplify_eq; solve_Inv.
Qed.

Lemma Inv_onPlaceShips sock slot payload s :
  Inv s → Inv (onPlaceShips sock slot payload s).1.
Proof.
  intros HI. unfold onPlaceShips, setPlacementForPlayer.
  destruct (seat_of_slot slot) as [pn|]; [| done].
  destruct (negb (owns (players s pn) sock)); [done |].
  destruct (negb (bool_decide (phase s = PLACING)) && _); [done |].
  destruct (validatePlacement payload); [| done].
  pose proof (layout_fleet_ok payload) as Hlay.
  destruct (layout payload) as [b shl]. simpl.
  open_Inv HI. open_state s. unfold seated in *.
  destruct pn; simpl in *; solve_Inv; by apply Hlay.
Qed.

Lemma Inv_onReady env sock slot s :
  Inv s → Inv (onReady env sock slot s).1.
Proof.
  intros HI. unfold onReady.
  destruct (seat_of_slot slot) as [pn|]; [| done].
  destruct (owns (players s pn) sock) eqn:Ho; [| done]. simpl.
  destruct (negb (bool_decide _)); [done |].
  apply owns_seated in Ho.
  open_Inv HI. open_state s. unfold seated in *.
  destruct pn; simpl in *; destruct rd, rd0; simpl in *; solve_Inv.
Qed.

Lemma Inv_onReset env sock s :
  Inv s → Inv (onReset env sock s).1.
Proof.
  intros HI. unfold onReset, resetGame.
  destruct (owns (players s P1) sock || owns (players s P2) sock); [| done].
  open_Inv HI. open_state s. unfold seated in *. simpl in *.
  destruct so, so0; simpl in *; solve_Inv.
Qed.

Lemma Inv_onDisconnect sock s :
  Inv s → Inv (onDisconnect sock s).1.
Proof.
  intros HI. unfold onDisconnect.
  open_Inv HI. open_state s. unfold owns, seated in *. simpl in *.
  destruct so as [a|], so0 as [b|]; simpl in *;
    repeat case_bool_decide; simpl in *; simplify_eq; solve_Inv.
Qed.

Lemma resolveShot_frame target key target' res sunk :
  resolveShot target key = Some (target', res, sunk) →
  socketId target' = socketId target ∧ name target' = name target ∧
  ready target' = ready target ∧ shotsTaken target' = shotsTaken target.
Proof.
  unfold resolveShot. intros H.
  destruct (board target !! key) as [cell|]; [| by simplify_eq].
  destruct (hit cell); [by simplify_eq |].
  destruct (ships target !! shipId cell); by simplify_eq.
Qed.

Lemma resolveShot_fleet_ok target key target' res sunk :
  fleet_ok target →
  resolveShot target key = Some (target', res, sunk) →
  fleet_ok target'.
Proof.
  unfold resolveShot. intros Hok H.
  destruct (board target !! key) as [cell|] eqn:Hcell; [| by simplify_eq].
  destruct (hit cell) eqn:Hhit; [by simplify_eq |].
  destruct (ships target !! shipId cell) as [sh|] eqn:Hsh; simplify_eq.
  intros k cell'. simpl. rewrite lookup_insert. case_decide as Hk.
  - intros [= <-]. simpl. rewrite lookup_insert_eq. eexists. split; [done |].
    done.
  - intros Hk'. destruct (Hok _ _ Hk') as (sh' & Hsh' & Hnot).
    rewrite lookup_insert. case_decide as Hid.
    + eexists. split; [done |]. simpl. intros Hh.
      rewrite <- Hid in Hsh'. simplify_eq. specialize (Hnot Hh). set_solver.
    + by exists sh'.
Qed.

(** On a board whose cells all name ships of the fleet a shot always
    resolves. *)
Lemma resolveShot_total target key :
  fleet_ok target → is_Some (resolveShot target key).
Proof.
  unfold resolveShot. intros Hok.
  destruct (board target !! key) as [cell|] eqn:Hcell; [| by eexists].
  destruct (hit cell); [by eexists |].
  destruct (Hok _ _ Hcell) as (sh & -> & _). by eexists.
Qed.

Lemma onFire_accepted sock slot r c s pn :
  fire_accepted sock slot r c s pn →
  onFire sock slot r c s = resolveFire pn (r, c) s.
Proof.
  intros (Hph & Hpn & Ho & Ht & Hk). unfold onFire, owns.
  by rewrite Hpn, (bool_decide_eq_true_2 _ Hph), (bool_decide_eq_true_2 _ Ho),
    (bool_decide_eq_true_2 _ Ht), (bool_decide_eq_false_2 _ Hk).
Qed.

(** A fire event that fails a guard leaves the state alone and emits at
    most the repeat notice. *)
Lemma onFire_not_accepted sock slot r c s :
  (∀ pn, ¬ fire_accepted sock slot r c s pn) →
  onFire sock slot r c s = Some (s, []) ∨
  (onFire sock slot r c s
   = Some (s, [ ToSocket sock (Notice NoticeError "You already fired there.") ])
   ∧ ∃ pn, seat_of_slot slot = Some pn ∧ (r, c) ∈ shotsTaken (players s pn)).
Proof.
  intros Hno. unfold onFire.
  case_bool_decide as Hph; simpl; [| by left].
  destruct (seat_of_slot slot) as [pn|] eqn:Hpn; [| by left].
  destruct (owns (players s pn) sock) eqn:Ho; [| by left]. simpl.
  case_bool_decide as Ht; simpl; [| by left].
  case_bool_decide as Hk; [right; eauto |].
  destruct (Hno pn). apply owns_true in Ho. done.
Qed.

Lemma onFire_cases sock slot r c s :
  (∃ pn, fire_accepted sock slot r c s pn) ∨
  (∀ pn, ¬ fire_accepted sock slot r c s pn).
Proof.
  destruct (seat_of_slot slot) as [pn|] eqn:Hpn.
  - destruct (decide (phase s = IN_PROGRESS ∧ socketId (players s pn) = Some sock
                      ∧ turn s = Some pn ∧ (r, c) ∉ shotsTaken (players s pn)))
      as [(? & ? & ? & ?) | Hn].
    + left. by exists pn.
    + right. intros pn' (? & Hpn' & ? & ? & ?). rewrite Hpn in Hpn'.
      simplify_eq. by apply Hn.
  - right. intros pn' (? & Hpn' & ?). by rewrite Hpn in Hpn'.
Qed.

Lemma Inv_resolveFire pn key s s' out :
  Inv s → phase s = IN_PROGRESS → turn s = Some pn →
  resolveFire pn key s = Some (s', out) → Inv s'.
Proof.
  intros HI Hph Hturn. unfold resolveFire.
  rewrite players_set_player_ne by apply opponent_ne'.
  destruct (resolveShot (players s (opponent pn)) key)
    as [[[target' res] sunk]|] eqn:Hres; [| done].
  pose proof (resolveShot_frame _ _ _ _ _ Hres) as (Hf1 & Hf2 & Hf3 & Hf4).
  pose proof (resolveShot_fleet_ok _ _ _ _ _ (inv_fleet _ HI (opponent pn)) Hres)
    as Hok'.
  match goal with |- context [allShipsSunk ?st ?q] =>
    destruct (allShipsSunk st q) end; intros [= <- _].
  all: open_Inv HI; open_state s; unfold seated in *;
    destruct target'; destruct pn; simpl in *; simplify_eq; solve_Inv.
Qed.

Lemma Inv_onFire sock slot r c s s' out :
  Inv s → onFire sock slot r c s = Some (s', out) → Inv s'.
Proof.
  intros HI Hh. destruct (onFire_cases sock slot r c s) as [[pn Ha] | Hno].
  - rewrite (onFire_accepted _ _ _ _ _ _ Ha) in Hh.
    destruct Ha as (? & ? & ? & ? & ?). by eapply Inv_resolveFire.
  - destruct (onFire_not_accepted _ _ _ _ _ Hno) as [H | [H _]];
      rewrite H in Hh; by simplify_eq.
Qed.

Lemma Some_pair_fst {A B} (x : A * B) a b : Some x = Some (a, b) → x.1 = a.
Proof. by intros [= ->]. Qed.

Lemma Inv_handle env sock e s s' out :
  Inv s → handle env sock e s = Some (s', out) → Inv s'.
Proof.
  intros HI. destruct e; simpl; intros Hh;
    try (apply Some_pair_fst in Hh; subst s').
  - done.
  - by apply Inv_onJoin.
  - by apply Inv_onPlaceShips.
  - by apply Inv_onReady.
  - by eapply Inv_onFire.
  - unfold onChat. by destruct (all_white _).
  - by apply Inv_onReset.
  - by apply Inv_onDisconnect.
Qed.

Lemma run_Inv inputs s s' : Inv s → run inputs s = Some s' → Inv s'.
Proof.
  revert s. induction inputs as [|i inputs IH]; intros s HI; simpl.
  - by intros [= <-].
  - destruct (handle _ _ _ s) as [[s1 out]|] eqn:Hh; [| done].
    apply IH. by eapply Inv_handle.
Qed.

Lemma reachable_Inv s : reachable s → Inv s.
Proof. intros (t0 & inputs & Hrun). eapply run_Inv, Hrun. apply Inv_initial. Qed.

Lemma reachable_initial t0 : reachable (initialState t0).
Proof. by exists t0, []. Qed.

Lemma run_app inputs1 inputs2 s :
  run (inputs1 ++ inputs2) s = run inputs1 s ≫= run inputs2.
Proof.
  revert s. induction inputs1 as [|i inputs1 IH]; intros s; simpl; [done |].
  destruct (handle _ _ _ s) as [[s1 out]|]; [apply IH | done].
Qed.

Lemma reachable_step env sock e s s' out :
  reachable s → handle env sock e s = Some (s', out) → reachable s'.
Proof.
  intros (t0 & inputs & Hrun) Hh.
  exists t0, (inputs ++ [mkInput env sock e])%list.
  rewrite run_app, Hrun. simpl. by rewrite Hh.
Qed.

Lemma resolveFire_total pn key s : Inv s → is_Some (resolveFire pn key s).
Proof.
  intros HI. unfold resolveFire.
  rewrite players_set_player_ne by apply opponent_ne'.
  destruct (resolveShot_total (players s (opponent pn)) key)
    as [[[target' res] sunk] ->]; [apply HI | by eexists].
Qed.

(** No handler run dies on a reachable state. *)
Lemma handle_total env sock e s :
  Inv s → is_Some (handle env sock e s).
Proof.
  intros HI. destruct e; simpl; try by eexists.
  destruct (onFire_cases sock slot r c s) as [[pn Ha] | Hno].
  - rewrite (onFire_accepted _ _ _ _ _ _ Ha). by apply resolveFire_total.
  - destruct (onFire_not_accepted _ _ _ _ _ Hno) as [-> | [-> _]]; by eexists.
Qed.

(** ** Cell keys *)

Lemma pretty_N_go_comma_free (x : N) s :
  comma_free s → comma_free (pretty_N_go x s).
Proof.
  revert s. induction (N.lt_wf_0 x) as [x _ IH]; intros s Hs.
  assert (x = 0 ∨ 0 < x)%N as [-> | Hpos] by lia.
  - by rewrite pretty_N_go_0.
  - rewrite pretty_N_go_step by done. apply IH.
    + by apply N.div_lt.
    + split; [| done]. unfold pretty_N_char. by repeat case_match.
Qed.

Lemma pretty_Z_comma_free (z : Z) : comma_free (pretty z).
Proof.
  assert (HN : ∀ x : N, comma_free (pretty x)).
  { intros x. unfold pretty, pretty_N. case_decide; [by simpl |].
    by apply pretty_N_go_comma_free. }
  destruct z as [|p|p]; unfold pretty, pretty_Z.
  - by simpl.
  - apply HN.
  - split; [done | apply HN].
Qed.

Lemma append_comma_inj s1 s2 t1 t2 :
  comma_free s1 → comma_free s2 →
  s1 +:+ String "," t1 = s2 +:+ String "," t2 → s1 = s2 ∧ t1 = t2.
Proof.
  revert s2. induction s1 as [|a s1 IH]; intros [|b s2]; cbn.
  - by intros _ _ [= ->].
  - intros _ [Hb _] [= <-]. done.
  - intros [Ha _] _ [= ->]. done.
  - intros [_ H1] [_ H2] [= -> Heq]. destruct (IH _ H1 H2 Heq) as [-> ->]. done.
Qed.

(** Distinct coordinates have distinct key strings, so keying the maps by
    the pair is the same as keying them by the string of the source. *)
Lemma cellKey_inj : Inj (=) (=) cellKey.
Proof.
  intros [r1 c1] [r2 c2]. unfold cellKey. simpl. intros Heq.
  change (pretty r1 +:+ String "," (pretty c1)
          = pretty r2 +:+ String "," (pretty c2)) in Heq.
  apply append_comma_inj in Heq as [Hr Hc]; try apply pretty_Z_comma_free.
  apply (inj pretty) in Hr. apply (inj pretty) in Hc. by subst.
Qed.

Example cellKey_sample : cellKey (3, 7) = "3,7".
Proof. vm_compute. reflexivity. Qed.

(** ** Phase transitions (C3) *)

Lemma reachable_toInProgress : reachable (stateAfter toInProgress).
Proof. exists 0, toInProgress. vm_compute. reflexivity. Qed.

Lemma reachable_fullGame : reachable (stateAfter fullGame).
Proof. exists 0, fullGame. vm_compute. reflexivity. Qed.

Lemma phase_onJoin sock slot s :
  phase (onJoin sock slot s).1 = phase s ∨
  (phase s = LOBBY ∧ phase (onJoin sock slot s).1 = PLACING).
Proof.
  unfold onJoin. destruct (seat_of_slot slot) as [pn|]; [| by left].
  destruct (_ && negb _); [by left |]. simpl.
  destruct (owns _ _); destruct pn; simpl;
    case_bool_decide; simpl; repeat destruct (seated _); simpl; auto.
Qed.

Lemma phase_onPlaceShips sock slot payload s :
  phase (onPlaceShips sock slot payload s).1 = phase s.
Proof.
  unfold onPlaceShips, setPlacementForPlayer.
  destruct (seat_of_slot slot) as [pn|]; [| done].
  destruct (negb (owns _ _)); [done |].
  destruct (negb _ && _); [done |].
  destruct (validatePlacement payload); [| done].
  destruct (layout payload). by destruct pn.
Qed.

Lemma phase_onReady env sock slot s :
  Inv s →
  phase (onReady env sock slot s).1 = phase s ∨
  (phase s ≠ LOBBY ∧ phase (onReady env sock slot s).1 = IN_PROGRESS).
Proof.
  intros HI. unfold onReady.
  destruct (seat_of_slot slot) as [pn|]; [| by left].
  destruct (owns (players s pn) sock) eqn:Ho; [| by left]. simpl.
  destruct (negb (bool_decide _)); [by left |].
  apply owns_seated in Ho.
  open_Inv HI. open_state s. unfold seated in *.
  destruct pn; simpl in *; destruct rd, rd0; simpl in *; naive_solver.
Qed.

Lemma phase_resolveFire pn key s s' out :
  resolveFire pn key s = Some (s', out) →
  phase s' = phase s ∨ phase s' = FINISHED.
Proof.
  unfold resolveFire.
  destruct (resolveShot _ _) as [[[target' res] sunk]|]; [| done].
  destruct (allShipsSunk _ _); intros [= <- _]; destruct pn; simpl; auto.
Qed.

Lemma phase_onFire sock slot r c s s' out :
  onFire sock slot r c s = Some (s', out) →
  phase s' = phase s ∨ (phase s = IN_PROGRESS ∧ phase s' = FINISHED).
Proof.
  intros Hh. destruct (onFire_cases sock slot r c s) as [[pn Ha] | Hno].
  - rewrite (onFire_accepted _ _ _ _ _ _ Ha) in Hh.
    destruct Ha as (? & _). destruct (phase_resolveFire _ _ _ _ _ Hh); auto.
  - destruct (onFire_not_accepted _ _ _ _ _ Hno) as [H | [H _]];
      rewrite H in Hh; simplify_eq; by left.
Qed.

Lemma phase_onReset env sock s :
  phase (onReset env sock s).1 = phase s ∨
  phase (onReset env sock s).1 = LOBBY ∨
  (owns (players s P1) sock || owns (players s P2) sock = true ∧
   phase (onReset env sock s).1 = PLACING ∧
   seated (players (onReset env sock s).1 P1) = true ∧
   seated (players (onReset env sock s).1 P2) = true).
Proof.
  unfold onReset, resetGame. destruct (_ || _); [| by left]. right.
  unfold seated. simpl. destruct (socketId (player1 s)), (socketId (player2 s));
    simpl; auto.
Qed.

Lemma phase_onDisconnect sock s :
  phase (onDisconnect sock s).1 = phase s ∨ phase (onDisconnect sock s).1 = LOBBY.
Proof.
  unfold onDisconnect. simpl.
  repeat destruct (owns _ _); simpl; repeat destruct (seated _); simpl; auto.
Qed.

Lemma handle_resetMidGame :
  handle env0 1%nat Reset (stateAfter toInProgress)
  = Some (stateAfter resetMidGame, [broadcast (stateAfter resetMidGame)]).
Proof. vm_compute. reflexivity. Qed.

Lemma phase_toInProgress : phase (stateAfter toInProgress) = IN_PROGRESS.
Proof. vm_compute. reflexivity. Qed.

Lemma phase_resetMidGame : phase (stateAfter resetMidGame) = PLACING.
Proof. vm_compute. reflexivity. Qed.

(** C3, as stated, fails: a reset in the middle of a match, with both seats
    occupied, takes IN_PROGRESS to PLACING. *)
Lemma C3_counterexample :
  ¬ (∀ env sock e s s' out,
       reachable s → handle env sock e s = Some (s', out) →
       phase s' = phase s ∨ listed_transition (phase s) (phase s')).
Proof.
  intros H.
  specialize (H _ _ _ _ _ _ reachable_toInProgress handle_resetMidGame).
  rewrite phase_toInProgress, phase_resetMidGame in H.
  destruct H as [? | [[? ?] | [[? ?] | [[? ?] | ?]]]]; done.
Qed.

(** C3 (amended): apart from a [ready] event that arrives in the FINISHED
    phase, every handler run on a reachable state leaves the phase as it is
    or takes LOBBY to PLACING, PLACING to IN_PROGRESS, IN_PROGRESS to
    FINISHED, any phase to LOBBY, or, on a reset with both seats occupied,
    any phase to PLACING. *)
Theorem C3_phase_transitions env sock e s s' out :
  reachable s →
  handle env sock e s = Some (s', out) →
  ¬ (is_ready_event e ∧ phase s = FINISHED) →
  phase s' = phase s ∨ listed_transition (phase s) (phase s') ∨
  (e = Reset ∧ phase s' = PLACING ∧
   seated (players s' P1) = true ∧ seated (players s' P2) = true).
Proof.
  intros Hreach Hh Hnot. apply reachable_Inv in Hreach.
  unfold listed_transition.
  destruct e; simpl in Hh;
    try (apply Some_pair_fst in Hh; subst s').
  - by left.
  - destruct (phase_onJoin sock slot s) as [? | [? ?]];
      [by left | right; left; left; done].
  - left. apply phase_onPlaceShips.
  - destruct (phase_onReady env sock slot s Hreach) as [? | [Hl Hp]]; auto.
    rewrite Hp. destruct (phase s) eqn:Hph.
    + done.
    + right. left. right. left. done.
    + by left.
    + destruct Hnot. split; [exact I | done].
  - destruct (phase_onFire _ _ _ _ _ _ _ Hh) as [? | [? ?]];
      [by left | right; left; right; right; left; done].
  - left. unfold onChat. by destruct (all_white _).
  - destruct (phase_onReset env sock s) as [? | [? | (? & ? & ? & ?)]];
      [by left | right; left; right; right; right; done | right; right; done].
  - destruct (phase_onDisconnect sock s) as [? | ?];
      [by left | right; left; right; right; right; done].
Qed.

Lemma C3_phase_transitions_witness :
  let s := stateAfter toInProgress in
  let s' := stateAfter resetMidGame in
  reachable s ∧
  handle env0 1%nat Reset s = Some (s', [broadcast s']) ∧
  ¬ (is_ready_event Reset ∧ phase s = FINISHED) ∧
  (phase s' = phase s ∨ listed_transition (phase s) (phase s') ∨
   (Reset = Reset ∧ phase s' = PLACING ∧
    seated (players s' P1) = true ∧ seated (players s' P2) = true)).
Proof.
  intros s s'.
  assert (Hn : ¬ (is_ready_event Reset ∧ phase s = FINISHED))
    by (intros [Hr _]; exact Hr).
  split; [exact reachable_toInProgress |].
  split; [exact handle_resetMidGame |]. split; [exact Hn |].
  exact (C3_phase_transitions env0 1%nat Reset s s' _
           reachable_toInProgress handle_resetMidGame Hn).
Defined.

(** The [ready] handler does not look at the phase.  Sent after the end of
    a match, while both seats are still marked ready, it starts play again
    on the sunk boards, with the old winner still on record. *)
Example ready_restarts_finished_match :
  phase (stateAfter fullGame) = FINISHED ∧
  phase (stateAfter readyAfterFinish) = IN_PROGRESS ∧
  winner (stateAfter readyAfterFinish) = Some P1.
Proof. vm_compute. done. Qed.

(** Sent during a match it draws the turn again: here seat 1 has just
    fired, and gets the turn back. *)
Example ready_redraws_turn :
  turn (stateAfter (removelast readyAfterShot)) = Some P2 ∧
  turn (stateAfter readyAfterShot) = Some P1.
Proof. vm_compute. done. Qed.

(** ** Turn, winner and phase (C2) *)

Ltac by_compute := apply (bool_decide_unpack _); vm_compute; exact I.

Lemma reachable_beforeLastShot : reachable (stateAfter beforeLastShot).
Proof. exists 0, beforeLastShot. vm_compute. reflexivity. Qed.

Lemma lastShot_accepted :
  fire_accepted 1%nat 1 4 1 (stateAfter beforeLastShot) P1.
Proof. unfold fire_accepted. by_compute. Qed.

Lemma lastShot_handled :
  handle env0 1%nat (Fire 1 4 1) (stateAfter beforeLastShot)
  = Some (stateAfter fullGame, emitted beforeLastShot lastShot).
Proof. vm_compute. reflexivity. Qed.

Lemma lastShot_sinks_fleet : allShipsSunk (stateAfter fullGame) P2 = true.
Proof. vm_compute. reflexivity. Qed.

Lemma phase_fullGame : phase (stateAfter fullGame) = FINISHED.
Proof. vm_compute. reflexivity. Qed.

Lemma turn_fullGame : turn (stateAfter fullGame) = Some P1.
Proof. vm_compute. reflexivity. Qed.

(** C2, as stated, fails: after the shot that sinks the last ship the phase
    is FINISHED and [turn] still names the shooter. *)
Lemma C2_counterexample :
  ¬ (∀ s, reachable s →
       (turn s ≠ None ↔ phase s = IN_PROGRESS) ∧
       (winner s ≠ None ↔ phase s = FINISHED)).
Proof.
  intros H. destruct (H _ reachable_fullGame) as [[H1 _] _].
  rewrite turn_fullGame, phase_fullGame in H1.
  by specialize (H1 ltac:(done)).
Qed.

Lemma resolveFire_finish pn key s s' out :
  turn s = Some pn →
  resolveFire pn key s = Some (s', out) →
  allShipsSunk s' (opponent pn) = true →
  phase s' = FINISHED ∧ winner s' = Some pn ∧ turn s' = Some pn.
Proof.
  intros Ht. unfold resolveFire.
  destruct (resolveShot _ _) as [[[target' res] sunk]|]; [| done].
  match goal with |- context [allShipsSunk ?st ?q] =>
    destruct (allShipsSunk st q) eqn:Hsunk end; intros [= <- _].
  - intros _. by destruct pn.
  - intros Hs. exfalso. revert Hsunk Hs. unfold allShipsSunk.
    destruct pn; simpl; congruence.
Qed.

(** C2 (amended): in every reachable state [turn] is set exactly in the
    phases IN_PROGRESS and FINISHED, [winner] is set whenever the phase is
    FINISHED (where [turn] still names the winner) and is null in LOBBY and
    PLACING; an accepted shot that leaves the opponent's whole fleet sunk
    makes the phase FINISHED and the shooter the winner, and keeps [turn]
    at the shooter. *)
Theorem C2_turn_winner_phase s :
  reachable s →
  (turn s ≠ None ↔ phase s = IN_PROGRESS ∨ phase s = FINISHED) ∧
  (phase s = FINISHED → winner s ≠ None ∧ turn s = winner s) ∧
  (phase s = LOBBY ∨ phase s = PLACING → winner s = None) ∧
  (∀ env sock slot r c pn s' out,
     fire_accepted sock slot r c s pn →
     handle env sock (Fire slot r c) s = Some (s', out) →
     allShipsSunk s' (opponent pn) = true →
     phase s' = FINISHED ∧ winner s' = Some pn ∧ turn s' = Some pn).
Proof.
  intros Hreach. apply reachable_Inv in Hreach.
  destruct Hreach as [_ _ _ Ht Hw Hf _].
  split; [exact Ht |]. split; [exact Hf |]. split.
  - intros Hph. destruct (winner s) eqn:Hwin; [| done].
    destruct Hw as [Hw | Hw]; [done | |]; rewrite Hw in Hph; by destruct Hph.
  - intros env sock slot r c pn s' out Ha Hh Hsunk. simpl in Hh.
    rewrite (onFire_accepted _ _ _ _ _ _ Ha) in Hh.
    destruct Ha as (_ & _ & _ & Hturn & _).
    by eapply resolveFire_finish.
Qed.

Lemma C2_turn_winner_phase_witness :
  let s := stateAfter beforeLastShot in
  let s' := stateAfter fullGame in
  reachable s ∧
  (turn s ≠ None ↔ phase s = IN_PROGRESS ∨ phase s = FINISHED) ∧
  (phase s = FINISHED → winner s ≠ None ∧ turn s = winner s) ∧
  (phase s = LOBBY ∨ phase s = PLACING → winner s = None) ∧
  fire_accepted 1%nat 1 4 1 s P1 ∧
  handle env0 1%nat (Fire 1 4 1) s
  = Some (s', emitted beforeLastShot lastShot) ∧
  allShipsSunk s' (opponent P1) = true ∧
  phase s' = FINISHED ∧ winner s' = Some P1 ∧ turn s' = Some P1.
Proof.
  intros s s'.
  destruct (C2_turn_winner_phase s reachable_beforeLastShot)
    as (H1 & H2 & H3 & H4).
  split; [exact reachable_beforeLastShot |].
  split; [exact H1 |]. split; [exact H2 |]. split; [exact H3 |].
  split; [exact lastShot_accepted |].
  split; [exact lastShot_handled |].
  split; [exact lastShot_sinks_fleet |].
  exact (H4 env0 _ _ _ _ _ _ _ lastShot_accepted lastShot_handled
           lastShot_sinks_fleet).
Defined.

(** ** Reset and disconnect (C10) *)

Lemma handle_seat2Leaves :
  handle env0 2%nat Disconnect (stateAfter toInProgress)
  = Some (stateAfter seat2Leaves, [broadcast (stateAfter seat2Leaves)]).
Proof. vm_compute. reflexivity. Qed.

Lemma board_seat2Leaves : board (players (stateAfter seat2Leaves) P1) ≠ ∅.
Proof. by_compute. Qed.

(** C10, as stated, fails for disconnects: when seat 2 leaves in the middle
    of a match, seat 1 keeps its board. *)
Lemma C10_counterexample :
  ¬ (∀ env sock s s' out,
       reachable s → handle env sock Disconnect s = Some (s', out) →
       (∀ pn, socketId (players s pn) ≠ Some sock →
              socketId (players s' pn) = socketId (players s pn) ∧
              name (players s' pn) = name (players s pn)) ∧
       (∀ pn, discarded (players s' pn)) ∧
       turn s' = None ∧ winner s' = None ∧
       phase s' = if bothSeated s' then PLACING else LOBBY).
Proof.
  intros H.
  destruct (H _ _ _ _ _ reachable_toInProgress handle_seat2Leaves)
    as (_ & Hd & _).
  destruct (Hd P1) as [Hb _]. by apply board_seat2Leaves.
Qed.

Lemma onReset_honored env sock s :
  owns (players s P1) sock || owns (players s P2) sock = true →
  ∃ s', onReset env sock s = (s', [broadcast s']) ∧
    (∀ pn, socketId (players s' pn) = socketId (players s pn) ∧
           name (players s' pn) = name (players s pn) ∧
           discarded (players s' pn)) ∧
    turn s' = None ∧ winner s' = None ∧
    phase s' = if bothSeated s then PLACING else LOBBY.
Proof.
  intros Ho. unfold onReset, resetGame. rewrite Ho. eexists. split; [done |].
  unfold bothSeated, seated, discarded. simpl.
  destruct (socketId (player1 s)) eqn:E1, (socketId (player2 s)) eqn:E2;
    simpl; (split; [by intros [] |]); done.
Qed.

Lemma onDisconnect_seated sock s pn :
  Inv s → socketId (players s pn) = Some sock →
  ∃ s', onDisconnect sock s = (s', [broadcast s']) ∧
    players s' pn = mkPlayerState ∧
    players s' (opponent pn) = players s (opponent pn) ∧
    phase s' = LOBBY ∧ turn s' = None ∧ winner s' = None.
Proof.
  intros HI Ho. unfold onDisconnect. eexists. split; [done |].
  pose proof (inv_distinct _ HI) as Hd. clear HI.
  open_state s. unfold owns, seated in *.
  destruct pn; simpl in *; subst;
    repeat (case_bool_decide; simpl in *); simplify_eq; try done.
  all: try by destruct (Hd _ eq_refl).
  all: try by destruct so.
  all: try by destruct so0.
Qed.

Lemma onDisconnect_unseated sock s :
  (∀ pn, socketId (players s pn) ≠ Some sock) →
  ∃ s', onDisconnect sock s = (s', [broadcast s']) ∧
    (∀ pn, players s' pn = players s pn) ∧
    if bothSeated s then s' = s
    else phase s' = LOBBY ∧ turn s' = None ∧ winner s' = None.
Proof.
  intros Hne. unfold onDisconnect. eexists. split; [done |].
  pose proof (Hne P1) as H1. pose proof (Hne P2) as H2. clear Hne.
  unfold owns, bothSeated. simpl in *.
  rewrite (bool_decide_eq_false_2 _ H1). simpl.
  rewrite (bool_decide_eq_false_2 _ H2).
  destruct (seated (player1 s)), (seated (player2 s)); simpl;
    (split; [by intros [] |]); done.
Qed.

(** C10 (amended): a reset honored from a seated connection keeps both
    seats' connections and names, discards every board, fleet, shot history
    and readiness flag together with [turn] and [winner], and leaves the
    phase PLACING when both seats are occupied and LOBBY otherwise.  The
    disconnect of a seated connection vacates that seat, leaves the other
    seat's whole record as it was (its connection and name, and also its
    board, fleet, shot history and readiness, which are kept), clears
    [turn] and [winner] and sets the phase to LOBBY.  The disconnect of an
    unseated connection changes no seat, and nothing at all while both
    seats are occupied. *)
Theorem C10_reset_disconnect env sock s :
  reachable s →
  (owns (players s P1) sock || owns (players s P2) sock = true →
   ∃ s', handle env sock Reset s = Some (s', [broadcast s']) ∧
     (∀ pn, socketId (players s' pn) = socketId (players s pn) ∧
            name (players s' pn) = name (players s pn) ∧
            discarded (players s' pn)) ∧
     turn s' = None ∧ winner s' = None ∧
     phase s' = if bothSeated s then PLACING else LOBBY) ∧
  (∀ pn, socketId (players s pn) = Some sock →
   ∃ s', handle env sock Disconnect s = Some (s', [broadcast s']) ∧
     players s' pn = mkPlayerState ∧
     players s' (opponent pn) = players s (opponent pn) ∧
     phase s' = LOBBY ∧ turn s' = None ∧ winner s' = None) ∧
  ((∀ pn, socketId (players s pn) ≠ Some sock) →
   ∃ s', handle env sock Disconnect s = Some (s', [broadcast s']) ∧
     (∀ pn, players s' pn = players s pn) ∧
     if bothSeated s then s' = s
     else phase s' = LOBBY ∧ turn s' = None ∧ winner s' = None).
Proof.
  intros Hreach. apply reachable_Inv in Hreach. simpl. repeat split.
  - intros Ho. destruct (onReset_honored env sock s Ho) as (s' & -> & ?).
    by exists s'.
  - intros pn Ho.
    destruct (onDisconnect_seated sock s pn Hreach Ho) as (s' & -> & ?).
    by exists s'.
  - intros Hne. destruct (onDisconnect_unseated sock s Hne) as (s' & -> & ?).
    by exists s'.
Qed.

Lemma C10_reset_disconnect_witness :
  let s := stateAfter toInProgress in
  reachable s ∧
  socketId (players s P2) = Some 2%nat ∧
  ∃ s', handle env0 2%nat Disconnect s = Some (s', [broadcast s']) ∧
    players s' P2 = mkPlayerState ∧
    players s' (opponent P2) = players s (opponent P2) ∧
    phase s' = LOBBY ∧ turn s' = None ∧ winner s' = None.
Proof.
  intros s.
  assert (Ho : socketId (players s P2) = Some 2%nat)
    by (vm_compute; reflexivity).
  split; [exact reachable_toInProgress |]. split; [exact Ho |].
  exact (proj1 (proj2 (C10_reset_disconnect env0 2%nat s
                         reachable_toInProgress)) P2 Ho).
Defined.

(** ** Guards of the fire handler (C5) *)

Lemma allShipsSunk_ext s1 s2 pn :
  ships (players s1 pn) = ships (players s2 pn) →
  allShipsSunk s1 pn = allShipsSunk s2 pn.
Proof. unfold allShipsSunk. by intros ->. Qed.

(** What an accepted shot does, field by field. *)
Lemma resolveFire_spec pn key s s' out :
  resolveFire pn key s = Some (s', out) →
  ∃ target' res sunk,
    resolveShot (players s (opponent pn)) key = Some (target', res, sunk) ∧
    players s' pn = with_shot key (players s pn) ∧
    players s' (opponent pn) = target' ∧
    createdAt s' = createdAt s ∧
    (if allShipsSunk s' (opponent pn)
     then phase s' = FINISHED ∧ winner s' = Some pn ∧ turn s' = turn s
     else phase s' = phase s ∧ winner s' = winner s ∧
          turn s' = Some (opponent pn)) ∧
    out = ToAll (ShotResultMsg
                   {| shot_by := pn; shot_at := key; shot_result := res;
                      shot_sunkShip := sunk; shot_nextTurn := turn s';
                      shot_phase := phase s'; shot_winner := winner s' |})
            :: sendPrivateBoards s' ++ [ broadcast s' ].
Proof.
  unfold resolveFire.
  rewrite players_set_player_ne by apply opponent_ne'.
  destruct (resolveShot (players s (opponent pn)) key)
    as [[[target' res] sunk]|] eqn:Hres; [| done].
  match goal with |- context [allShipsSunk ?st ?q] =>
    destruct (allShipsSunk st q) eqn:Hsunk end; intros [= <- <-];
    exists target', res, sunk.
  - rewrite (allShipsSunk_ext _ (set_player (opponent pn) target'
              (set_player pn (with_shot key (players s pn)) s)))
      by (by destruct pn).
    rewrite Hsunk. by destruct pn.
  - rewrite (allShipsSunk_ext _ (set_player (opponent pn) target'
              (set_player pn (with_shot key (players s pn)) s)))
      by (by destruct pn).
    rewrite Hsunk. by destruct pn.
Qed.

Lemma with_shot_ne key p : key ∉ shotsTaken p → with_shot key p ≠ p.
Proof.
  intros Hk Heq. apply Hk. rewrite <- Heq. simpl. set_solver.
Qed.

(** C5: a fire event changes the state only when the phase is IN_PROGRESS,
    the connection is bound to the claimed seat, it is that seat's turn and
    the coordinate is not in the seat's shot history; a fire at a coordinate
    already in the history leaves the whole state as it was and broadcasts
    nothing; and an accepted shot adds exactly one new coordinate to the
    shooter's history, so no coordinate is ever recorded twice. *)
Theorem C5_fire_guards env sock slot r c s :
  (∀ s' out, handle env sock (Fire slot r c) s = Some (s', out) → s' ≠ s →
     ∃ pn, fire_accepted sock slot r c s pn) ∧
  (∀ pn, seat_of_slot slot = Some pn → (r, c) ∈ shotsTaken (players s pn) →
     ∃ out, handle env sock (Fire slot r c) s = Some (s, out) ∧
            ∀ m, m ∈ out → ∃ text, m = ToSocket sock (Notice NoticeError text)) ∧
  (∀ pn s' out, fire_accepted sock slot r c s pn →
     handle env sock (Fire slot r c) s = Some (s', out) →
     s' ≠ s ∧
     shotsTaken (players s' pn) = {[ (r, c) ]} ∪ shotsTaken (players s pn) ∧
     size (shotsTaken (players s' pn)) = S (size (shotsTaken (players s pn))) ∧
     shotsTaken (players s' (opponent pn))
     = shotsTaken (players s (opponent pn))).
Proof.
  simpl. split; [| split].
  - intros s' out Hh Hne.
    destruct (onFire_cases sock slot r c s) as [Ha | Hno]; [done |].
    destruct (onFire_not_accepted _ _ _ _ _ Hno) as [H | [H _]];
      rewrite H in Hh; by simplify_eq.
  - intros pn Hpn Hk.
    assert (Hno : ∀ pn', ¬ fire_accepted sock slot r c s pn').
    { intros pn' (_ & Hpn' & _ & _ & Hk'). rewrite Hpn in Hpn'.
      by simplify_eq. }
    destruct (onFire_not_accepted _ _ _ _ _ Hno) as [-> | [-> _]];
      eexists; (split; [done |]); intros m Hm.
    + by apply elem_of_nil in Hm.
    + apply list_elem_of_singleton in Hm as ->. by eexists.
  - intros pn s' out Ha Hh.
    rewrite (onFire_accepted _ _ _ _ _ _ Ha) in Hh.
    destruct (resolveFire_spec _ _ _ _ _ Hh)
      as (target' & res & sunk & Hres & Hp & Ht & _).
    destruct Ha as (_ & _ & _ & _ & Hk).
    split; [| split; [| split]].
    + intros ->. by apply (with_shot_ne _ _ Hk).
    + by rewrite Hp.
    + rewrite Hp. simpl. rewrite size_union by set_solver.
      by rewrite size_singleton.
    + rewrite Ht.
      by destruct (resolveShot_frame _ _ _ _ _ Hres) as (_ & _ & _ & ->).
Qed.

Lemma repeat_in_history :
  (0, 0) ∈ shotsTaken (players (stateAfter beforeLastShot) P1).
Proof. by_compute. Qed.

Lemma C5_fire_guards_witness :
  let s := stateAfter beforeLastShot in
  let s' := stateAfter fullGame in
  (handle env0 1%nat (Fire 1 4 1) s = Some (s', emitted beforeLastShot lastShot)
   ∧ s' ≠ s ∧ ∃ pn, fire_accepted 1%nat 1 4 1 s pn) ∧
  (seat_of_slot 1 = Some P1 ∧ (0, 0) ∈ shotsTaken (players s P1) ∧
   ∃ out, handle env0 1%nat (Fire 1 0 0) s = Some (s, out) ∧
          ∀ m, m ∈ out → ∃ text, m = ToSocket 1%nat (Notice NoticeError text)) ∧
  (fire_accepted 1%nat 1 4 1 s P1 ∧
   shotsTaken (players s' P1) = {[ (4, 1) ]} ∪ shotsTaken (players s P1) ∧
   size (shotsTaken (players s' P1)) = S (size (shotsTaken (players s P1))) ∧
   shotsTaken (players s' (opponent P1)) = shotsTaken (players s (opponent P1))).
Proof.
  intros s s'.
  destruct (C5_fire_guards env0 1%nat 1 4 1 s) as (H1 & _ & H3).
  destruct (C5_fire_guards env0 1%nat 1 0 0 s) as (_ & H2 & _).
  destruct (H3 P1 s' _ lastShot_accepted lastShot_handled) as (Hne & Hrest).
  split; [| split].
  - split; [exact lastShot_handled |]. split; [exact Hne |].
    exact (H1 s' _ lastShot_handled Hne).
  - split; [reflexivity |]. split; [exact repeat_in_history |].
    exact (H2 P1 eq_refl repeat_in_history).
  - split; [exact lastShot_accepted | exact Hrest].
Defined.

(** ** Rejected actions (C9) *)

Lemma fire_in_lobby_rejected :
  rejected 1%nat (initialState 0) (Fire 1 0 0) WrongPhase.
Proof. by apply rej_fire_phase. Qed.

Lemma fire_in_lobby_dropped :
  handle env0 1%nat (Fire 1 0 0) (initialState 0) = Some (initialState 0, []).
Proof. reflexivity. Qed.

(** C9, as stated, fails: a fire outside IN_PROGRESS is dropped without any
    notice to the sender. *)
Lemma C9_counterexample :
  ¬ (∀ env sock s e k,
       rejected sock s e k →
       ∃ text, handle env sock e s
               = Some (s, [ ToSocket sock (Notice NoticeError text) ])).
Proof.
  intros H.
  destruct (H env0 _ _ _ _ fire_in_lobby_rejected) as [text Ht].
  rewrite fire_in_lobby_dropped in Ht. discriminate Ht.
Qed.

Lemma onPlaceShips_cases sock slot payload s :
  (∃ pn, seat_of_slot slot = Some pn ∧ socketId (players s pn) = Some sock ∧
         (phase s = PLACING ∨ phase s = LOBBY) ∧
         onPlaceShips sock slot payload s
         = match setPlacementForPlayer pn payload s with
           | (Fail e, _) =>
               (s, [ ToSocket sock (Notice NoticeError (reject_msg e)) ])
           | (Ok, s1) =>
               let s2 := set_player pn (with_ready false (players s1 pn)) s1 in
               (s2, broadcast s2 :: sendPrivateBoards s2
                      ++ [ ToSocket sock (Notice NoticeOk "Placement saved.") ])
           end) ∨
  ((∀ pn, seat_of_slot slot = Some pn → socketId (players s pn) = Some sock →
          phase s ≠ PLACING ∧ phase s ≠ LOBBY) ∧
   onPlaceShips sock slot payload s = (s, [])).
Proof.
  unfold onPlaceShips.
  destruct (seat_of_slot slot) as [pn|]; [| by right].
  destruct (owns (players s pn) sock) eqn:Ho; simpl.
  - apply owns_true in Ho.
    destruct (decide (phase s = PLACING)) as [Hp | Hp];
      [| destruct (decide (phase s = LOBBY)) as [Hl | Hl]].
    + rewrite (bool_decide_eq_true_2 _ Hp). simpl. left. exists pn. auto.
    + rewrite (bool_decide_eq_false_2 _ Hp), (bool_decide_eq_true_2 _ Hl).
      simpl. left. exists pn. auto.
    + rewrite (bool_decide_eq_false_2 _ Hp), (bool_decide_eq_false_2 _ Hl).
      simpl. right. split; [| done]. by intros ? [= <-] _.
  - apply owns_false in Ho. right. split; [| done]. by intros ? [= <-] ?.
Qed.

Lemma onPlaceShips_invalid sock slot payload s pn e :
  seat_of_slot slot = Some pn → socketId (players s pn) = Some sock →
  phase s = PLACING ∨ phase s = LOBBY →
  validatePlacement payload = Fail e →
  onPlaceShips sock slot payload s
  = (s, [ ToSocket sock (Notice NoticeError (reject_msg e)) ]).
Proof.
  intros Hpn Ho Hph Hv. unfold onPlaceShips, setPlacementForPlayer, owns.
  rewrite Hpn, (bool_decide_eq_true_2 _ Ho), Hv. simpl.
  destruct Hph as [-> | ->]; by simpl.
Qed.

(** C9 (amended): every rejected action of the taxonomy leaves the game
    state as it was and is answered with nothing but, at most, one error
    notice to the connection it came from: a join to a seat bound to another
    connection, a placement that fails validation and a repeated fire get
    that notice; acting for a seat one does not own, firing outside
    IN_PROGRESS or out of turn, and placing outside LOBBY and PLACING are
    dropped with no notice at all. *)
Theorem C9_rejections env sock s e k :
  rejected sock s e k →
  handle env sock e s = Some (s, response sock k) ∧
  (∀ m, m ∈ response sock k → is_error_notice_to sock m) ∧
  (k = NotOwner ∨ k = WrongPhase ∨ k = NotYourTurn → response sock k = []).
Proof.
  intros Hrej. split; [| split].
  - destruct Hrej as
      [ slot pn other Hpn Ho Hne | slot pn payload Hpn Ho | slot pn Hpn Ho
      | slot pn r c Hpn Ho | slot r c Hph | slot payload Hp1 Hp2
      | slot pn r c Hpn Ht | slot pn payload err Hpn Ho Hph Hv
      | slot pn r c Hph Hpn Ho Ht Hk ]; simpl.
    + unfold onJoin, seated, owns. rewrite Hpn, Ho.
      rewrite bool_decide_eq_false_2 by congruence. done.
    + unfold onPlaceShips. rewrite Hpn.
      apply owns_false in Ho. by rewrite Ho.
    + unfold onReady. rewrite Hpn. apply owns_false in Ho. by rewrite Ho.
    + destruct (onFire_not_accepted sock slot r c s) as [-> | [_ (pn' & Hpn' & _)]];
        [| done |].
      * intros pn' (_ & Hpn' & Ho' & _). by simplify_eq.
      * unfold onFire. case_bool_decide; simpl; [| done].
        rewrite Hpn. apply owns_false in Ho. by rewrite Ho.
    + unfold onFire. by rewrite bool_decide_eq_false_2.
    + destruct (onPlaceShips_cases sock slot payload s)
        as [(pn & _ & _ & [? | ?] & _) | [_ ->]]; done.
    + unfold onFire. case_bool_decide; simpl; [| done]. rewrite Hpn.
      destruct (negb (owns _ _)); [done |].
      by rewrite bool_decide_eq_false_2.
    + by rewrite (onPlaceShips_invalid _ _ _ _ _ _ Hpn Ho Hph Hv).
    + unfold onFire, owns.
      by rewrite Hpn, (bool_decide_eq_true_2 _ Hph), (bool_decide_eq_true_2 _ Ho),
        (bool_decide_eq_true_2 _ Ht), (bool_decide_eq_true_2 _ Hk).
  - intros m Hm. destruct k; simpl in Hm;
      try (by apply elem_of_nil in Hm);
      apply list_elem_of_singleton in Hm as ->; by eexists.
  - by intros [-> | [-> | ->]].
Qed.

Lemma C9_rejections_witness :
  rejected 1%nat (initialState 0) (Fire 1 0 0) WrongPhase ∧
  handle env0 1%nat (Fire 1 0 0) (initialState 0)
  = Some (initialState 0, response 1%nat WrongPhase) ∧
  (∀ m, m ∈ response 1%nat WrongPhase → is_error_notice_to 1%nat m) ∧
  (WrongPhase = NotOwner ∨ WrongPhase = WrongPhase ∨ WrongPhase = NotYourTurn →
   response 1%nat WrongPhase = []).
Proof.
  split; [exact fire_in_lobby_rejected |].
  exact (C9_rejections env0 1%nat (initialState 0) (Fire 1 0 0) WrongPhase
           fire_in_lobby_rejected).
Defined.

(** ** The fog projection (C4) *)

Lemma fogBoard_lookup (oppBoard : gmap Coord Cell) (shots : gset Coord) k :
  fogBoard oppBoard shots !! k
  = if decide (k ∈ shots) then Some (fogEntry oppBoard k) else None.
Proof.
  unfold fogBoard.
  refine (set_fold_ind_L
            (λ (acc : gmap Coord FogResult) (X : gset Coord),
               acc !! k = if decide (k ∈ X)
                          then Some (fogEntry oppBoard k) else None)
            _ _ _ _ shots).
  - cbv beta. rewrite lookup_empty.
    destruct (decide (k ∈ (∅ : gset Coord))) as [H | H]; [| done].
    by apply not_elem_of_empty in H.
  - cbv beta. intros x X acc Hx IH. rewrite lookup_insert, IH.
    destruct (decide (x = k)) as [-> | Hxk].
    + destruct (decide (k ∈ {[k]} ∪ X)) as [H | H]; [done | set_solver].
    + destruct (decide (k ∈ X)) as [H | H],
        (decide (k ∈ {[x]} ∪ X)) as [H' | H']; try done; set_solver.
Qed.

Lemma fogBoard_dom (oppBoard : gmap Coord Cell) (shots : gset Coord) :
  dom (fogBoard oppBoard shots) = shots.
Proof.
  apply set_eq. intros k. rewrite elem_of_dom, fogBoard_lookup.
  case_decide; split; done.
Qed.


Lemma sendPrivateBoards_elem s m :
  m ∈ sendPrivateBoards s ↔
  ∃ viewer sock, socketId (players s viewer) = Some sock ∧
                 m = ToSocket sock (BoardsMsg (boardsFor s viewer)).
Proof.
  unfold sendPrivateBoards. rewrite list_elem_of_omap. split.
  - intros (viewer & _ & Hv).
    destruct (socketId (players s viewer)) as [sock|] eqn:Hs; [| done].
    exists viewer, sock. by simplify_eq.
  - intros (viewer & sock & Hs & ->). exists viewer. rewrite Hs.
    split; [| done]. destruct viewer; set_solver.
Qed.




Lemma lastShot_boards_to_seat2 :
  ToSocket 2%nat (BoardsMsg (boardsFor (stateAfter fullGame) P2))
  ∈ emitted beforeLastShot lastShot.
Proof.
  pose proof lastShot_handled as Hh. simpl in Hh.
  rewrite (onFire_accepted _ _ _ _ _ _ lastShot_accepted) in Hh.
  destruct (resolveFire_spec _ _ _ _ _ Hh)
    as (? & ? & ? & _ & _ & _ & _ & _ & ->).
  right. apply elem_of_app. left. apply sendPrivateBoards_elem.
  exists P2, 2%nat. split; [vm_compute; reflexivity | done].
Qed.


(** ** The payload at the end of a match (C1) *)

Lemma size_board_fullGame : size (board (players (stateAfter fullGame) P1)) = 17%nat.
Proof. vm_compute. reflexivity. Qed.

Lemma fog_fullGame :
  dom (opponent_fog (boardsFor (stateAfter fullGame) P2)) = list_to_set missCells.
Proof. by_compute. Qed.

Lemma fog_hides_fleet_fullGame :
  dom (opponent_fog (boardsFor (stateAfter fullGame) P2))
  ∩ dom (board (players (stateAfter fullGame) P1)) = ∅.
Proof. by_compute. Qed.

(** C1 is not met by the server: at the end of a full match (seat 1 sinks
    all 17 cells of seat 2's fleet) the phase is FINISHED, and the boards
    payload sent to seat 2 with that very shot still carries only the fog of
    seat 2's own 16 shots; none of the 17 cells of seat 1's fleet is in
    it. *)
Theorem C1_finished_payload_is_fog :
  let s := stateAfter beforeLastShot in
  let s' := stateAfter fullGame in
  let out := emitted beforeLastShot lastShot in
  let b := boardsFor s' P2 in
  handle env0 1%nat (Fire 1 4 1) s = Some (s', out) ∧
  phase s' = FINISHED ∧
  ToSocket 2%nat (BoardsMsg b) ∈ out ∧
  size (board (players s' P1)) = 17%nat ∧
  dom (opponent_fog b) = list_to_set missCells ∧
  dom (opponent_fog b) ∩ dom (board (players s' P1)) = ∅.
Proof.
  intros s s' out b.
  split; [exact lastShot_handled |].
  split; [exact phase_fullGame |].
  split; [exact lastShot_boards_to_seat2 |].
  split; [exact size_board_fullGame |].
  split; [exact fog_fullGame | exact fog_hides_fleet_fullGame].
Qed.

(** ** Shot resolution (C6) *)

Lemma resolveShot_result target key target' res sunk :
  resolveShot target key = Some (target', res, sunk) →
  (res = ShotHit ↔ is_Some (board target !! key)) ∧
  (res = ShotMiss ↔ board target !! key = None).
Proof.
  unfold resolveShot. intros H.
  destruct (board target !! key) as [cell|] eqn:Hcell.
  - assert (res = ShotHit) as ->.
    { destruct (hit cell); [by simplify_eq |].
      destruct (ships target !! shipId cell); by simplify_eq. }
    split; split; done.
  - simplify_eq. split; split; done.
Qed.

Lemma resolveShot_sunk target key target' res sunk n :
  fleet_ok target →
  resolveShot target key = Some (target', res, sunk) →
  sunk = Some n ↔ ∃ id, sinks (ships target) (ships target') id n.
Proof.
  unfold resolveShot. intros Hok H.
  assert (Hsame : ships target' = ships target → sunk = None →
          sunk = Some n ↔ ∃ id, sinks (ships target) (ships target') id n).
  { intros -> ->. split; [done |].
    intros (id & sh & sh' & H1 & H2 & Hlt & _). simplify_eq. lia. }
  destruct (board target !! key) as [cell|] eqn:Hcell;
    [| simplify_eq; by apply Hsame].
  destruct (hit cell) eqn:Hhit; [simplify_eq; by apply Hsame |].
  clear Hsame.
  destruct (Hok _ _ Hcell) as (sh & Hsh & Hnot). specialize (Hnot Hhit).
  rewrite Hsh in H. simplify_eq. simpl.
  assert (Hsz : size ({[key]} ∪ ship_hits sh) = S (size (ship_hits sh))).
  { rewrite size_union by set_solver. by rewrite size_singleton. }
  split.
  - case_bool_decide as Hfull; [| done]. intros [= <-].
    exists (shipId cell), sh. eexists. split; [done |].
    split; [by rewrite lookup_insert_eq |]. simpl in *. split; [lia | done].
  - intros (id & sh0 & sh' & H1 & H2 & Hlt & Hfull & Hname).
    destruct (decide (id = shipId cell)) as [-> | Hne].
    + rewrite lookup_insert_eq in H2. simplify_eq. simpl in *.
      by rewrite bool_decide_eq_true_2.
    + rewrite lookup_insert_ne in H2 by done. simplify_eq. lia.
Qed.

(** What one accepted shot does.  The shot is always resolved; its
    coordinate joins the shooter's history; the broadcast result is 'hit'
    exactly when the opponent's board has a ship cell there and 'miss'
    otherwise; the name the ship was placed with is reported exactly when
    the shot raises that ship's hit set to its declared size; and unless
    the shot finishes the match the turn passes from the shooter to the
    opposing seat, so that a shot taken from the resulting state is the
    opponent's. *)
Lemma shot_resolution env sock slot r c s pn :
  reachable s →
  fire_accepted sock slot r c s pn →
  ∃ s' res,
    handle env sock (Fire slot r c) s
    = Some (s', ToAll (ShotResultMsg res)
                  :: sendPrivateBoards s' ++ [ broadcast s' ]) ∧
    shot_by res = pn ∧ shot_at res = (r, c) ∧
    shotsTaken (players s' pn) = {[ (r, c) ]} ∪ shotsTaken (players s pn) ∧
    (shot_result res = ShotHit ↔
     is_Some (board (players s (opponent pn)) !! (r, c))) ∧
    (shot_result res = ShotMiss ↔
     board (players s (opponent pn)) !! (r, c) = None) ∧
    (∀ n, shot_sunkShip res = Some n ↔
          ∃ id, sinks (ships (players s (opponent pn)))
                      (ships (players s' (opponent pn))) id n) ∧
    (phase s' = FINISHED ↔ allShipsSunk s' (opponent pn) = true) ∧
    (phase s' ≠ FINISHED →
     phase s' = IN_PROGRESS ∧
     turn s = Some pn ∧ turn s' = Some (opponent pn) ∧
     shot_nextTurn res = Some (opponent pn) ∧
     ∀ sock' slot' r' c' pn',
       fire_accepted sock' slot' r' c' s' pn' → pn' = opponent pn).
Proof.
  intros Hreach Ha. apply reachable_Inv in Hreach. simpl.
  rewrite (onFire_accepted _ _ _ _ _ _ Ha).
  destruct (resolveFire_total pn (r, c) s Hreach) as [[s' out] Hh].
  destruct (resolveFire_spec _ _ _ _ _ Hh)
    as (target' & res & sunk & Hres & Hp & Ht & _ & Hend & ->).
  destruct Ha as (Hph & _ & _ & Hturn & _).
  destruct (resolveShot_result _ _ _ _ _ Hres) as [Hhit Hmiss].
  eexists s', _. split; [exact Hh |]. simpl.
  split; [done |]. split; [done |]. split; [by rewrite Hp |].
  split; [done |]. split; [done |]. split.
  { intros n. rewrite Ht.
    exact (resolveShot_sunk _ _ _ _ _ n (inv_fleet _ Hreach (opponent pn)) Hres). }
  destruct (allShipsSunk s' (opponent pn)).
  - destruct Hend as (Hf & _). split; [done |]. by intros [].
  - destruct Hend as (Hf & _ & Hnext). rewrite Hf, Hph.
    split; [done |]. intros _. repeat (split; [done |]).
    intros sock' slot' r' c' pn' (_ & _ & _ & Hturn' & _). congruence.
Qed.

Lemma firstShot_accepted :
  fire_accepted 1%nat 1 0 0 (stateAfter toInProgress) P1.
Proof. unfold fire_accepted. by_compute. Qed.

(** *** Two shots in a row

    The [ready] handler has no guard on the phase.  Sent by the seat that
    has just fired, it finds both seats ready and draws the turn again. *)

Lemma firstShot_handled :
  fst <$> handle env0 1%nat (Fire 1 0 0) (stateAfter toInProgress)
  = Some (stateAfter firstShot).
Proof. by_compute. Qed.

Lemma firstShot_passes_turn :
  phase (stateAfter firstShot) = IN_PROGRESS ∧
  turn (stateAfter firstShot) = Some P2.
Proof. vm_compute. done. Qed.

Lemma readyAfterShot_handled :
  fst <$> handle env0 1%nat (Ready 1) (stateAfter firstShot)
  = Some (stateAfter readyAfterShot).
Proof. by_compute. Qed.

Lemma readyAfterShot_returns_turn :
  phase (stateAfter readyAfterShot) = IN_PROGRESS ∧
  turn (stateAfter readyAfterShot) = Some P1.
Proof. vm_compute. done. Qed.

Lemma secondShot_accepted :
  fire_accepted 1%nat 1 0 1 (stateAfter readyAfterShot) P1.
Proof. unfold fire_accepted. by_compute. Qed.

Lemma secondShot_handled :
  fst <$> handle env0 1%nat (Fire 1 0 1) (stateAfter readyAfterShot)
  = Some (stateAfter twoShotsInARow).
Proof. by_compute. Qed.

Lemma twoShotsInARow_histories :
  phase (stateAfter twoShotsInARow) = IN_PROGRESS ∧
  shotsTaken (players (stateAfter twoShotsInARow) P1) = {[ (0, 0); (0, 1) ]} ∧
  shotsTaken (players (stateAfter twoShotsInARow) P2) = ∅.
Proof. split; [vm_compute; done |]. split; by_compute. Qed.

(** C6 is not met by the server: the turn does not alternate across the
    shots that leave the match open.  In the run [twoShotsInARow] seat 1
    fires at (0, 0), and the turn passes to seat 2 with the match still in
    progress; connection 1 then sends [ready] for its seat, which the
    handler accepts during the match and answers by drawing the turn again,
    here for seat 1; seat 1 fires at (0, 1), and this shot is accepted too.
    Seat 1 has then taken two shots in a row, neither of which ends the
    match, and seat 2 none. *)
Theorem C6_same_seat_fires_twice :
  let s0 := stateAfter toInProgress in
  let s1 := stateAfter firstShot in
  let s2 := stateAfter readyAfterShot in
  let s3 := stateAfter twoShotsInARow in
  fire_accepted 1%nat 1 0 0 s0 P1 ∧
  fst <$> handle env0 1%nat (Fire 1 0 0) s0 = Some s1 ∧
  phase s1 = IN_PROGRESS ∧ turn s1 = Some P2 ∧
  fst <$> handle env0 1%nat (Ready 1) s1 = Some s2 ∧
  phase s2 = IN_PROGRESS ∧ turn s2 = Some P1 ∧
  fire_accepted 1%nat 1 0 1 s2 P1 ∧
  fst <$> handle env0 1%nat (Fire 1 0 1) s2 = Some s3 ∧
  phase s3 = IN_PROGRESS ∧
  shotsTaken (players s3 P1) = {[ (0, 0); (0, 1) ]} ∧
  shotsTaken (players s3 P2) = ∅.
Proof.
  intros s0 s1 s2 s3.
  split; [exact firstShot_accepted |].
  split; [exact firstShot_handled |].
  split; [exact (proj1 firstShot_passes_turn) |].
  split; [exact (proj2 firstShot_passes_turn) |].
  split; [exact readyAfterShot_handled |].
  split; [exact (proj1 readyAfterShot_returns_turn) |].
  split; [exact (proj2 readyAfterShot_returns_turn) |].
  split; [exact secondShot_accepted |].
  split; [exact secondShot_handled |].
  exact twoShotsInARow_histories.
Qed.

(** ** Sorting and the contiguity check *)

Section sort_by.
Variable f : Coord → Z.

Lemma insert_by_Permutation x l : insert_by f x l ≡ₚ x :: l.
Proof.
  induction l as [|y l IH]; simpl; [done |].
  case_bool_decide; [done |]. rewrite IH. apply Permutation_swap.
Qed.

Lemma sort_by_Permutation l : sort_by f l ≡ₚ l.
Proof.
  induction l as [|x l IH]; simpl; [done |].
  unfold sort_by in *. simpl. by rewrite insert_by_Permutation, IH.
Qed.

Lemma insert_by_fmap_Sorted x l :
  Sorted Z.le (f <$> l) → Sorted Z.le (f <$> insert_by f x l).
Proof.
  induction l as [|y l IH]; simpl; intros Hs.
  - by repeat constructor.
  - case_bool_decide as Hlt; simpl.
    + constructor; [done |]. constructor. lia.
    + apply Sorted_inv in Hs as [Hs Hhd].
      constructor; [by apply IH |].
      destruct l as [|z l]; simpl in *.
      * constructor. lia.
      * case_bool_decide; simpl; constructor; [lia |].
        by apply HdRel_inv in Hhd.
Qed.

Lemma sort_by_fmap_Sorted l : Sorted Z.le (f <$> sort_by f l).
Proof.
  induction l as [|x l IH]; simpl; [constructor |].
  by apply insert_by_fmap_Sorted.
Qed.
End sort_by.

Lemma seqZ_Sorted a (n : nat) : Sorted Z.le (seqZ a (Z.of_nat n)).
Proof.
  revert a. induction n as [|n IH]; intros a.
  - rewrite seqZ_nil by lia. constructor.
  - rewrite seqZ_cons by lia.
    replace (Z.pred (Z.of_nat (S n))) with (Z.of_nat n) by lia.
    constructor; [apply IH |].
    destruct n as [|n].
    + rewrite seqZ_nil by lia. constructor.
    + rewrite seqZ_cons by lia. constructor. lia.
Qed.

(** The sorted keys of a permutation of a run are the run. *)
Lemma sort_by_run f l a :
  f <$> l ≡ₚ seqZ a (Z.of_nat (length l)) →
  f <$> sort_by f l = seqZ a (Z.of_nat (length l)).
Proof.
  intros Hp. apply (Sorted_unique Z.le).
  - apply sort_by_fmap_Sorted.
  - apply seqZ_Sorted.
  - by rewrite sort_by_Permutation.
Qed.

(** What the contiguity loop checks: along the axes it looks at, each
    coordinate is one more than the one before. *)
Lemma gapLoop_true sameRow sameCol prev rest :
  gapLoop sameRow sameCol prev rest = true ↔
  (sameRow = true → rest.*2 = seqZ (prev.2 + 1) (Z.of_nat (length rest))) ∧
  (sameCol = true → rest.*1 = seqZ (prev.1 + 1) (Z.of_nat (length rest))).
Proof.
  assert (Hcons : ∀ (x y : Z) (l : list Z) n,
            x :: l = (y + 1) :: seqZ (Z.succ (y + 1)) n ↔
            x = y + 1 ∧ l = seqZ (x + 1) n).
  { intros x y l n. split; [by intros [= -> ->] | by intros [-> ->]]. }
  revert prev. induction rest as [|cur rest IH]; intros prev; simpl.
  - split; [| done]. intros _. by split; intros _.
  - rewrite (seqZ_cons _ (Z.of_nat (S _))) by lia.
    rewrite (seqZ_cons _ (Z.of_nat (S _))) by lia.
    replace (Z.pred (Z.of_nat (S (length rest)))) with (Z.of_nat (length rest))
      by lia.
    rewrite !Hcons.
    destruct sameRow, sameCol; simpl; repeat case_bool_decide; simpl;
      rewrite ?IH; naive_solver.
Qed.
Lemma noGaps_true sameRow sameCol l :
  noGaps sameRow sameCol l = true ↔
  (sameRow = true → ∃ c, l.*2 = seqZ c (Z.of_nat (length l))) ∧
  (sameCol = true → ∃ r, l.*1 = seqZ r (Z.of_nat (length l))).
Proof.
  destruct l as [|first rest]; simpl.
  - split; [| done]. intros _. split; intros _; by exists 0.
  - rewrite gapLoop_true. split; intros [H1 H2]; split; intros Ht.
    + exists first.2. rewrite (seqZ_cons _ (Z.of_nat (S _))) by lia.
      replace (Z.pred (Z.of_nat (S (length rest))))
        with (Z.of_nat (length rest)) by lia.
      simpl. f_equal. exact (H1 Ht).
    + exists first.1. rewrite (seqZ_cons _ (Z.of_nat (S _))) by lia.
      replace (Z.pred (Z.of_nat (S (length rest))))
        with (Z.of_nat (length rest)) by lia.
      simpl. f_equal. exact (H2 Ht).
    + destruct (H1 Ht) as [c Hc].
      rewrite (seqZ_cons _ (Z.of_nat (S _))) in Hc by lia.
      replace (Z.pred (Z.of_nat (S (length rest))))
        with (Z.of_nat (length rest)) in Hc by lia.
      injection Hc as Hc1 Hc2. rewrite Hc1. exact Hc2.
    + destruct (H2 Ht) as [r Hr].
      rewrite (seqZ_cons _ (Z.of_nat (S _))) in Hr by lia.
      replace (Z.pred (Z.of_nat (S (length rest))))
        with (Z.of_nat (length rest)) in Hr by lia.
      injection Hr as Hr1 Hr2. rewrite Hr1. exact Hr2.
Qed.

Lemma every_same_true xs :
  every_same xs = true ↔ ∃ x, Forall (λ y, y = x) xs.
Proof.
  destruct xs as [|x0 xs]; simpl.
  - split; [| done]. intros _. exists 0. constructor.
  - rewrite bool_decide_eq_true_2 by done. simpl.
    rewrite forallb_forall. split.
    + intros Hall. exists x0. constructor; [done |].
      apply Forall_forall. intros y Hy. apply list_elem_of_In in Hy.
      specialize (Hall _ Hy). by case_bool_decide.
    + intros [x Hx] y Hy. apply Forall_cons in Hx as [-> Hx].
      apply bool_decide_eq_true_2. apply list_elem_of_In in Hy.
      by apply (proj1 (Forall_forall _ _) Hx).
Qed.

Lemma straight_every_same cells :
  straight cells ↔ every_same cells.*1 || every_same cells.*2 = true.
Proof.
  unfold straight. rewrite orb_true_iff, !every_same_true.
  split; intros [[x Hx] | [x Hx]]; [left | right | left | right]; exists x.
  - by apply Forall_fmap.
  - by apply Forall_fmap.
  - by apply Forall_fmap in Hx.
  - by apply Forall_fmap in Hx.
Qed.

Lemma const_row_fmap r (l : list Coord) :
  Forall (λ k, k.1 = r) l → l = (λ c, (r, c)) <$> l.*2.
Proof.
  induction l as [|[r' c] l IH]; intros H; [done |].
  apply Forall_cons in H as [Hk H]. simpl in Hk. subst r'.
  rewrite !fmap_cons. simpl. f_equal. by apply IH.
Qed.

Lemma const_col_fmap c (l : list Coord) :
  Forall (λ k, k.2 = c) l → l = (λ r, (r, c)) <$> l.*1.
Proof.
  induction l as [|[r c'] l IH]; intros H; [done |].
  apply Forall_cons in H as [Hk H]. simpl in Hk. subst c'.
  rewrite !fmap_cons. simpl. f_equal. by apply IH.
Qed.

Lemma row_cells_fst r c n : Forall (λ k, k.1 = r) (row_cells r c n).
Proof. unfold row_cells. apply Forall_fmap, Forall_true. done. Qed.

Lemma row_cells_snd r c n : (row_cells r c n).*2 = seqZ c (Z.of_nat n).
Proof.
  unfold row_cells. rewrite <- list_fmap_compose.
  rewrite <- (list_fmap_id (seqZ c _)) at 2. by apply list_fmap_ext.
Qed.

Lemma col_cells_snd r c n : Forall (λ k, k.2 = c) (col_cells r c n).
Proof. unfold col_cells. apply Forall_fmap, Forall_true. done. Qed.

Lemma col_cells_fst r c n : (col_cells r c n).*1 = seqZ r (Z.of_nat n).
Proof.
  unfold col_cells. rewrite <- list_fmap_compose.
  rewrite <- (list_fmap_id (seqZ r _)) at 2. by apply list_fmap_ext.
Qed.

(** Distinct cells that share both their row and their column: at most
    one cell. *)
Lemma same_row_col_short (cells : list Coord) r c :
  NoDup cells → Forall (λ k, k.1 = r) cells → Forall (λ k, k.2 = c) cells →
  (length cells ≤ 1)%nat.
Proof.
  intros Hnd Hr Hc.
  destruct cells as [|[r1 c1] [|[r2 c2] cells]]; simpl; [lia | lia |].
  apply Forall_cons in Hr as [Hr1 Hr]. apply Forall_cons in Hr as [Hr2 _].
  apply Forall_cons in Hc as [Hc1 Hc]. apply Forall_cons in Hc as [Hc2 _].
  simpl in *. subst. apply NoDup_cons in Hnd as [Hnin _].
  destruct Hnin. by left.
Qed.

(** The contiguity check of the validator, on distinct cells that passed
    the straightness check, accepts exactly the runs. *)
Lemma noGaps_contiguous cells :
  NoDup cells →
  every_same cells.*1 || every_same cells.*2 = true →
  noGaps (every_same cells.*1) (every_same cells.*2)
         (sort_by (if every_same cells.*1 then snd else fst) cells) = true
  ↔ contiguous cells.
Proof.
  intros Hnd Hstr.
  set (f := if every_same cells.*1 then snd else fst).
  assert (Hlen : length (sort_by f cells) = length cells)
    by (by rewrite sort_by_Permutation).
  rewrite noGaps_true, Hlen. split.
  - intros [Hrow Hcol].
    destruct (every_same cells.*1) eqn:Hsr.
    + destruct (Hrow eq_refl) as [c Hc].
      apply every_same_true in Hsr as [r Hr]. apply Forall_fmap in Hr.
      exists r, c. left. rewrite <- (sort_by_Permutation f cells) at 1.
      rewrite (const_row_fmap r (sort_by f cells)).
      * by rewrite Hc.
      * by rewrite sort_by_Permutation.
    + simpl in Hstr. destruct (Hcol Hstr) as [r Hr].
      apply every_same_true in Hstr as [c Hc]. apply Forall_fmap in Hc.
      exists r, c. right. rewrite <- (sort_by_Permutation f cells) at 1.
      rewrite (const_col_fmap c (sort_by f cells)).
      * by rewrite Hr.
      * by rewrite sort_by_Permutation.
  - intros (r & c & Hrun).
    destruct (every_same cells.*1) eqn:Hsr, (every_same cells.*2) eqn:Hsc;
      try done.
    + apply every_same_true in Hsr as [r' Hr']. apply Forall_fmap in Hr'.
      apply every_same_true in Hsc as [c' Hc']. apply Forall_fmap in Hc'.
      pose proof (same_row_col_short _ _ _ Hnd Hr' Hc') as Hshort.
      rewrite <- Hlen in Hshort. rewrite <- Hlen. clear Hlen.
      destruct (sort_by f cells) as [|x [|y l]]; simpl in *; [| | lia].
      * split; intros _; by exists 0.
      * split; intros _; [exists x.2 | exists x.1]; done.
    + split; [intros _ | done]. exists c.
      destruct Hrun as [Hrun | Hrun].
      * subst f. apply sort_by_run. rewrite <- (row_cells_snd r).
        by apply fmap_Permutation.
      * assert (every_same cells.*2 = true); [| congruence].
        apply every_same_true. exists c. apply Forall_fmap.
        rewrite Hrun. apply col_cells_snd.
    + split; [done | intros _]. exists r.
      destruct Hrun as [Hrun | Hrun].
      * assert (every_same cells.*1 = true); [| congruence].
        apply every_same_true. exists r. apply Forall_fmap.
        rewrite Hrun. apply row_cells_fst.
      * subst f. apply sort_by_run. rewrite <- (col_cells_fst r c).
        by apply fmap_Permutation.
Qed.

(** ** Placement validation (C7) *)

Lemma out_of_bounds_iff r c :
  (r < 0 ∨ r >= BOARD_SIZE ∨ c < 0 ∨ c >= BOARD_SIZE) ↔ ¬ in_bounds (r, c).
Proof. unfold in_bounds, BOARD_SIZE. simpl. lia. Qed.

Lemma scanCells_inr occ cells occ' :
  scanCells occ cells = inr occ' ↔
  Forall in_bounds cells ∧ NoDup cells ∧ (∀ k, k ∈ cells → k ∉ occ) ∧
  occ' = list_to_set cells ∪ occ.
Proof.
  revert occ occ'. induction cells as [|[r c] cells IH]; intros occ occ'; simpl.
  - split.
    + intros [= <-]. split; [constructor |]. split; [constructor |].
      split; [| set_solver]. intros k Hk. by apply elem_of_nil in Hk.
    + intros (_ & _ & _ & ->). f_equal. set_solver.
  - case_bool_decide as Hb.
    { apply out_of_bounds_iff in Hb. split; [done |].
      intros (Hf & _). by apply Forall_cons in Hf as [? _]. }
    case_bool_decide as Ho.
    { split; [done |]. intros (_ & _ & Hd & _).
      destruct (Hd (r, c)); [by left | done]. }
    rewrite IH, Forall_cons, NoDup_cons.
    assert (Hin : in_bounds (r, c)).
    { destruct (decide (in_bounds (r, c))) as [|Hn]; [done |].
      by apply out_of_bounds_iff in Hn. }
    split.
    + intros (Hf & Hnd & Hd & ->).
      split; [done |]. split; [split; [| done] |]. 2: split.
      * intros Hrc. apply (Hd _ Hrc). set_solver.
      * intros k [-> | Hk]%elem_of_cons; [done |].
        intros Hko. apply (Hd _ Hk). set_solver.
      * set_solver.
    + intros ((_ & Hf) & (Hnin & Hnd) & Hd & ->).
      split; [done |]. split; [done |]. split.
      * intros k Hk [Hkrc | Hko]%elem_of_union.
        -- apply elem_of_singleton in Hkrc as ->. done.
        -- apply (Hd k); [by right | done].
      * set_solver.
Qed.

Lemma scanCells_inl occ cells e :
  scanCells occ cells = inl e →
  ∃ cs1 cell cs2,
    cells = (cs1 ++ cell :: cs2)%list ∧
    Forall in_bounds cs1 ∧ NoDup cs1 ∧ (∀ k, k ∈ cs1 → k ∉ occ) ∧
    ((e = OutOfBounds ∧ ¬ in_bounds cell) ∨
     (e = Overlap ∧ in_bounds cell ∧ (cell ∈ cs1 ∨ cell ∈ occ))).
Proof.
  revert occ. induction cells as [|[r c] cells IH]; intros occ; simpl; [done |].
  case_bool_decide as Hb.
  { intros [= <-]. exists [], (r, c), cells.
    apply out_of_bounds_iff in Hb.
    split; [done |]. split; [constructor |]. split; [constructor |].
    split; [| by left]. intros k Hk. by apply elem_of_nil in Hk. }
  assert (Hin : in_bounds (r, c)).
  { destruct (decide (in_bounds (r, c))) as [|Hn]; [done |].
    by apply out_of_bounds_iff in Hn. }
  case_bool_decide as Ho.
  { intros [= <-]. exists [], (r, c), cells.
    split; [done |]. split; [constructor |]. split; [constructor |].
    split; [| right; auto]. intros k Hk. by apply elem_of_nil in Hk. }
  intros He. destruct (IH _ He) as (cs1 & cell & cs2 & -> & Hf & Hnd & Hd & Hcase).
  exists ((r, c) :: cs1), cell, cs2. split; [done |].
  split; [by constructor |]. split.
  { apply NoDup_cons. split; [| done]. intros Hrc. apply (Hd _ Hrc). set_solver. }
  split.
  { intros k [-> | Hk]%elem_of_cons; [done |].
    intros Hko. apply (Hd _ Hk). set_solver. }
  destruct Hcase as [[-> Hnb] | (-> & Hb' & Hov)]; [by left |].
  right. split; [done |]. split; [done |].
  destruct Hov as [Hov | Hov]; [left; by right |].
  apply elem_of_union in Hov as [Hov | Hov]; [| by right].
  apply elem_of_singleton in Hov as ->. left. by left.
Qed.
Lemma required_dom : dom required = list_to_set allKeys.
Proof. by_compute. Qed.

Lemma required_nonzero : map_Forall (λ _ n, n ≠ 0%nat) required.
Proof. by_compute. Qed.

Lemma elem_of_allKeys key : key ∈ allKeys ↔ is_Some (required !! key).
Proof. by rewrite <- elem_of_dom, required_dom, elem_of_list_to_set. Qed.

(** The kind check and the size check together: the key is a required
    kind and the descriptor has that kind's number of cells. *)
Lemma size_checks_pass key len :
  falsy (required_get key) = false ∧
  length_differs len (required_get key) = false
  ↔ required !! key = Some len.
Proof.
  unfold required_get.
  destruct (required !! key) as [n|] eqn:Hreq; simpl.
  - pose proof (required_nonzero _ _ Hreq) as Hn. simpl in Hn.
    rewrite bool_decide_eq_false_2 by done.
    rewrite negb_false_iff, bool_decide_eq_true. naive_solver.
  - case_bool_decide; simpl; naive_solver.
Qed.

Lemma checkShip_inr seen occ ship seen' occ' :
  checkShip seen occ ship = inr (seen', occ') ↔
  ShipOk seen occ ship ∧
  seen' = {[ sp_key ship ]} ∪ seen ∧
  occ' = list_to_set (sp_cells ship) ∪ occ.
Proof.
  unfold checkShip, ShipOk.
  rewrite <- (size_checks_pass (sp_key ship) (length (sp_cells ship))).
  rewrite straight_every_same.
  destruct (falsy (required_get (sp_key ship))); [naive_solver |].
  case_bool_decide as Hseen; [naive_solver |].
  destruct (length_differs _ _); [naive_solver |].
  destruct (every_same (sp_cells ship).*1 || every_same (sp_cells ship).*2)
    eqn:Hstr.
  2: { apply orb_false_iff in Hstr as [-> ->]. simpl. naive_solver. }
  replace (negb (every_same (sp_cells ship).*1)
           && negb (every_same (sp_cells ship).*2)) with false
    by (by destruct (every_same (sp_cells ship).*1),
                    (every_same (sp_cells ship).*2)).
  destruct (scanCells occ (sp_cells ship)) as [e | occ1] eqn:Hscan.
  - split; [done |]. intros ((_ & _ & _ & Hf & Hnd & Hd & _) & _).
    assert (scanCells occ (sp_cells ship)
            = inr (list_to_set (sp_cells ship) ∪ occ)) as Hok
      by (by apply scanCells_inr).
    congruence.
  - apply scanCells_inr in Hscan as (Hf & Hnd & Hd & ->).
    pose proof (noGaps_contiguous _ Hnd Hstr) as Hgap.
    destruct (noGaps _ _ _).
    + split; [| naive_solver]. intros [= <- <-].
      split; [| done]. repeat (split; [done |]). by apply Hgap.
    + split; [done |]. intros ((_ & _ & _ & _ & _ & _ & Hc) & _).
      by apply Hgap in Hc.
Qed.

Lemma scanShips_inr seen occ p seen' :
  scanShips seen occ p = inr seen' ↔
  ScanOk seen occ p ∧ seen' = list_to_set (keysOf p) ∪ seen.
Proof.
  revert seen occ. induction p as [|ship p IH]; intros seen occ; simpl.
  - split; [intros [= <-]; split; [done | set_solver] |].
    intros [_ ->]. f_equal. set_solver.
  - destruct (checkShip seen occ ship) as [e | [seen1 occ1]] eqn:Hc.
    + split; [done |]. intros [[Hok _] _].
      assert (checkShip seen occ ship
              = inr ({[ sp_key ship ]} ∪ seen,
                     list_to_set (sp_cells ship) ∪ occ)) as Hc'
        by (by apply checkShip_inr).
      congruence.
    + apply checkShip_inr in Hc as (Hok & -> & ->). rewrite IH.
      split.
      * intros [Hrest ->]. split; [done | set_solver].
      * intros [[_ Hrest] ->]. split; [done | set_solver].
Qed.
Lemma fleetCells_cons ship p :
  fleetCells (ship :: p) = (sp_cells ship ++ fleetCells p)%list.
Proof. done. Qed.

Lemma ScanOk_rules seen occ p :
  ScanOk seen occ p ↔
  rule2 p ∧ NoDup (keysOf p) ∧ (∀ k, k ∈ keysOf p → k ∉ seen) ∧
  rule3 p ∧ rule4 p ∧ NoDup (fleetCells p) ∧
  (∀ k, k ∈ fleetCells p → k ∉ occ) ∧ rule6 p.
Proof.
  unfold rule2, rule3, rule4, rule6.
  revert seen occ. induction p as [|ship p IH]; intros seen occ.
  - simpl. split; [| done]. intros _.
    repeat (split; [by constructor || (intros k Hk; by apply elem_of_nil in Hk) |]).
    constructor.
  - cbn [ScanOk]. rewrite IH. unfold ShipOk.
    rewrite fleetCells_cons. unfold keysOf. rewrite fmap_cons.
    rewrite !Forall_cons, NoDup_cons, NoDup_app.
    fold (keysOf p). split.
    + intros ((H2 & Hs & H3 & H4 & Hnd & Hocc & H6) &
              H2' & Hk' & Hs' & H3' & H4' & Hnd' & Hocc' & H6').
      split; [done |]. split; [split; [| done] |].
      { intros Hin. apply (Hs' _ Hin). set_solver. }
      split.
      { intros k [-> | Hk]%elem_of_cons; [done |].
        intros Hks. apply (Hs' _ Hk). set_solver. }
      split; [done |]. split; [done |]. split.
      { split; [done |]. split; [| done].
        intros k Hk Hk'2. apply (Hocc' _ Hk'2). set_solver. }
      split; [| done].
      intros k [Hk | Hk]%elem_of_app; [by apply Hocc |].
      intros Hko. apply (Hocc' _ Hk). set_solver.
    + intros ((H2 & H2') & (Hk & Hk') & Hs & (H3 & H3') & (H4 & H4') &
              (Hnd & Hdisj & Hnd') & Hocc & (H6 & H6')).
      split.
      { split; [done |]. split; [apply Hs; by left |].
        split; [done |]. split; [done |]. split; [done |].
        split; [| done]. intros k Hkc. apply Hocc. apply elem_of_app. by left. }
      split; [done |]. split; [done |]. split.
      { intros k Hkk [Hsing | Hseen]%elem_of_union.
        - apply elem_of_singleton in Hsing as ->. done.
        - apply (Hs k); [by right | done]. }
      split; [done |]. split; [done |]. split; [done |]. split; [| done].
      intros k Hkf [Hkc | Hko]%elem_of_union.
      * apply elem_of_list_to_set in Hkc. by apply (Hdisj k).
      * apply (Hocc k); [| done]. apply elem_of_app. by right.
Qed.

Lemma PerShipRules_ScanOk p : PerShipRules p ↔ ScanOk ∅ ∅ p.
Proof.
  rewrite ScanOk_rules. unfold PerShipRules, rule1, rule5. split.
  - intros ((_ & Hnd) & H2 & H3 & H4 & H5 & H6).
    repeat (split; [done || set_solver |]). done.
  - intros (H2 & Hnd & _ & H3 & H4 & H5 & _ & H6).
    split; [| done]. split; [| done].
    eapply Forall_impl; [exact H2 |]. intros ship Hreq. simpl in Hreq.
    apply elem_of_allKeys. by eexists.
Qed.

Lemma find_missing_None (seen : gset string) :
  find (λ k, negb (bool_decide (k ∈ seen))) allKeys = None ↔
  Forall (λ k, k ∈ seen) allKeys.
Proof.
  induction allKeys as [|k ks IH]; simpl.
  - split; [constructor | done].
  - rewrite Forall_cons. case_bool_decide; simpl; naive_solver.
Qed.

(** The validator accepts exactly the placements that satisfy the seven
    rules. *)
Lemma validatePlacement_Ok p : validatePlacement p = Ok ↔ ValidPlacement p.
Proof.
  unfold validatePlacement, ValidPlacement, rule7.
  rewrite PerShipRules_ScanOk.
  destruct (scanShips ∅ ∅ p) as [e | seen] eqn:Hscan.
  - split; [done |]. intros [Hok _].
    assert (scanShips ∅ ∅ p = inr (list_to_set (keysOf p) ∪ ∅)) as Hs
      by (by apply scanShips_inr).
    congruence.
  - apply scanShips_inr in Hscan as [Hok ->].
    destruct (find _ allKeys) as [k|] eqn:Hfind.
    + split; [done |]. intros [_ Hall].
      assert (find (λ k, negb (bool_decide (k ∈ list_to_set (keysOf p) ∪ (∅ : gset string))))
                   allKeys = None) as Hnone.
      { apply find_missing_None. eapply Forall_impl; [exact Hall |].
        intros k' Hk'. simpl in Hk'. set_solver. }
      congruence.
    + split; [| done]. intros _. split; [done |].
      apply find_missing_None in Hfind.
      eapply Forall_impl; [exact Hfind |]. intros k' Hk'. simpl in Hk'.
      set_solver.
Qed.
Lemma keysOf_cons ship p : keysOf (ship :: p) = sp_key ship :: keysOf p.
Proof. done. Qed.

Lemma elem_of_fleetCells k p :
  k ∈ fleetCells p ↔ ∃ ship, ship ∈ p ∧ k ∈ sp_cells ship.
Proof.
  induction p as [|ship p IH].
  - split; [by intros ?%elem_of_nil | by intros (? & ?%elem_of_nil & _)].
  - rewrite fleetCells_cons, elem_of_app, IH. split.
    + intros [Hk | (ship' & Hin & Hk)].
      * exists ship. split; [by left | done].
      * exists ship'. split; [by right | done].
    + intros (ship' & [-> | Hin]%elem_of_cons & Hk); [by left |].
      right. by exists ship'.
Qed.

Lemma length_fleetCells p :
  length (fleetCells p) = sum_list_with (λ ship, length (sp_cells ship)) p.
Proof.
  induction p as [|ship p IH]; [done |].
  rewrite fleetCells_cons, length_app, IH. done.
Qed.

Lemma allKeys_NoDup : NoDup allKeys.
Proof. by_compute. Qed.

Lemma allKeys_total_size : sum_list_with requiredSize allKeys = 17%nat.
Proof. vm_compute. reflexivity. Qed.

(** An accepted fleet names the five kinds, each once. *)
Lemma valid_keys_Permutation p : ValidPlacement p → keysOf p ≡ₚ allKeys.
Proof.
  intros (((Hkind & Hnd) & _) & H7).
  apply NoDup_Permutation; [done | apply allKeys_NoDup |].
  intros k. split.
  - unfold keysOf. intros (ship & -> & Hin)%list_elem_of_fmap.
    by apply (proj1 (Forall_forall _ _) Hkind).
  - by apply (proj1 (Forall_forall _ _) H7).
Qed.

Lemma valid_cell_count p : ValidPlacement p → length (fleetCells p) = 17%nat.
Proof.
  intros Hv. rewrite length_fleetCells.
  rewrite <- allKeys_total_size, <- (valid_keys_Permutation p Hv).
  destruct Hv as ((_ & H2 & _) & _). unfold rule2 in H2. unfold keysOf.
  induction H2 as [|ship p Hreq _ IH]; [done |].
  rewrite fmap_cons. simpl. rewrite IH. f_equal.
  unfold requiredSize. by rewrite Hreq.
Qed.

Lemma placeCells_dom (id : string) (cells : list Coord) (b : gmap Coord Cell) :
  dom (placeCells id cells b) =@{gset Coord} list_to_set cells ∪ dom b.
Proof.
  apply set_eq. intros k.
  rewrite elem_of_union, elem_of_list_to_set, !elem_of_dom, placeCells_lookup.
  case_decide; naive_solver.
Qed.

Lemma foldl_placeShip_dom p acc :
  dom (foldl placeShip acc p).1 =@{gset Coord}
  list_to_set (fleetCells p) ∪ dom acc.1.
Proof.
  revert acc. induction p as [|ship p IH]; intros acc; simpl.
  - set_solver.
  - rewrite IH, fleetCells_cons. simpl. rewrite placeCells_dom.
    rewrite list_to_set_app_L. set_solver.
Qed.

Lemma layout_dom p :
  dom (layout p).1 =@{gset Coord} list_to_set (fleetCells p).
Proof. unfold layout. rewrite foldl_placeShip_dom. simpl. set_solver. Qed.

Lemma valid_board_size p : ValidPlacement p → size (layout p).1 = 17%nat.
Proof.
  intros Hv. rewrite <- size_dom, layout_dom.
  rewrite size_list_to_set; [by apply valid_cell_count |].
  by destruct Hv as ((_ & _ & _ & _ & H5 & _) & _).
Qed.

(** The board and the fleet the placement loops build from a submission in
    which no key and no cell occurs twice. *)
Lemma foldl_placeShip_board p acc k cell :
  NoDup (fleetCells p) →
  (foldl placeShip acc p).1 !! k = Some cell ↔
  (∃ ship, ship ∈ p ∧ k ∈ sp_cells ship ∧ cell = mkCell (sp_key ship) false) ∨
  ((k ∉ fleetCells p) ∧ acc.1 !! k = Some cell).
Proof.
  revert acc. induction p as [|ship p IH]; intros acc Hnd; simpl.
  - split; [right; split; [by intros ?%elem_of_nil | done] |].
    intros [(? & ?%elem_of_nil & _) | [_ ?]]; done.
  - rewrite fleetCells_cons in Hnd. apply NoDup_app in Hnd as (_ & Hdisj & Hnd).
    rewrite (IH _ Hnd). simpl. rewrite placeCells_lookup, fleetCells_cons.
    rewrite elem_of_app. split.
    + intros [(ship' & Hin & Hk & ->) | [Hnk Hlook]].
      * left. exists ship'. split; [by right | done].
      * case_decide as Hkc.
        -- left. exists ship. split; [by left |]. split; [done |]. congruence.
        -- right. split; [| done]. by intros [? | ?].
    + intros [(ship' & [-> | Hin]%elem_of_cons & Hk & ->) | [Hnk Hlook]].
      * right. split; [by apply Hdisj |]. by rewrite decide_True.
      * left. by exists ship'.
      * right. split; [by intros ?; apply Hnk; right |].
        rewrite decide_False; [done |]. intros ?. apply Hnk. by left.
Qed.

Lemma foldl_placeShip_ships p acc id sh :
  NoDup (keysOf p) →
  (foldl placeShip acc p).2 !! id = Some sh ↔
  (∃ ship, ship ∈ p ∧ sp_key ship = id ∧
           sh = mkShip (sp_name ship) (length (sp_cells ship)) ∅) ∨
  ((id ∉ keysOf p) ∧ acc.2 !! id = Some sh).
Proof.
  revert acc. induction p as [|ship p IH]; intros acc Hnd.
  - simpl. split; [right; split; [by intros ?%elem_of_nil | done] |].
    intros [(? & ?%elem_of_nil & _) | [_ ?]]; done.
  - rewrite keysOf_cons in Hnd. apply NoDup_cons in Hnd as [Hnin Hnd].
    cbn [foldl]. rewrite (IH _ Hnd). cbn [placeShip snd].
    rewrite lookup_insert, keysOf_cons, elem_of_cons.
    split.
    + intros [(ship' & Hin & Hk & ->) | [Hnk Hlook]].
      * left. exists ship'. split; [by right | done].
      * case_decide as Hkc.
        -- left. exists ship. split; [by left |]. split; [done |]. congruence.
        -- right. split; [| done]. by intros [? | ?].
    + intros [(ship' & [-> | Hin]%elem_of_cons & Hk & ->) | [Hnk Hlook]].
      * right. subst id. split; [done |]. by rewrite decide_True.
      * left. by exists ship'.
      * right. split; [by intros ?; apply Hnk; right |].
        rewrite decide_False; [done |]. intros ?. apply Hnk. by left.
Qed.
(** *** What a rejection reports *)

Lemma checkShip_inl pre ship e :
  sp_key ship ∉ objectPrototypeProps →
  checkShip (list_to_set (keysOf pre)) (list_to_set (fleetCells pre)) ship
  = inl e →
  Reported pre ship e.
Proof.
  intros Hproto. unfold checkShip.
  pose proof (size_checks_pass (sp_key ship) (length (sp_cells ship))) as Hsz.
  assert (Hknown : falsy (required_get (sp_key ship)) = false →
                   sp_key ship ∈ allKeys).
  { unfold required_get. intros Hf. apply elem_of_allKeys.
    destruct (required !! sp_key ship); [by eexists |].
    by rewrite bool_decide_eq_false_2 in Hf. }
  destruct (falsy (required_get (sp_key ship))) eqn:Hfalsy.
  { intros [= <-]. apply rep_unexpected. intros [n Hn]%elem_of_allKeys.
    unfold required_get in Hfalsy. rewrite Hn in Hfalsy. simpl in Hfalsy.
    apply bool_decide_eq_true in Hfalsy.
    by apply (required_nonzero _ _ Hn). }
  specialize (Hknown eq_refl).
  case_bool_decide as Hseen.
  { intros [= <-]. apply rep_duplicate; [done |].
    by apply elem_of_list_to_set in Hseen. }
  rewrite elem_of_list_to_set in Hseen.
  destruct (length_differs _ _) eqn:Hlen.
  { intros [= <-]. apply rep_size; [done | done |].
    intros Hreq. apply Hsz in Hreq as [_ ?]. congruence. }
  assert (Hfresh : fresh_sized pre ship).
  { split; [done |]. by apply Hsz. }
  destruct (every_same (sp_cells ship).*1 || every_same (sp_cells ship).*2)
    eqn:Hstr.
  2: { apply orb_false_iff in Hstr as [Hr Hc]. rewrite Hr, Hc. simpl.
       intros [= <-]. apply rep_straight; [done |].
       rewrite straight_every_same, Hr, Hc. done. }
  replace (negb (every_same (sp_cells ship).*1)
           && negb (every_same (sp_cells ship).*2)) with false
    by (by destruct (every_same (sp_cells ship).*1),
                    (every_same (sp_cells ship).*2)).
  pose proof (proj2 (straight_every_same _) Hstr) as Hstraight.
  destruct (scanCells _ (sp_cells ship)) as [e' | occ1] eqn:Hscan.
  - intros [= <-].
    apply scanCells_inl in Hscan
      as (cs1 & cell & cs2 & Hcells & Hf & Hnd & Hd & Hcase).
    assert (Hclear : cells_clear pre cs1).
    { split; [done |]. split; [done |]. intros k Hk Hkp.
      apply (Hd _ Hk). by apply elem_of_list_to_set. }
    destruct Hcase as [[-> Hnb] | (-> & Hb & Hov)].
    + by eapply rep_bounds.
    + eapply rep_overlap; try done.
      destruct Hov as [? | Hov]; [by left |].
      right. by apply elem_of_list_to_set in Hov.
  - apply scanCells_inr in Hscan as (Hf & Hnd & Hd & _).
    pose proof (noGaps_contiguous _ Hnd Hstr) as Hgap.
    destruct (noGaps _ _ _); [done |]. intros [= <-].
    apply rep_gaps; [done | done | | ].
    + split; [done |]. split; [done |]. intros k Hk Hkp.
      apply (Hd _ Hk). by apply elem_of_list_to_set.
    + intros Hc. by apply Hgap in Hc.
Qed.

Lemma scanShips_inl seen occ p e :
  scanShips seen occ p = inl e →
  ∃ pre ship post,
    p = (pre ++ ship :: post)%list ∧ ScanOk seen occ pre ∧
    checkShip (list_to_set (keysOf pre) ∪ seen)
              (list_to_set (fleetCells pre) ∪ occ) ship = inl e.
Proof.
  revert seen occ. induction p as [|ship p IH]; intros seen occ; simpl; [done |].
  destruct (checkShip seen occ ship) as [e' | [seen1 occ1]] eqn:Hc.
  - intros [= <-]. exists [], ship, p. split; [done |]. split; [done |].
    simpl. by rewrite !(left_id_L ∅ (∪)).
  - apply checkShip_inr in Hc as (Hok & -> & ->). intros Hs.
    destruct (IH _ _ Hs) as (pre & ship' & post & -> & Hpre & Hc').
    exists (ship :: pre), ship', post. split; [done |]. split; [done |].
    assert (list_to_set (keysOf (ship :: pre)) ∪ seen
            =@{gset string} list_to_set (keysOf pre) ∪ ({[sp_key ship]} ∪ seen))
      as -> by (rewrite keysOf_cons; set_solver).
    assert (list_to_set (fleetCells (ship :: pre)) ∪ occ
            =@{gset Coord}
            list_to_set (fleetCells pre) ∪ (list_to_set (sp_cells ship) ∪ occ))
      as -> by (rewrite fleetCells_cons; set_solver).
    done.
Qed.

Lemma find_missing_Some (seen : gset string) (l : list string) k :
  find (λ k, negb (bool_decide (k ∈ seen))) l = Some k →
  ∃ ks1 ks2, l = (ks1 ++ k :: ks2)%list ∧ Forall (λ k', k' ∈ seen) ks1 ∧
             k ∉ seen.
Proof.
  induction l as [|k0 l IH]; simpl; [done |].
  case_bool_decide as Hk0; simpl.
  - intros Hf. destruct (IH Hf) as (ks1 & ks2 & -> & Hall & Hk).
    exists (k0 :: ks1), ks2. split; [done |]. split; [by constructor | done].
  - intros [= <-]. exists [], l. split; [done |]. split; [constructor | done].
Qed.

(** A rejection names the first violation of the scan. *)
Lemma validatePlacement_Fail p e :
  Forall (λ ship, sp_key ship ∉ objectPrototypeProps) p →
  validatePlacement p = Fail e → Reports p e.
Proof.
  intros Hproto. unfold validatePlacement.
  destruct (scanShips ∅ ∅ p) as [e' | seen] eqn:Hscan.
  - intros [= <-].
    apply scanShips_inl in Hscan as (pre & ship & post & -> & Hpre & Hc).
    rewrite !(right_id_L ∅ (∪)) in Hc.
    eapply reports_ship; [done | by apply PerShipRules_ScanOk |].
    apply checkShip_inl; [| done].
    apply Forall_app in Hproto as [_ Hproto].
    by apply Forall_cons in Hproto as [? _].
  - apply scanShips_inr in Hscan as [Hok ->].
    destruct (find _ allKeys) as [k|] eqn:Hfind; [| done].
    intros [= <-].
    apply find_missing_Some in Hfind as (ks1 & ks2 & Hks & Hall & Hk).
    eapply reports_missing; [by apply PerShipRules_ScanOk | done | |].
    + eapply Forall_impl; [exact Hall |]. intros k' Hk'. simpl in Hk'.
      set_solver.
    + set_solver.
Qed.
(** *** The claim about the reported rule, in the specification's order *)

Lemma scanCells_app occ cs1 rest :
  Forall in_bounds cs1 → NoDup cs1 → (∀ k, k ∈ cs1 → k ∉ occ) →
  scanCells occ (cs1 ++ rest) = scanCells (list_to_set cs1 ∪ occ) rest.
Proof.
  revert occ. induction cs1 as [|[r c] cs1 IH]; intros occ Hf Hnd Hd; simpl.
  - by rewrite (left_id_L ∅ (∪)).
  - apply Forall_cons in Hf as [Hb Hf]. apply NoDup_cons in Hnd as [Hnin Hnd].
    rewrite bool_decide_eq_false_2 by (by rewrite out_of_bounds_iff; intros []).
    rewrite bool_decide_eq_false_2 by (apply Hd; by left).
    rewrite IH; [| done | done |].
    + f_equal. set_solver.
    + intros k Hk [Hkrc | Hko]%elem_of_union.
      * apply elem_of_singleton in Hkrc as ->. done.
      * apply (Hd k); [by right | done].
Qed.

Lemma scanShips_app seen occ pre rest :
  ScanOk seen occ pre →
  scanShips seen occ (pre ++ rest)
  = scanShips (list_to_set (keysOf pre) ∪ seen)
              (list_to_set (fleetCells pre) ∪ occ) rest.
Proof.
  revert seen occ. induction pre as [|ship pre IH]; intros seen occ.
  - intros _. simpl. by rewrite !(left_id_L ∅ (∪)).
  - cbn [app scanShips ScanOk]. intros [Hok Hrest].
    assert (checkShip seen occ ship
            = inr ({[ sp_key ship ]} ∪ seen, list_to_set (sp_cells ship) ∪ occ))
      as -> by (by apply checkShip_inr).
    rewrite (IH _ _ Hrest).
    assert (list_to_set (keysOf (ship :: pre)) ∪ seen
            =@{gset string} list_to_set (keysOf pre) ∪ ({[sp_key ship]} ∪ seen))
      as -> by (rewrite keysOf_cons; set_solver).
    assert (list_to_set (fleetCells (ship :: pre)) ∪ occ
            =@{gset Coord}
            list_to_set (fleetCells pre) ∪ (list_to_set (sp_cells ship) ∪ occ))
      as -> by (rewrite fleetCells_cons; set_solver).
    done.
Qed.

Lemma checkShip_Reported pre ship e :
  sp_key ship ∉ objectPrototypeProps →
  Reported pre ship e →
  checkShip (list_to_set (keysOf pre)) (list_to_set (fleetCells pre)) ship
  = inl e.
Proof.
  intros Hproto Hrep. unfold checkShip.
  pose proof (size_checks_pass (sp_key ship) (length (sp_cells ship))) as Hsz.
  assert (Hknown : sp_key ship ∈ allKeys →
                   falsy (required_get (sp_key ship)) = false).
  { intros [n Hn]%elem_of_allKeys. unfold required_get. rewrite Hn. simpl.
    apply bool_decide_eq_false_2. by apply (required_nonzero _ _ Hn). }
  assert (Hfs : fresh_sized pre ship →
          falsy (required_get (sp_key ship)) = false ∧
          bool_decide (sp_key ship ∈ (list_to_set (keysOf pre) : gset string))
          = false ∧
          length_differs (length (sp_cells ship)) (required_get (sp_key ship))
          = false).
  { intros [Hfresh Hreq]. apply Hsz in Hreq as [? ?].
    split; [done |]. split; [| done].
    apply bool_decide_eq_false_2. by rewrite elem_of_list_to_set. }
  assert (Hst : straight (sp_cells ship) →
          negb (every_same (sp_cells ship).*1)
          && negb (every_same (sp_cells ship).*2) = false).
  { intros Hs%straight_every_same.
    by destruct (every_same (sp_cells ship).*1),
                (every_same (sp_cells ship).*2). }
  destruct Hrep as
    [ Hunk | Hk Hdup | Hk Hfresh Hlen | Hfresh Hns
    | cs1 cell cs2 Hfresh Hstr Hcells (Hf & Hnd & Hd) Hout
    | cs1 cell cs2 Hfresh Hstr Hcells (Hf & Hnd & Hd) Hin Hov
    | Hfresh Hstr (Hf & Hnd & Hd) Hnc ].
  - unfold required_get.
    destruct (required !! sp_key ship) as [n|] eqn:Hn.
    { destruct Hunk. apply elem_of_allKeys. by eexists. }
    by rewrite bool_decide_eq_false_2.
  - rewrite (Hknown Hk). rewrite bool_decide_eq_true_2; [done |].
    by apply elem_of_list_to_set.
  - rewrite (Hknown Hk).
    rewrite bool_decide_eq_false_2 by (by rewrite elem_of_list_to_set).
    destruct (length_differs _ _) eqn:Hld; [done |].
    destruct Hlen. apply Hsz. split; [by apply Hknown | done].
  - destruct (Hfs Hfresh) as (-> & -> & ->).
    assert (every_same (sp_cells ship).*1 || every_same (sp_cells ship).*2
            = false) as [-> ->]%orb_false_iff; [| done].
    destruct (_ || _) eqn:Hs; [| done]. by apply straight_every_same in Hs.
  - destruct (Hfs Hfresh) as (-> & -> & ->). rewrite (Hst Hstr), Hcells.
    rewrite scanCells_app; [| done | done |].
    + destruct cell as [r c]. simpl.
      by rewrite bool_decide_eq_true_2 by (by apply out_of_bounds_iff).
    + intros k Hk. rewrite elem_of_list_to_set. by apply Hd.
  - destruct (Hfs Hfresh) as (-> & -> & ->). rewrite (Hst Hstr), Hcells.
    rewrite scanCells_app; [| done | done |].
    + destruct cell as [r c]. simpl.
      rewrite bool_decide_eq_false_2 by (by rewrite out_of_bounds_iff; intros []).
      rewrite bool_decide_eq_true_2; [done |].
      rewrite elem_of_union, !elem_of_list_to_set. done.
    + intros k Hk. rewrite elem_of_list_to_set. by apply Hd.
  - destruct (Hfs Hfresh) as (-> & -> & ->). rewrite (Hst Hstr).
    assert (scanCells (list_to_set (fleetCells pre)) (sp_cells ship)
            = inr (list_to_set (sp_cells ship) ∪ list_to_set (fleetCells pre)))
      as ->.
    { apply scanCells_inr. split; [done |]. split; [done |]. split; [| done].
      intros k Hk. rewrite elem_of_list_to_set. by apply Hd. }
    apply straight_every_same in Hstr.
    pose proof (noGaps_contiguous _ Hnd Hstr) as Hgap.
    destruct (noGaps _ _ _); [| done]. destruct Hnc. by apply Hgap.
Qed.

Lemma find_missing_first (seen : gset string) (ks1 ks2 : list string) k :
  Forall (λ k', k' ∈ seen) ks1 → k ∉ seen →
  find (λ k, negb (bool_decide (k ∈ seen))) (ks1 ++ k :: ks2) = Some k.
Proof.
  intros Hall Hk. induction Hall as [|k0 ks1 Hk0 _ IH]; simpl.
  - by rewrite bool_decide_eq_false_2.
  - by rewrite bool_decide_eq_true_2.
Qed.

(** Conversely, the first violation of the scan is what the validator
    rejects with. *)
Lemma Reports_validatePlacement p e :
  Forall (λ ship, sp_key ship ∉ objectPrototypeProps) p →
  Reports p e → validatePlacement p = Fail e.
Proof.
  intros Hproto Hrep. unfold validatePlacement.
  destruct Hrep as [pre ship post e -> Hpre Hrep | ks1 k ks2 Hp Hks Hall Hk].
  - apply PerShipRules_ScanOk in Hpre.
    rewrite (scanShips_app _ _ _ _ Hpre), !(right_id_L ∅ (∪)). simpl.
    apply Forall_app in Hproto as [_ Hproto].
    apply Forall_cons in Hproto as [Hproto _].
    by rewrite (checkShip_Reported _ _ _ Hproto Hrep).
  - apply PerShipRules_ScanOk in Hp.
    assert (scanShips ∅ ∅ p = inr (list_to_set (keysOf p) ∪ ∅)) as ->
      by (by apply scanShips_inr).
    rewrite Hks, find_missing_first; [done | |].
    + eapply Forall_impl; [exact Hall |]. intros k' Hk'. simpl in Hk'.
      set_solver.
    + set_solver.
Qed.

Lemma overlapThenOutside_rejected :
  validatePlacement overlapThenOutside = Fail Overlap.
Proof. vm_compute. reflexivity. Qed.

(** C7, as stated, fails in its last clause: bounds come before overlap in
    the list of rules, yet for a ship whose first cell overlaps and whose
    later cell is off the board the validator reports the overlap.  (The
    destroyer of this submission is faultless, so reading the claim
    descriptor by descriptor gives the same.) *)
Lemma C7_counterexample :
  ¬ (∀ p e, validatePlacement p = Fail e → first_violated p (rule_of_reject e)).
Proof.
  intros H.
  destruct (H _ _ overlapThenOutside_rejected) as [_ Hall].
  specialize (Hall Rule4 ltac:(simpl; lia)). simpl in Hall.
  unfold rule4, overlapThenOutside in Hall.
  apply Forall_cons in Hall as [_ Hall]. apply Forall_cons in Hall as [Hall _].
  simpl in Hall.
  apply Forall_cons in Hall as [_ Hall]. apply Forall_cons in Hall as [Hout _].
  unfold in_bounds, BOARD_SIZE in Hout. simpl in Hout. lia.
Qed.

Lemma NoDup_fleetCells_disjoint p i j ship1 ship2 k :
  NoDup (fleetCells p) → i ≠ j →
  p !! i = Some ship1 → p !! j = Some ship2 →
  k ∈ sp_cells ship1 → k ∉ sp_cells ship2.
Proof.
  revert i j. induction p as [|ship p IH]; intros i j Hnd Hij H1 H2 Hk1 Hk2;
    [done |].
  rewrite fleetCells_cons in Hnd. apply NoDup_app in Hnd as (_ & Hdisj & Hnd).
  destruct i as [|i], j as [|j]; simpl in *; simplify_eq.
  - apply (Hdisj k Hk1). apply elem_of_fleetCells. exists ship2.
    split; [by eapply list_elem_of_lookup_2 | done].
  - apply (Hdisj k Hk2). apply elem_of_fleetCells. exists ship1.
    split; [by eapply list_elem_of_lookup_2 | done].
  - apply (IH i j); try done. congruence.
Qed.

(** C7 (amended): for a submission in the documented format, a list of
    descriptors with strings as kinds and names and integers as
    coordinates, the validator accepts exactly when the seven rules hold;
    an accepted placement has 17 cells, no two ships sharing one, and the
    board built from it has those 17 cells; and a rejection reports the
    first violation met in the scan: descriptors in submission order, each
    checked for kind, repeat, size and straightness, then cell by cell for
    bounds and overlap, then for contiguity, with missing kinds last; and
    only that violation is reported.  The last part is stated for
    submissions none of whose kinds is the name of a property that every
    object inherits.  The validator checks no types; what it accepts
    beyond the documented format is not constrained here. *)
Theorem C7_validatePlacement p :
  (validatePlacement p = Ok ↔ ValidPlacement p) ∧
  (validatePlacement p = Ok →
   length (fleetCells p) = 17%nat ∧ NoDup (fleetCells p) ∧
   (∀ i j ship1 ship2 k, i ≠ j → p !! i = Some ship1 → p !! j = Some ship2 →
      k ∈ sp_cells ship1 → k ∉ sp_cells ship2) ∧
   size (layout p).1 = 17%nat ∧
   dom (layout p).1 =@{gset Coord} list_to_set (fleetCells p)) ∧
  (Forall (λ ship, sp_key ship ∉ objectPrototypeProps) p →
   ∀ e, validatePlacement p = Fail e ↔ Reports p e).
Proof.
  split; [apply validatePlacement_Ok |]. split.
  - intros Hv%validatePlacement_Ok.
    assert (Hnd : NoDup (fleetCells p))
      by (by destruct Hv as ((_ & _ & _ & _ & H5 & _) & _)).
    split; [by apply valid_cell_count |]. split; [done |].
    split; [| split; [by apply valid_board_size | apply layout_dom]].
    intros i j ship1 ship2 k. by apply NoDup_fleetCells_disjoint.
  - intros Hproto e. split.
    + by apply validatePlacement_Fail.
    + by apply Reports_validatePlacement.
Qed.

Lemma overlapThenOutside_plain :
  Forall (λ ship, sp_key ship ∉ objectPrototypeProps) overlapThenOutside.
Proof. by_compute. Qed.

Lemma C7_validatePlacement_witness :
  (validatePlacement sampleFleet = Ok ∧ ValidPlacement sampleFleet ∧
   length (fleetCells sampleFleet) = 17%nat ∧ NoDup (fleetCells sampleFleet) ∧
   size (layout sampleFleet).1 = 17%nat) ∧
  (validatePlacement overlapThenOutside = Fail Overlap ∧
   Forall (λ ship, sp_key ship ∉ objectPrototypeProps) overlapThenOutside ∧
   Reports overlapThenOutside Overlap).
Proof.
  destruct (C7_validatePlacement sampleFleet) as (Hiff & Hcount & _).
  destruct (C7_validatePlacement overlapThenOutside) as (_ & _ & Hrep).
  destruct (Hcount sampleFleet_ok) as (Hlen & Hnd & _ & Hsize & _).
  split.
  - split; [exact sampleFleet_ok |].
    split; [exact (proj1 Hiff sampleFleet_ok) |].
    split; [exact Hlen |]. split; [exact Hnd | exact Hsize].
  - split; [exact overlapThenOutside_rejected |].
    split; [exact overlapThenOutside_plain |].
    exact (proj1 (Hrep overlapThenOutside_plain Overlap)
             overlapThenOutside_rejected).
Defined.

(** [required] is a plain object, so a kind that names an inherited
    property passes the kind check and fails the size check instead. *)
Example inherited_kind_reported_as_size :
  validatePlacement [ mkShipPayload "constructor" "" [ (0, 0); (0, 1) ] ]
  = Fail (IncorrectSize "constructor").
Proof. vm_compute. reflexivity. Qed.

(** ** Installing a placement (C8) *)

Lemma layout_board payload k cell :
  ValidPlacement payload →
  (layout payload).1 !! k = Some cell ↔
  ∃ ship, ship ∈ payload ∧ k ∈ sp_cells ship ∧
          cell = mkCell (sp_key ship) false.
Proof.
  intros ((_ & _ & _ & _ & H5 & _) & _). unfold layout.
  rewrite (foldl_placeShip_board _ _ _ _ H5). simpl. rewrite lookup_empty.
  naive_solver.
Qed.

Lemma layout_ships payload id sh :
  ValidPlacement payload →
  (layout payload).2 !! id = Some sh ↔
  ∃ ship, ship ∈ payload ∧ sp_key ship = id ∧
          sh = mkShip (sp_name ship) (length (sp_cells ship)) ∅.
Proof.
  intros (((_ & Hnd) & _) & _). unfold layout.
  rewrite (foldl_placeShip_ships _ _ _ _ Hnd). simpl. rewrite lookup_empty.
  naive_solver.
Qed.

Lemma onPlaceShips_accepted sock slot payload s pn :
  place_accepted sock slot payload s pn →
  ∃ s', onPlaceShips sock slot payload s
        = (s', broadcast s' :: sendPrivateBoards s'
                 ++ [ ToSocket sock (Notice NoticeOk "Placement saved.") ]) ∧
    board (players s' pn) = (layout payload).1 ∧
    ships (players s' pn) = (layout payload).2 ∧
    ready (players s' pn) = false ∧
    socketId (players s' pn) = socketId (players s pn) ∧
    name (players s' pn) = name (players s pn) ∧
    shotsTaken (players s' pn) = shotsTaken (players s pn) ∧
    players s' (opponent pn) = players s (opponent pn) ∧
    phase s' = phase s ∧ turn s' = turn s ∧ winner s' = winner s.
Proof.
  intros (Hpn & Ho & Hph & Hv).
  destruct (onPlaceShips_cases sock slot payload s)
    as [(pn' & Hpn' & _ & _ & ->) | [Hno _]].
  - rewrite Hpn in Hpn'. simplify_eq. unfold setPlacementForPlayer.
    rewrite Hv. destruct (layout payload) as [b sh]. simpl.
    eexists. split; [done |]. by destruct pn'.
  - destruct (Hno pn Hpn Ho) as [? ?]. by destruct Hph.
Qed.

Lemma onPlaceShips_not_accepted sock slot payload s :
  (∀ pn, ¬ place_accepted sock slot payload s pn) →
  onPlaceShips sock slot payload s = (s, []) ∨
  ∃ e, validatePlacement payload = Fail e ∧
       onPlaceShips sock slot payload s
       = (s, [ ToSocket sock (Notice NoticeError (reject_msg e)) ]).
Proof.
  intros Hno.
  destruct (onPlaceShips_cases sock slot payload s)
    as [(pn & Hpn & Ho & Hph & ->) | [_ ->]]; [| by left].
  unfold setPlacementForPlayer.
  destruct (validatePlacement payload) as [|e] eqn:Hv.
  - by destruct (Hno pn).
  - right. by exists e.
Qed.

(** C8: an accepted [placeShips] event replaces the seat's board and fleet
    by what the submission describes and leaves the seat not ready, without
    touching anything else; an event that is not accepted leaves the whole
    state as it was and sends at most an error notice, to the submitter
    only; and when the validator is what rejects it, that notice carries the
    validator's reason. *)
Theorem C8_placeShips env sock slot payload s :
  (∀ pn, place_accepted sock slot payload s pn →
     ∃ s', handle env sock (PlaceShips slot payload) s
           = Some (s', broadcast s' :: sendPrivateBoards s'
                         ++ [ ToSocket sock (Notice NoticeOk "Placement saved.") ]) ∧
       (∀ k cell, board (players s' pn) !! k = Some cell ↔
                  ∃ ship, ship ∈ payload ∧ k ∈ sp_cells ship ∧
                          cell = mkCell (sp_key ship) false) ∧
       (∀ id sh, ships (players s' pn) !! id = Some sh ↔
                 ∃ ship, ship ∈ payload ∧ sp_key ship = id ∧
                         sh = mkShip (sp_name ship) (length (sp_cells ship)) ∅) ∧
       ready (players s' pn) = false ∧
       socketId (players s' pn) = socketId (players s pn) ∧
       name (players s' pn) = name (players s pn) ∧
       shotsTaken (players s' pn) = shotsTaken (players s pn) ∧
       players s' (opponent pn) = players s (opponent pn) ∧
       phase s' = phase s ∧ turn s' = turn s ∧ winner s' = winner s) ∧
  ((∀ pn, ¬ place_accepted sock slot payload s pn) →
     ∃ out, handle env sock (PlaceShips slot payload) s = Some (s, out) ∧
            ∀ m, m ∈ out → is_error_notice_to sock m) ∧
  (∀ pn e, seat_of_slot slot = Some pn → socketId (players s pn) = Some sock →
     phase s = PLACING ∨ phase s = LOBBY →
     validatePlacement payload = Fail e →
     handle env sock (PlaceShips slot payload) s
     = Some (s, [ ToSocket sock (Notice NoticeError (reject_msg e)) ])).
Proof.
  simpl. split; [| split].
  - intros pn Ha.
    destruct (onPlaceShips_accepted _ _ _ _ _ Ha)
      as (s' & -> & Hb & Hs & Hrest).
    destruct Ha as (_ & _ & _ & Hv%validatePlacement_Ok).
    exists s'. split; [done |].
    split; [intros k cell; rewrite Hb; by apply layout_board |].
    split; [intros id sh; rewrite Hs; by apply layout_ships |]. done.
  - intros Hno.
    destruct (onPlaceShips_not_accepted _ _ _ _ Hno) as [-> | (e & _ & ->)];
      eexists; (split; [done |]); intros m Hm.
    + by apply elem_of_nil in Hm.
    + apply list_elem_of_singleton in Hm as ->. by eexists.
  - intros pn e Hpn Ho Hph Hv.
    by rewrite (onPlaceShips_invalid _ _ _ _ _ _ Hpn Ho Hph Hv).
Qed.

Lemma sampleFleet_accepted :
  place_accepted 1%nat 1 sampleFleet (stateAfter seatBoth) P1.
Proof.
  split; [reflexivity |]. split; [vm_compute; reflexivity |].
  split; [left; vm_compute; reflexivity | exact sampleFleet_ok].
Qed.

Lemma C8_placeShips_witness :
  let s := stateAfter seatBoth in
  (place_accepted 1%nat 1 sampleFleet s P1 ∧
   ∃ s', handle env0 1%nat (PlaceShips 1 sampleFleet) s
         = Some (s', broadcast s' :: sendPrivateBoards s'
                       ++ [ ToSocket 1%nat (Notice NoticeOk "Placement saved.") ]) ∧
     (∀ k cell, board (players s' P1) !! k = Some cell ↔
                ∃ ship, ship ∈ sampleFleet ∧ k ∈ sp_cells ship ∧
                        cell = mkCell (sp_key ship) false) ∧
     (∀ id sh, ships (players s' P1) !! id = Some sh ↔
               ∃ ship, ship ∈ sampleFleet ∧ sp_key ship = id ∧
                       sh = mkShip (sp_name ship) (length (sp_cells ship)) ∅) ∧
     ready (players s' P1) = false ∧
     socketId (players s' P1) = socketId (players s P1) ∧
     name (players s' P1) = name (players s P1) ∧
     shotsTaken (players s' P1) = shotsTaken (players s P1) ∧
     players s' (opponent P1) = players s (opponent P1) ∧
     phase s' = phase s ∧ turn s' = turn s ∧ winner s' = winner s) ∧
  (seat_of_slot 1 = Some P1 ∧ socketId (players s P1) = Some 1%nat ∧
   (phase s = PLACING ∨ phase s = LOBBY) ∧
   validatePlacement overlapThenOutside = Fail Overlap ∧
   handle env0 1%nat (PlaceShips 1 overlapThenOutside) s
   = Some (s, [ ToSocket 1%nat (Notice NoticeError (reject_msg Overlap)) ])).
Proof.
  intros s.
  destruct (C8_placeShips env0 1%nat 1 sampleFleet s) as (Hacc & _ & _).
  destruct (C8_placeShips env0 1%nat 1 overlapThenOutside s) as (_ & _ & Hrej).
  destruct sampleFleet_accepted as (Hpn & Ho & Hph & Hv).
  split.
  - split; [exact sampleFleet_accepted |].
    exact (Hacc P1 sampleFleet_accepted).
  - split; [exact Hpn |]. split; [exact Ho |]. split; [exact Hph |].
    split; [exact overlapThenOutside_rejected |].
    exact (Hrej P1 Overlap Hpn Ho Hph overlapThenOutside_rejected).
Defined.

(** ** The validator and the order of a submission *)

Lemma Forall_perm {A} (P : A → Prop) (l k : list A) :
  l ≡ₚ k → Forall P l → Forall P k.
Proof. intros Hp Hl. by eapply Permutation_Forall. Qed.

Lemma fleetCells_Permutation p q : p ≡ₚ q → fleetCells p ≡ₚ fleetCells q.
Proof.
  induction 1 as [|x p q _ IH|x y p|p q r _ IH1 _ IH2].
  - done.
  - rewrite !fleetCells_cons. by apply Permutation_app_head.
  - rewrite !fleetCells_cons, !app_assoc.
    apply Permutation_app_tail, Permutation_app_comm.
  - by etrans.
Qed.

Lemma valid_Permutation p q : p ≡ₚ q → ValidPlacement p → ValidPlacement q.
Proof.
  intros Hp (((H1 & H1') & H2 & H3 & H4 & H5 & H6) & H7).
  assert (keysOf p ≡ₚ keysOf q) as Hk by by apply fmap_Permutation.
  split; [split; [split |] |].
  - by apply (Forall_perm _ p q).
  - by apply (NoDup_Permutation_proper _ _ Hk).
  - split; [by apply (Forall_perm _ p q) |].
    split; [by apply (Forall_perm _ p q) |].
    split; [by apply (Forall_perm _ p q) |].
    split; [| by apply (Forall_perm _ p q)].
    by apply (NoDup_Permutation_proper _ _ (fleetCells_Permutation _ _ Hp)).
  - eapply Forall_impl; [exact H7 |]. simpl. intros k Hin.
    by apply (elem_of_Permutation_proper _ _ _ Hk).
Qed.

Lemma same_ship_keysOf p q : Forall2 same_ship p q → keysOf p = keysOf q.
Proof.
  induction 1 as [|a b p q [Hk _] _ IH]; [done |].
  rewrite !keysOf_cons. by rewrite Hk, IH.
Qed.

Lemma same_ship_fleetCells p q :
  Forall2 same_ship p q → fleetCells p ≡ₚ fleetCells q.
Proof.
  induction 1 as [|a b p q [_ Hc] _ IH]; [done |].
  rewrite !fleetCells_cons. by apply Permutation_app.
Qed.

Lemma same_ship_Forall (P : ShipPayload → Prop) p q :
  (∀ a b, same_ship a b → P a → P b) →
  Forall2 same_ship p q → Forall P p → Forall P q.
Proof.
  intros HP. induction 1 as [|a b p q Hab _ IH]; [done |].
  intros [Ha Hp]%Forall_cons. constructor; [by eapply HP | by apply IH].
Qed.

Lemma valid_same_ship p q :
  Forall2 same_ship p q → ValidPlacement p → ValidPlacement q.
Proof.
  intros Hs (((H1 & H1') & H2 & H3 & H4 & H5 & H6) & H7).
  pose proof (same_ship_keysOf _ _ Hs) as Hk.
  split; [split; [split |] |].
  - eapply same_ship_Forall; [| done | exact H1]. by intros a b [<- _].
  - by rewrite <- Hk.
  - split.
    { eapply same_ship_Forall; [| done | exact H2]. simpl.
      intros a b [<- Hc]. by rewrite <- (Permutation_length Hc). }
    split.
    { eapply same_ship_Forall; [| done | exact H3]. simpl.
      intros a b [_ Hc] [[r Hr] | [c Hcol]];
        [left; exists r | right; exists c]; by eapply Forall_perm. }
    split.
    { eapply same_ship_Forall; [| done | exact H4]. simpl.
      intros a b [_ Hc]. by apply Forall_perm. }
    split.
    { by apply (NoDup_Permutation_proper _ _ (same_ship_fleetCells _ _ Hs)). }
    eapply same_ship_Forall; [| done | exact H6]. simpl.
    intros a b [_ Hc] (r & c & Hrun). exists r, c.
    rewrite <- (Permutation_length Hc).
    destruct Hrun as [Hrun | Hrun]; [left | right]; by etrans; [symmetry |].
  - unfold rule7 in *. by rewrite <- Hk.
Qed.

Lemma same_ship_sym p q : Forall2 same_ship p q → Forall2 same_ship q p.
Proof.
  induction 1 as [|a b p q [Hk Hc] _ IH]; constructor; [| done].
  split; [done | by symmetry].
Qed.

(** X1: on submissions in the documented format, with strings as kinds
    and integers as coordinates, the verdict of [validatePlacement] depends
    neither on the order of the descriptors, nor on the order of the cells
    within a descriptor, nor on the names: of two such submissions that
    differ only in these, both are accepted or both are rejected.  An
    accepted submission of this format has five descriptors. *)
Theorem validatePlacement_ignores_order p p' q :
  p ≡ₚ p' → Forall2 same_ship p' q →
  (validatePlacement p = Ok ↔ validatePlacement q = Ok) ∧
  (validatePlacement p = Ok → length p = 5%nat ∧ length q = 5%nat).
Proof.
  intros Hp Hs. rewrite !validatePlacement_Ok. split; [split |].
  - intros Hv. by eapply valid_same_ship, valid_Permutation.
  - intros Hv. eapply valid_Permutation; [symmetry; exact Hp |].
    eapply valid_same_ship; [| exact Hv]. by apply same_ship_sym.
  - intros Hv.
    assert (length p = 5%nat) as Hlen.
    { rewrite <- (length_fmap sp_key).
      change (sp_key <$> p) with (keysOf p).
      by rewrite (Permutation_length (valid_keys_Permutation _ Hv)). }
    split; [done |].
    by rewrite <- (Forall2_length _ _ _ Hs), <- (Permutation_length Hp).
Qed.

Lemma sampleFleet_reverse : sampleFleet ≡ₚ reverse sampleFleet.
Proof. symmetry. apply reverse_Permutation. Qed.

Lemma sampleFleetReversed_same :
  Forall2 same_ship (reverse sampleFleet) sampleFleetReversed.
Proof.
  unfold sampleFleetReversed. apply Forall2_fmap_r, Forall_Forall2_diag.
  apply Forall_forall. intros ship _. split; [done |]. simpl.
  symmetry. apply reverse_Permutation.
Qed.

Lemma validatePlacement_ignores_order_witness :
  sampleFleet ≡ₚ reverse sampleFleet ∧
  Forall2 same_ship (reverse sampleFleet) sampleFleetReversed ∧
  (validatePlacement sampleFleet = Ok ↔
   validatePlacement sampleFleetReversed = Ok) ∧
  (validatePlacement sampleFleet = Ok →
   length sampleFleet = 5%nat ∧ length sampleFleetReversed = 5%nat).
Proof.
  split; [exact sampleFleet_reverse |].
  split; [exact sampleFleetReversed_same |].
  exact (validatePlacement_ignores_order sampleFleet (reverse sampleFleet)
           sampleFleetReversed sampleFleet_reverse sampleFleetReversed_same).
Defined.

(** X2: the key string of a cell determines the cell.  For coordinates
    that are integers below 2^53 in magnitude, which a number holds exactly
    and the template string prints in plain decimal, two pairs with the
    same key are the same pair, so boards, fleets and shot histories
    indexed by key are indexed by cell. *)
Theorem cell_keys_do_not_collide k1 k2 :
  safe_cell k1 → safe_cell k2 → cellKey k1 = cellKey k2 → k1 = k2.
Proof. intros _ _. apply cellKey_inj. Qed.

Lemma safe_cell_3_7 : safe_cell (3, 7).
Proof. unfold safe_cell, safe_integer. simpl. lia. Qed.

Lemma cell_keys_do_not_collide_witness :
  safe_cell (3, 7) ∧ cellKey (3, 7) = cellKey (3, 7) ∧
  ((3, 7) : Coord) = (3, 7).
Proof.
  split; [exact safe_cell_3_7 |]. split; [reflexivity |].
  exact (cell_keys_do_not_collide (3, 7) (3, 7) safe_cell_3_7 safe_cell_3_7
           eq_refl).
Defined.

(** ** Fleets of reachable states *)

Lemma player_step_onJoin sock slot s pn :
  player_step (players s pn) (players (onJoin sock slot s).1 pn).
Proof.
  unfold onJoin.
  destruct (seat_of_slot slot) as [pn'|]; [| constructor].
  destruct (seated (players s pn') && negb (owns (players s pn') sock));
    [constructor |].
  open_state s. unfold owns, seated, mkPlayerState.
  destruct pn', pn; simpl;
    repeat (case_bool_decide; simpl); destruct so, so0; simpl;
    first [ apply ps_same | apply ps_fresh ].
Qed.

Lemma player_step_onPlaceShips sock slot payload s pn :
  player_step (players s pn) (players (onPlaceShips sock slot payload s).1 pn).
Proof.
  unfold onPlaceShips, setPlacementForPlayer.
  destruct (seat_of_slot slot) as [pn'|]; [| constructor].
  destruct (negb (owns (players s pn') sock)); [constructor |].
  destruct (negb (bool_decide (phase s = PLACING)) && _); [constructor |].
  destruct (validatePlacement payload) eqn:Hv; [| constructor].
  pose proof (ps_place (players s pn') payload Hv) as Hstep.
  destruct (layout payload) as [b shl]. simpl in *.
  open_state s. destruct pn', pn; simpl in *; first [ apply ps_same | exact Hstep ].
Qed.

Lemma player_step_onReady env sock slot s pn :
  player_step (players s pn) (players (onReady env sock slot s).1 pn).
Proof.
  unfold onReady.
  destruct (seat_of_slot slot) as [pn'|]; [| constructor].
  destruct (negb (owns (players s pn') sock)); [constructor |].
  case_bool_decide as Hsz; simpl; [| constructor].
  pose proof (ps_ready _ Hsz) as Hstep.
  open_state s. destruct pn', pn; simpl in *;
    match goal with |- context [if ?b then _ else _] => destruct b end;
    simpl; first [ apply ps_same | exact Hstep ].
Qed.

Lemma player_step_onFire sock slot r c s s' out pn :
  onFire sock slot r c s = Some (s', out) →
  player_step (players s pn) (players s' pn).
Proof.
  intros Hh. destruct (onFire_cases sock slot r c s) as [[pn' Ha] | Hno].
  - rewrite (onFire_accepted _ _ _ _ _ _ Ha) in Hh.
    destruct (resolveFire_spec _ _ _ _ _ Hh)
      as (target' & res & sunk & Hres & Hme & Hopp & _).
    destruct (decide (pn = pn')) as [->|Hne].
    + rewrite Hme. apply ps_shot.
    + assert (pn = opponent pn') as -> by (by destruct pn, pn').
      rewrite Hopp. by eapply ps_hit.
  - destruct (onFire_not_accepted _ _ _ _ _ Hno) as [H | [H _]];
      rewrite H in Hh; simplify_eq; constructor.
Qed.

Lemma player_step_onReset env sock s pn :
  player_step (players s pn) (players (onReset env sock s).1 pn).
Proof.
  unfold onReset, resetGame.
  destruct (owns (players s P1) sock || owns (players s P2) sock); [| constructor].
  open_state s. unfold seated. destruct pn; simpl; destruct so, so0; simpl;
    apply ps_fresh.
Qed.

Lemma player_step_onDisconnect sock s pn :
  player_step (players s pn) (players (onDisconnect sock s).1 pn).
Proof.
  unfold onDisconnect, mkPlayerState.
  open_state s. unfold owns, seated.
  destruct pn; simpl; repeat (case_bool_decide; simpl);
    destruct so, so0; simpl; first [ apply ps_same | apply ps_fresh ].
Qed.

(** Every handler moves every seat by one [player_step]. *)
Lemma handle_player_step env sock e s s' out pn :
  handle env sock e s = Some (s', out) →
  player_step (players s pn) (players s' pn).
Proof.
  destruct e; simpl; intros Hh;
    try (apply Some_pair_fst in Hh; subst s').
  - constructor.
  - apply player_step_onJoin.
  - apply player_step_onPlaceShips.
  - apply player_step_onReady.
  - by eapply player_step_onFire.
  - unfold onChat. destruct (all_white _); constructor.
  - apply player_step_onReset.
  - apply player_step_onDisconnect.
Qed.

(** Induction over the seats of reachable states. *)
Lemma reachable_players (P : Player → Prop) s pn :
  P mkPlayerState →
  (∀ p p', P p → player_step p p' → P p') →
  reachable s → P (players s pn).
Proof.
  intros H0 Hstep (t0 & inputs & Hrun).
  assert (∀ s0, P (players s0 pn) → run inputs s0 = Some s → P (players s pn))
    as Hgen.
  { clear Hrun. induction inputs as [|i inputs IH]; intros s0 HP; simpl.
    - by intros [= <-].
    - destruct (handle _ _ _ s0) as [[s1 out]|] eqn:Hh; [| done].
      apply IH. eapply Hstep; [exact HP |]. by eapply handle_player_step. }
  eapply Hgen; [| exact Hrun]. by destruct pn.
Qed.

Lemma NoDup_keysOf_inj p ship1 ship2 :
  NoDup (keysOf p) → ship1 ∈ p → ship2 ∈ p →
  sp_key ship1 = sp_key ship2 → ship1 = ship2.
Proof.
  intros Hnd (i & Hi)%list_elem_of_lookup (j & Hj)%list_elem_of_lookup Hk.
  assert (i = j) as ->; [| congruence].
  apply (NoDup_lookup _ i j (sp_key ship1) Hnd); unfold keysOf;
    rewrite list_lookup_fmap; [by rewrite Hi | rewrite Hj; simpl; congruence].
Qed.

Lemma NoDup_fleetCells_inj p ship1 ship2 k :
  NoDup (fleetCells p) → ship1 ∈ p → ship2 ∈ p →
  k ∈ sp_cells ship1 → k ∈ sp_cells ship2 → ship1 = ship2.
Proof.
  intros Hnd (i & Hi)%list_elem_of_lookup (j & Hj)%list_elem_of_lookup H1 H2.
  destruct (decide (i = j)) as [->|Hne]; [congruence |].
  by destruct (NoDup_fleetCells_disjoint p i j ship1 ship2 k).
Qed.

Lemma no_fleet_or_valid_NoDup payload :
  payload = [] ∨ ValidPlacement payload →
  NoDup (keysOf payload) ∧ NoDup (fleetCells payload).
Proof.
  intros [-> | [(H1 & _ & _ & _ & H5 & _) _]].
  - split; constructor.
  - split; [apply H1 | exact H5].
Qed.

Lemma fleet_of_empty H p : board p = ∅ → ships p = ∅ → fleet_of [] H p.
Proof.
  intros Hb Hs. split; intros ??; rewrite ?Hb, ?Hs, lookup_empty;
    (split; [done | intros (? & []%elem_of_nil & _)]).
Qed.

Lemma fleet_of_layout payload p :
  ValidPlacement payload →
  board p = (layout payload).1 → ships p = (layout payload).2 →
  fleet_of payload ∅ p.
Proof.
  intros Hv Hb Hs. split.
  - intros k cell. rewrite Hb, (layout_board _ _ _ Hv).
    by setoid_rewrite bool_decide_eq_false_2; [| set_solver].
  - intros id sh. rewrite Hs, (layout_ships _ _ _ Hv).
    assert (∀ X : gset Coord, ∅ ∩ X = ∅) as HX by set_solver.
    by setoid_rewrite HX.
Qed.

Lemma fleet_of_resolveShot payload H target key target' res sunk :
  NoDup (keysOf payload) → NoDup (fleetCells payload) →
  fleet_of payload H target →
  resolveShot target key = Some (target', res, sunk) →
  ∃ H', fleet_of payload H' target'.
Proof.
  intros Hkeys Hcells [Hb Hs]. unfold resolveShot.
  destruct (board target !! key) as [cell|] eqn:Hcell;
    [| intros; simplify_eq; by exists H].
  destruct (hit cell) eqn:Hhit; [intros; simplify_eq; by exists H |].
  destruct (ships target !! shipId cell) as [sh|] eqn:Hsh; [| done].
  intros [= <- _ _]. exists ({[ key ]} ∪ H).
  apply Hb in Hcell as Hcell'. destruct Hcell' as (ship0 & Hin0 & Hk0 & ->).
  simpl in *.
  apply Hs in Hsh as Hsh'. destruct Hsh' as (ship1 & Hin1 & Hkey1 & ->).
  assert (ship1 = ship0) as -> by by eapply NoDup_keysOf_inj.
  apply bool_decide_eq_false in Hhit.
  split; simpl.
  - intros k cell'. rewrite lookup_insert.
    destruct (decide (key = k)) as [<-|Hk].
    + split.
      * intros [= <-]. exists ship0. do 2 (split; [done |]).
        by rewrite bool_decide_eq_true_2 by set_solver.
      * intros (ship & Hin & Hk & ->).
        assert (ship = ship0) as -> by by eapply NoDup_fleetCells_inj.
        by rewrite bool_decide_eq_true_2 by set_solver.
    + rewrite Hb. f_equiv. intros ship.
      assert (bool_decide (k ∈ {[key]} ∪ H) = bool_decide (k ∈ H)) as ->; [| done].
      apply bool_decide_ext. set_solver.
  - intros id sh. rewrite lookup_insert.
    destruct (decide (sp_key ship0 = id)) as [<-|Hid].
    + split.
      * intros [= <-]. exists ship0. do 2 (split; [done |]).
        simpl. f_equal. set_solver.
      * intros (ship & Hin & Hk & ->).
        assert (ship = ship0) as -> by by eapply NoDup_keysOf_inj.
        f_equal. f_equal. set_solver.
    + rewrite Hs. f_equiv. intros ship. split.
      * intros (Hin & Hk & ->). do 2 (split; [done |]). f_equal.
        assert (key ∉ sp_cells ship); [| set_solver].
        intros Hin'. apply Hid.
        rewrite (NoDup_fleetCells_inj _ _ _ _ Hcells Hin Hin0 Hin' Hk0) in Hk.
        done.
      * intros (Hin & Hk & ->). do 2 (split; [done |]). f_equal.
        assert (key ∉ sp_cells ship); [| set_solver].
        intros Hin'. apply Hid.
        rewrite (NoDup_fleetCells_inj _ _ _ _ Hcells Hin Hin0 Hin' Hk0) in Hk.
        done.
Qed.

Lemma placed_step p p' : placed p → player_step p p' → placed p'.
Proof.
  intros (payload & H & Hpv & Hf) Hstep.
  destruct Hstep as [p | p so nm | p pl Hv | p Hsz | p key | p key p' res sunk Hres].
  - by exists payload, H.
  - exists [], ∅. split; [by left |]. by apply fleet_of_empty.
  - apply validatePlacement_Ok in Hv. exists pl, ∅. split; [by right |].
    by apply fleet_of_layout.
  - by exists payload, H.
  - by exists payload, H.
  - destruct (no_fleet_or_valid_NoDup _ Hpv) as [Hk Hc].
    destruct (fleet_of_resolveShot _ _ _ _ _ _ _ Hk Hc Hf Hres) as [H' Hf'].
    by exists payload, H'.
Qed.

(** In every reachable state each seat holds no fleet or a validated one. *)
Lemma reachable_placed s pn : reachable s → placed (players s pn).
Proof.
  intros Hr. apply (reachable_players placed); [| apply placed_step | done].
  exists [], ∅. split; [by left |]. by apply fleet_of_empty.
Qed.

Lemma fleet_of_dom payload H p :
  fleet_of payload H p →
  dom (board p) =@{gset Coord} list_to_set (fleetCells payload).
Proof.
  intros [Hb _]. apply set_eq. intros k.
  rewrite elem_of_dom, elem_of_list_to_set, elem_of_fleetCells. split.
  - intros [cell (ship & ? & ? & _)%Hb]. by exists ship.
  - intros (ship & Hin & Hk). eexists. apply Hb. by exists ship.
Qed.

Lemma fleet_of_dom_ships payload H p :
  fleet_of payload H p →
  dom (ships p) =@{gset string} list_to_set (keysOf payload).
Proof.
  intros [_ Hs]. apply set_eq. intros id.
  rewrite elem_of_dom, elem_of_list_to_set. unfold keysOf.
  rewrite list_elem_of_fmap. split.
  - intros [sh (ship & ? & <- & _)%Hs]. by exists ship.
  - intros (ship & -> & Hin). eexists. apply Hs. by exists ship.
Qed.

Lemma NoDup_ship_cells p ship :
  NoDup (fleetCells p) → ship ∈ p → NoDup (sp_cells ship).
Proof.
  induction p as [|ship' p IH]; [by intros _ ?%elem_of_nil |].
  rewrite fleetCells_cons. intros (Hnd & _ & Hnd')%NoDup_app.
  intros [-> | Hin]%elem_of_cons; [done | by apply IH].
Qed.

(** A seat that holds no fleet or a validated one has an empty board and
    fleet, or 17 cells on the grid and the five required kinds. *)
Lemma placed_cases p :
  placed p →
  (board p = ∅ ∧ ships p = ∅) ∨
  (size (board p) = 17%nat ∧
   (∀ k cell, board p !! k = Some cell → in_bounds k ∧ shipId cell ∈ allKeys) ∧
   dom (ships p) = list_to_set allKeys ∧
   (∀ id sh, ships p !! id = Some sh → required !! id = Some (ship_size sh))).
Proof.
  intros (payload & H & [-> | Hv] & Hf).
  - left. destruct Hf as [Hb Hs]. split; apply map_eq; intros i;
      rewrite lookup_empty; apply eq_None_not_Some; intros [x Hx].
    + apply Hb in Hx as (? & []%elem_of_nil & _).
    + apply Hs in Hx as (? & []%elem_of_nil & _).
  - right. pose proof Hv as (((H1 & _) & H2 & _ & H4 & H5 & _) & _).
    split; [| split; [| split]].
    + rewrite <- size_dom, (fleet_of_dom _ _ _ Hf), size_list_to_set by done.
      by apply valid_cell_count.
    + intros k cell (ship & Hin & Hk & ->)%(proj1 Hf). split.
      * eapply (proj1 (Forall_forall _ _)); [| exact Hk].
        by apply (proj1 (Forall_forall _ _) H4).
      * by apply (proj1 (Forall_forall _ _) H1).
    + rewrite (fleet_of_dom_ships _ _ _ Hf).
      apply set_eq. intros id. rewrite !elem_of_list_to_set.
      by rewrite (valid_keys_Permutation _ Hv).
    + intros id sh (ship & Hin & <- & ->)%(proj2 Hf). simpl.
      by apply (proj1 (Forall_forall _ _) H2).
Qed.

(** X3: in every reachable state a seat holds either no board and no
    fleet, or a board that is not empty and a fleet of exactly the five
    required kinds, each with the size [SHIP_DEFS] declares. *)
Theorem fleet_is_empty_or_complete s pn :
  reachable s →
  (board (players s pn) = ∅ ∧ ships (players s pn) = ∅) ∨
  (board (players s pn) ≠ ∅ ∧
   dom (ships (players s pn)) = list_to_set allKeys ∧
   (∀ id sh, ships (players s pn) !! id = Some sh →
             required !! id = Some (ship_size sh))).
Proof.
  intros Hr.
  destruct (placed_cases _ (reachable_placed s pn Hr))
    as [? | (Hsz & _ & Hdom & Hreq)]; [by left | right].
  split; [| done]. intros Hb. by rewrite Hb, map_size_empty in Hsz.
Qed.

Lemma fleet_is_empty_or_complete_witness :
  reachable (stateAfter fullGame) ∧
  ((board (players (stateAfter fullGame) P2) = ∅ ∧
    ships (players (stateAfter fullGame) P2) = ∅) ∨
   (board (players (stateAfter fullGame) P2) ≠ ∅ ∧
    dom (ships (players (stateAfter fullGame) P2)) = list_to_set allKeys ∧
    (∀ id sh, ships (players (stateAfter fullGame) P2) !! id = Some sh →
              required !! id = Some (ship_size sh)))).
Proof.
  split; [exact reachable_fullGame |].
  exact (fleet_is_empty_or_complete _ P2 reachable_fullGame).
Defined.

Lemma placed_hits_and_cells p id sh :
  placed p → ships p !! id = Some sh →
  (∀ k, k ∈ ship_hits sh ↔
        ∃ cell, board p !! k = Some cell ∧ shipId cell = id ∧ hit cell = true) ∧
  size (filter (λ kc, shipId kc.2 = id) (board p)) = ship_size sh ∧
  (size (ship_hits sh) ≤ ship_size sh)%nat.
Proof.
  intros (payload & H & Hpv & Hf) Hsh.
  destruct (no_fleet_or_valid_NoDup _ Hpv) as [Hkeys Hcells].
  destruct Hf as [Hb Hs].
  apply Hs in Hsh as (ship & Hin & <- & ->). simpl.
  pose proof (NoDup_ship_cells _ _ Hcells Hin) as Hnd.
  split; [| split].
  - intros k. rewrite elem_of_intersection, elem_of_list_to_set. split.
    + intros [HkH Hk]. eexists. split; [apply Hb; by exists ship |].
      simpl. split; [done | by apply bool_decide_eq_true_2].
    + intros (cell & (ship' & Hin' & Hk & ->)%Hb & Hid & Hhit). simpl in *.
      assert (ship' = ship) as -> by by eapply NoDup_keysOf_inj.
      split; [by apply bool_decide_eq_true in Hhit | done].
  - rewrite <- size_dom.
    rewrite (dom_filter_L _ _ (list_to_set (sp_cells ship))).
    + by apply size_list_to_set.
    + intros k. rewrite elem_of_list_to_set. split.
      * intros Hk. eexists. split; [apply Hb; by exists ship | done].
      * intros (cell & (ship' & Hin' & Hk & ->)%Hb & Hid). simpl in *.
        assert (ship' = ship) as -> by by eapply NoDup_keysOf_inj.
        done.
  - rewrite <- (size_list_to_set (C := gset Coord) (sp_cells ship)) by done.
    apply subseteq_size. set_solver.
Qed.

(** X4: in every reachable state the hit set of a ship is exactly the set
    of board cells that name the ship and are flagged hit, and so a ship
    never has more hits than there are board cells that name it. *)
Theorem ship_hits_are_its_hit_cells s pn id sh :
  reachable s →
  ships (players s pn) !! id = Some sh →
  (∀ k, k ∈ ship_hits sh ↔
        ∃ cell, board (players s pn) !! k = Some cell ∧
                shipId cell = id ∧ hit cell = true) ∧
  (size (ship_hits sh)
   ≤ size (filter (λ kc, shipId kc.2 = id) (board (players s pn))))%nat.
Proof.
  intros Hp%(reachable_placed s pn) Hsh.
  destruct (placed_hits_and_cells _ _ _ Hp Hsh) as (Hhits & -> & Hle). done.
Qed.

Lemma carrier_after_fullGame :
  ships (players (stateAfter fullGame) P2) !! "carrier"
  = Some (mkShip "Carrier" 5 (list_to_set (row_cells 0 0 5))).
Proof. by_compute. Qed.

Lemma ship_hits_are_its_hit_cells_witness :
  let s := stateAfter fullGame in
  let sh := mkShip "Carrier" 5 (list_to_set (row_cells 0 0 5)) in
  reachable s ∧ ships (players s P2) !! "carrier" = Some sh ∧
  (∀ k, k ∈ ship_hits sh ↔
        ∃ cell, board (players s P2) !! k = Some cell ∧
                shipId cell = "carrier" ∧ hit cell = true) ∧
  (size (ship_hits sh)
   ≤ size (filter (λ kc, shipId kc.2 = "carrier") (board (players s P2))))%nat.
Proof.
  intros s sh.
  split; [exact reachable_fullGame |].
  split; [exact carrier_after_fullGame |].
  exact (ship_hits_are_its_hit_cells s P2 "carrier" sh reachable_fullGame
           carrier_after_fullGame).
Defined.

Lemma placed_allShipsSunk s pn :
  placed (players s pn) →
  allShipsSunk s pn = true ↔
  ∀ k cell, board (players s pn) !! k = Some cell → hit cell = true.
Proof.
  intros (payload & H & Hpv & Hf).
  destruct (no_fleet_or_valid_NoDup _ Hpv) as [Hkeys Hcells].
  destruct Hf as [Hb Hs].
  unfold allShipsSunk. rewrite bool_decide_eq_true. split.
  - intros Hall k cell (ship & Hin & Hk & ->)%Hb. simpl.
    apply bool_decide_eq_true_2.
    pose proof (NoDup_ship_cells _ _ Hcells Hin) as Hnd.
    assert (ships (players s pn) !! sp_key ship
            = Some (mkShip (sp_name ship) (length (sp_cells ship))
                           (H ∩ list_to_set (sp_cells ship)))) as Hsh
      by (apply Hs; by exists ship).
    apply Hall in Hsh. simpl in Hsh.
    assert (H ∩ list_to_set (sp_cells ship) ≡@{gset Coord}
            list_to_set (sp_cells ship)) as Heq.
    { apply set_subseteq_size_equiv; [set_solver |].
      rewrite size_list_to_set by done. lia. }
    set_solver.
  - intros Hall id sh (ship & Hin & <- & ->)%Hs. simpl.
    pose proof (NoDup_ship_cells _ _ Hcells Hin) as Hnd.
    rewrite <- (size_list_to_set (C := gset Coord) (sp_cells ship)) by done.
    f_equal. apply set_eq. intros k.
    rewrite elem_of_intersection, elem_of_list_to_set. split; [by intros [_ ?] |].
    intros Hk. split; [| done].
    assert (board (players s pn) !! k
            = Some (mkCell (sp_key ship) (bool_decide (k ∈ H)))) as Hcell
      by (apply Hb; by exists ship).
    apply Hall in Hcell. by apply bool_decide_eq_true in Hcell.
Qed.

Lemma reachable_sizes_match_board s pn :
  reachable s → sizes_match_board (players s pn).
Proof.
  intros Hp%(reachable_placed s pn) id sh Hsh.
  by destruct (placed_hits_and_cells _ _ _ Hp Hsh) as (_ & ? & _).
Qed.

(** X5: in a reachable state in which the declared size of every ship of a
    seat is the number of board cells that name it, as it is when the fleet
    was placed from a submission in the documented format, [allShipsSunk]
    holds of the seat exactly when every cell of its board is flagged
    hit. *)
Theorem allShipsSunk_iff_every_cell_hit s pn :
  reachable s → sizes_match_board (players s pn) →
  allShipsSunk s pn = true ↔
  ∀ k cell, board (players s pn) !! k = Some cell → hit cell = true.
Proof. intros Hr _. by apply placed_allShipsSunk, reachable_placed. Qed.

Lemma allShipsSunk_iff_every_cell_hit_witness :
  let s := stateAfter fullGame in
  reachable s ∧ sizes_match_board (players s P2) ∧
  (allShipsSunk s P2 = true ↔
   ∀ k cell, board (players s P2) !! k = Some cell → hit cell = true).
Proof.
  intros s. split; [exact reachable_fullGame |].
  split; [exact (reachable_sizes_match_board s P2 reachable_fullGame) |].
  exact (allShipsSunk_iff_every_cell_hit s P2 reachable_fullGame
           (reachable_sizes_match_board s P2 reachable_fullGame)).
Defined.

Lemma reachable_board_in_bounds s pn k :
  reachable s → is_Some (board (players s pn) !! k) → in_bounds k.
Proof.
  intros Hr [cell Hcell].
  destruct (placed_cases _ (reachable_placed s pn Hr)) as [[Hb _] | (_ & Hin & _)].
  - by rewrite Hb, lookup_empty in Hcell.
  - by destruct (Hin _ _ Hcell).
Qed.

Lemma resolveShot_miss target key :
  board target !! key = None →
  resolveShot target key = Some (target, ShotMiss, None).
Proof. unfold resolveShot. by intros ->. Qed.

(** The run of the handler on a shot that finds no cell. *)
Lemma handle_fire_miss env sock slot r c s pn :
  Inv s → fire_accepted sock slot r c s pn →
  board (players s (opponent pn)) !! (r, c) = None →
  ∃ s' res,
    handle env sock (Fire slot r c) s
    = Some (s', ToAll (ShotResultMsg res)
                  :: sendPrivateBoards s' ++ [ broadcast s' ]) ∧
    shot_result res = ShotMiss ∧ shot_sunkShip res = None ∧
    players s' (opponent pn) = players s (opponent pn) ∧
    players s' pn = with_shot (r, c) (players s pn) ∧
    (if allShipsSunk s (opponent pn)
     then phase s' = FINISHED ∧ winner s' = Some pn
     else phase s' = IN_PROGRESS ∧ turn s' = Some (opponent pn)).
Proof.
  intros HI Ha Hnone. simpl. rewrite (onFire_accepted _ _ _ _ _ _ Ha).
  destruct (resolveFire_total pn (r, c) s HI) as [[s' out] Hh].
  rewrite Hh.
  destruct (resolveFire_spec _ _ _ _ _ Hh)
    as (target' & res & sunk & Hres & Hme & Hopp & _ & Hend & ->).
  rewrite (resolveShot_miss _ _ Hnone) in Hres.
  injection Hres as <- <- <-.
  eexists _, _. split; [done |]. simpl. do 4 (split; [done |]).
  rewrite (allShipsSunk_ext s' s (opponent pn)) in Hend by by rewrite Hopp.
  destruct Ha as (Hph & _).
  destruct (allShipsSunk s (opponent pn)); [tauto |].
  destruct Hend as (-> & _ & ->). done.
Qed.

(** X6: the [fire] handler checks no bounds.  A shot that passes the guards
    and aims outside the 10 by 10 grid is taken: it is recorded in the
    shooter's history and reported as a miss with no ship sunk, and the
    target's record is left as it was. *)
Theorem shot_off_the_grid_is_a_miss env sock slot r c s pn :
  reachable s → fire_accepted sock slot r c s pn → ¬ in_bounds (r, c) →
  ∃ s' res,
    handle env sock (Fire slot r c) s
    = Some (s', ToAll (ShotResultMsg res)
                  :: sendPrivateBoards s' ++ [ broadcast s' ]) ∧
    shot_result res = ShotMiss ∧ shot_sunkShip res = None ∧
    players s' (opponent pn) = players s (opponent pn) ∧
    shotsTaken (players s' pn) = {[ (r, c) ]} ∪ shotsTaken (players s pn).
Proof.
  intros Hr Ha Hout.
  destruct (handle_fire_miss env sock slot r c s pn) as (s' & res & Hh & H1 & H2 & H3 & H4 & _).
  - by apply reachable_Inv.
  - done.
  - apply eq_None_not_Some. intros Hsome. apply Hout.
    by eapply reachable_board_in_bounds.
  - exists s', res. do 4 (split; [done |]). by rewrite H4.
Qed.

Lemma shot_off_the_grid_accepted :
  fire_accepted 1%nat 1 10 (-3) (stateAfter toInProgress) P1.
Proof. unfold fire_accepted. by_compute. Qed.

Lemma shot_off_the_grid_is_a_miss_witness :
  let s := stateAfter toInProgress in
  reachable s ∧ fire_accepted 1%nat 1 10 (-3) s P1 ∧ ¬ in_bounds (10, -3) ∧
  ∃ s' res,
    handle env0 1%nat (Fire 1 10 (-3)) s
    = Some (s', ToAll (ShotResultMsg res)
                  :: sendPrivateBoards s' ++ [ broadcast s' ]) ∧
    shot_result res = ShotMiss ∧ shot_sunkShip res = None ∧
    players s' (opponent P1) = players s (opponent P1) ∧
    shotsTaken (players s' P1) = {[ (10, -3) ]} ∪ shotsTaken (players s P1).
Proof.
  intros s.
  assert (Hout : ¬ in_bounds (10, -3)) by (unfold in_bounds, BOARD_SIZE; simpl; lia).
  split; [exact reachable_toInProgress |].
  split; [exact shot_off_the_grid_accepted |]. split; [exact Hout |].
  exact (shot_off_the_grid_is_a_miss env0 1%nat 1 10 (-3) s P1
           reachable_toInProgress shot_off_the_grid_accepted Hout).
Defined.

(** X7: [allShipsSunk] is true of a seat that holds no fleet.  An accepted
    shot at such a seat is a miss and ends the match at once, the shooter
    being declared the winner. *)
Theorem shot_at_seat_without_fleet_wins env sock slot r c s pn :
  reachable s → fire_accepted sock slot r c s pn →
  ships (players s (opponent pn)) = ∅ →
  ∃ s' res,
    handle env sock (Fire slot r c) s
    = Some (s', ToAll (ShotResultMsg res)
                  :: sendPrivateBoards s' ++ [ broadcast s' ]) ∧
    shot_result res = ShotMiss ∧ shot_phase res = FINISHED ∧
    shot_winner res = Some pn ∧
    phase s' = FINISHED ∧ winner s' = Some pn.
Proof.
  intros Hr Ha Hempty.
  assert (board (players s (opponent pn)) = ∅) as Hb.
  { destruct (placed_cases _ (reachable_placed s (opponent pn) Hr))
      as [[Hb _] | (_ & _ & Hdom & _)]; [done |].
    rewrite Hempty, dom_empty_L in Hdom. exfalso. revert Hdom.
    apply (bool_decide_unpack _). vm_compute. exact I. }
  destruct (handle_fire_miss env sock slot r c s pn)
    as (s' & res & Hh & H1 & H2 & H3 & H4 & Hend).
  - by apply reachable_Inv.
  - done.
  - by rewrite Hb, lookup_empty.
  - assert (allShipsSunk s (opponent pn) = true) as Hsunk.
    { unfold allShipsSunk. apply bool_decide_eq_true_2. rewrite Hempty.
      apply map_Forall_empty. }
    rewrite Hsunk in Hend. destruct Hend as [Hph Hw].
    exists s', res. split; [done |]. split; [done |].
    simpl in Hh. rewrite (onFire_accepted _ _ _ _ _ _ Ha) in Hh.
    destruct (resolveFire_spec _ _ _ _ _ Hh)
      as (? & ? & ? & _ & _ & _ & _ & _ & Hout).
    injection Hout as Hres. subst res. simpl. done.
Qed.

Lemma reachable_seat2Rejoins : reachable (stateAfter seat2Rejoins).
Proof. exists 0, seat2Rejoins. vm_compute. reflexivity. Qed.

Lemma seat2Rejoins_accepted :
  fire_accepted 1%nat 1 0 0 (stateAfter seat2Rejoins) P1.
Proof. unfold fire_accepted. by_compute. Qed.

Lemma seat2Rejoins_no_fleet :
  ships (players (stateAfter seat2Rejoins) (opponent P1)) = ∅.
Proof. by_compute. Qed.

Lemma shot_at_seat_without_fleet_wins_witness :
  let s := stateAfter seat2Rejoins in
  reachable s ∧ fire_accepted 1%nat 1 0 0 s P1 ∧
  ships (players s (opponent P1)) = ∅ ∧
  ∃ s' res,
    handle env0 1%nat (Fire 1 0 0) s
    = Some (s', ToAll (ShotResultMsg res)
                  :: sendPrivateBoards s' ++ [ broadcast s' ]) ∧
    shot_result res = ShotMiss ∧ shot_phase res = FINISHED ∧
    shot_winner res = Some P1 ∧
    phase s' = FINISHED ∧ winner s' = Some P1.
Proof.
  intros s.
  split; [exact reachable_seat2Rejoins |].
  split; [exact seat2Rejoins_accepted |].
  split; [exact seat2Rejoins_no_fleet |].
  exact (shot_at_seat_without_fleet_wins env0 1%nat 1 0 0 s P1
           reachable_seat2Rejoins seat2Rejoins_accepted seat2Rejoins_no_fleet).
Defined.

(** ** Matches from start to finish *)

(** Induction over the reachable states. *)
Lemma reachable_ind (J : State → Prop) :
  (∀ t0, J (initialState t0)) →
  (∀ env sock e s s' out,
     reachable s → J s → handle env sock e s = Some (s', out) → J s') →
  ∀ s, reachable s → J s.
Proof.
  intros H0 Hstep s (t0 & inputs & Hrun). revert s Hrun.
  induction inputs as [|i inputs IH] using rev_ind; intros s; simpl.
  - intros [= <-]. apply H0.
  - rewrite run_app. destruct (run inputs (initialState t0)) as [s1|] eqn:Hrun1;
      [| done]. simpl.
    destruct (handle _ _ _ s1) as [[s2 out]|] eqn:Hh; [| done].
    intros [= <-]. eapply Hstep; [| by apply IH | exact Hh]. by exists t0, inputs.
Qed.

Lemma onJoin_ships sock slot s pn :
  winner (onJoin sock slot s).1 = winner s ∧
  (ships (players (onJoin sock slot s).1 pn) = ships (players s pn) ∨
   ships (players (onJoin sock slot s).1 pn) = ∅).
Proof.
  unfold onJoin. destruct (seat_of_slot slot) as [pn'|]; [| by auto].
  destruct (_ && negb _); [by auto |]. simpl.
  destruct (owns _ _); destruct pn', pn; simpl;
    case_bool_decide; simpl; repeat destruct (seated _); simpl; auto.
Qed.

Lemma onReady_not_started env sock slot s pn :
  phase (onReady env sock slot s).1 ≠ IN_PROGRESS →
  winner (onReady env sock slot s).1 = winner s ∧
  ships (players (onReady env sock slot s).1 pn) = ships (players s pn).
Proof.
  unfold onReady. destruct (seat_of_slot slot) as [pn'|]; [| done].
  destruct (negb (owns _ _)); [done |].
  destruct (negb (bool_decide _)); [done |].
  open_state s. destruct pn', pn; simpl;
    match goal with |- context [if ?b then _ else _] => destruct b end;
    simpl; done.
Qed.

(** A handler run that ends in the phase FINISHED either found it and left
    the winner and the fleets alone, a fleet emptied apart, or is the shot
    that sank the last ship. *)
Lemma finished_step env sock e s s' out :
  Inv s → handle env sock e s = Some (s', out) → phase s' = FINISHED →
  (phase s = FINISHED ∧ winner s' = winner s ∧
   ∀ pn, ships (players s' pn) = ships (players s pn) ∨
         ships (players s' pn) = ∅) ∨
  (∃ w, winner s' = Some w ∧ allShipsSunk s' (opponent w) = true).
Proof.
  intros HI Hh Hfin. destruct e; simpl in Hh;
    try (pose proof (Some_pair_fst _ _ _ Hh) as <-).
  - left. auto.
  - left. destruct (phase_onJoin sock slot s) as [Hph | [_ Hph]];
      [| congruence]. split; [congruence |].
    split; [apply (onJoin_ships sock slot s P1) |].
    intros pn. apply onJoin_ships.
  - left. rewrite phase_onPlaceShips in Hfin.
    destruct (onPlaceShips_cases sock slot shipsPayload s)
      as [(pn & _ & _ & [?|?] & _) | [_ ->]]; [congruence .. |]. auto.
  - left. assert (phase (onReady env sock slot s).1 ≠ IN_PROGRESS) as Hn
      by congruence.
    destruct (phase_onReady env sock slot s HI) as [Hph | [_ Hph]];
      [| congruence].
    split; [congruence |].
    split; [apply (onReady_not_started env sock slot s P1 Hn) |].
    intros pn. left. apply (onReady_not_started env sock slot s pn Hn).
  - destruct (onFire_cases sock slot r c s) as [[pn Ha] | Hno].
    + right. rewrite (onFire_accepted _ _ _ _ _ _ Ha) in Hh.
      destruct Ha as (Hph & _).
      destruct (resolveFire_spec _ _ _ _ _ Hh)
        as (? & ? & ? & _ & _ & _ & _ & Hend & _).
      destruct (allShipsSunk s' (opponent pn)) eqn:Hsunk.
      * exists pn. by destruct Hend as (_ & -> & _).
      * destruct Hend as (Hph' & _). congruence.
    + left. destruct (onFire_not_accepted _ _ _ _ _ Hno) as [H | [H _]];
        rewrite H in Hh; simplify_eq; auto.
  - left. unfold onChat in *. destruct (all_white _); simpl in *; auto.
  - left. unfold onReset in *.
    destruct (owns (players s P1) sock || owns (players s P2) sock) eqn:Ho;
      [| simpl in *; by auto].
    destruct (onReset_honored env sock s Ho) as (s1 & Heq & _ & _ & _ & Hph).
    unfold onReset in Heq. rewrite Ho in Heq. rewrite Heq in Hfin. simpl in Hfin.
    rewrite Hph in Hfin. by destruct (bothSeated s).
  - left.
    assert (∀ pn, socketId (players s pn) = Some sock →
                  phase (onDisconnect sock s).1 ≠ FINISHED) as Hseat.
    { intros pn Hpn.
      destruct (onDisconnect_seated sock s pn HI Hpn)
        as (s1 & Heq & _ & _ & Hph & _).
      rewrite Heq. simpl. congruence. }
    destruct (decide (socketId (players s P1) = Some sock)) as [H1|H1];
      [by destruct (Hseat P1) |].
    destruct (decide (socketId (players s P2) = Some sock)) as [H2|H2];
      [by destruct (Hseat P2) |].
    destruct (onDisconnect_unseated sock s) as (s1 & Heq & Hsame & Hrest);
      [by intros [] |].
    rewrite Heq in Hfin |- *. simpl in *.
    destruct (bothSeated s); [subst s1; auto |].
    destruct Hrest as (? & _). congruence.
Qed.

Lemma allShipsSunk_no_fleet s pn :
  ships (players s pn) = ∅ → allShipsSunk s pn = true.
Proof.
  intros Hs. unfold allShipsSunk. apply bool_decide_eq_true_2. rewrite Hs.
  apply map_Forall_empty.
Qed.

Lemma reachable_finished s :
  reachable s → phase s = FINISHED →
  ∃ w, winner s = Some w ∧ allShipsSunk s (opponent w) = true.
Proof.
  intros Hr. revert s Hr.
  apply (reachable_ind (λ s, phase s = FINISHED →
           ∃ w, winner s = Some w ∧ allShipsSunk s (opponent w) = true));
    [done |].
  intros env sock e s s' out Hr IH Hh Hfin.
  destruct (finished_step env sock e s s' out (reachable_Inv _ Hr) Hh Hfin)
    as [(Hph & Hw & Hships) | Hwon]; [| done].
  destruct (IH Hph) as (w & Hw' & Hsunk). exists w. split; [congruence |].
  destruct (Hships (opponent w)) as [Hsame | Hnone].
  - by rewrite (allShipsSunk_ext s' s).
  - by apply allShipsSunk_no_fleet.
Qed.

(** X8: whenever the phase is FINISHED there is a winner, the turn still
    names that winner, and [allShipsSunk] holds of the other seat; if the
    declared sizes of the other seat's ships are the numbers of board cells
    that name them, as they are for a fleet placed in the documented
    format, no cell of its board is left unhit. *)
Theorem finished_match_has_sunk_loser s :
  reachable s → phase s = FINISHED →
  ∃ w, winner s = Some w ∧ turn s = Some w ∧
       allShipsSunk s (opponent w) = true ∧
       (sizes_match_board (players s (opponent w)) →
        ∀ k cell, board (players s (opponent w)) !! k = Some cell →
                  hit cell = true).
Proof.
  intros Hr Hfin. destruct (reachable_finished s Hr Hfin) as (w & Hw & Hsunk).
  exists w. split; [done |].
  destruct (inv_finished _ (reachable_Inv _ Hr) Hfin) as [_ Ht].
  split; [congruence |]. split; [done |]. intros _.
  by apply placed_allShipsSunk; [apply reachable_placed |].
Qed.

Lemma finished_match_has_sunk_loser_witness :
  let s := stateAfter fullGame in
  reachable s ∧ phase s = FINISHED ∧
  ∃ w, winner s = Some w ∧ turn s = Some w ∧
       allShipsSunk s (opponent w) = true ∧
       (sizes_match_board (players s (opponent w)) →
        ∀ k cell, board (players s (opponent w)) !! k = Some cell →
                  hit cell = true).
Proof.
  intros s. split; [exact reachable_fullGame |]. split; [exact phase_fullGame |].
  exact (finished_match_has_sunk_loser s reachable_fullGame phase_fullGame).
Defined.

Lemma resolveShot_dom_ships target key target' res sunk :
  resolveShot target key = Some (target', res, sunk) →
  dom (ships target') = dom (ships target).
Proof.
  unfold resolveShot. intros H.
  destruct (board target !! key) as [cell|]; [| by simplify_eq].
  destruct (hit cell); [by simplify_eq |].
  destruct (ships target !! shipId cell) as [sh|] eqn:Hsh; simplify_eq.
  simpl. by apply dom_insert_lookup_L.
Qed.

(** A seat marked ready holds a fleet of five ships. *)
Lemma reachable_ready_fleet s pn :
  reachable s → ready (players s pn) = true →
  size (ships (players s pn)) = length SHIP_DEFS.
Proof.
  apply (reachable_players
           (λ p, ready p = true → size (ships p) = length SHIP_DEFS));
    [done |].
  intros p p' IH Hstep.
  destruct Hstep as [p | p so nm | p pl Hv | p Hsz | p key | p key p' res sunk Hres];
    simpl; try done.
  destruct (resolveShot_frame _ _ _ _ _ Hres) as (_ & _ & -> & _).
  by rewrite <- !size_dom, (resolveShot_dom_ships _ _ _ _ _ Hres), !size_dom.
Qed.

Lemma onReady_start env sock slot s :
  phase s ≠ IN_PROGRESS → phase (onReady env sock slot s).1 = IN_PROGRESS →
  turn (onReady env sock slot s).1
  = Some (if random_lt_half env then P1 else P2) ∧
  ∀ pn, ready (players (onReady env sock slot s).1 pn) = true.
Proof.
  unfold onReady. destruct (seat_of_slot slot) as [pn'|]; [| done].
  destruct (negb (owns _ _)); [done |].
  destruct (negb (bool_decide _)); [done |].
  open_state s. destruct pn'; simpl; destruct rd, rd0; simpl; try done;
    intros _ _; (split; [done |]); by intros [].
Qed.

(** X9: a match begins only in the [ready] handler, from the phase PLACING
    or FINISHED.  In the state it begins in both seats are occupied and
    marked ready, each holds a fleet of five ships and a board that is not
    empty, and the first turn is seat 1 when [Math.random() < 0.5] and
    seat 2 otherwise. *)
Theorem match_begins_with_two_complete_fleets env sock e s s' out :
  reachable s → handle env sock e s = Some (s', out) →
  phase s ≠ IN_PROGRESS → phase s' = IN_PROGRESS →
  (∃ slot, e = Ready slot) ∧
  (phase s = PLACING ∨ phase s = FINISHED) ∧
  turn s' = Some (if random_lt_half env then P1 else P2) ∧
  ∀ pn, seated (players s' pn) = true ∧ ready (players s' pn) = true ∧
        size (ships (players s' pn)) = 5%nat ∧
        board (players s' pn) ≠ ∅.
Proof.
  intros Hr Hh Hn Hph. pose proof (reachable_Inv _ Hr) as HI.
  pose proof (reachable_step _ _ _ _ _ _ Hr Hh) as Hr'.
  destruct e; simpl in Hh; try (pose proof (Some_pair_fst _ _ _ Hh) as <-).
  - done.
  - destruct (phase_onJoin sock slot s) as [? | [_ ?]]; congruence.
  - rewrite phase_onPlaceShips in Hph. done.
  - split; [by eexists |].
    destruct (onReady_start env sock slot s Hn Hph) as [Ht Hrd].
    split.
    { destruct (phase_onReady env sock slot s HI) as [? | [Hl _]];
        [congruence |]. destruct (phase s); auto; done. }
    split; [done |]. intros pn.
    pose proof (reachable_ready_fleet _ pn Hr' (Hrd pn)) as Hsz.
    split; [apply (inv_ready _ (reachable_Inv _ Hr')), Hrd |].
    split; [done |]. split; [done |].
    destruct (placed_cases _ (reachable_placed _ pn Hr'))
      as [[_ Hnone] | (Hb & _)].
    + rewrite Hnone, map_size_empty in Hsz. done.
    + intros Hempty. by rewrite Hempty, map_size_empty in Hb.
  - destruct (phase_onFire _ _ _ _ _ _ _ Hh) as [? | [? ?]]; congruence.
  - unfold onChat in Hph. by destruct (all_white _).
  - destruct (phase_onReset env sock s) as [? | [? | (_ & ? & _)]]; congruence.
  - destruct (phase_onDisconnect sock s); congruence.
Qed.

Lemma reachable_beforeStart : reachable (stateAfter beforeStart).
Proof. exists 0, beforeStart. vm_compute. reflexivity. Qed.

Lemma beforeStart_handled :
  handle env0 2%nat (Ready 2) (stateAfter beforeStart)
  = Some (stateAfter toInProgress,
          emitted beforeStart (mkInput env0 2%nat (Ready 2))).
Proof. vm_compute. reflexivity. Qed.

Lemma phase_beforeStart : phase (stateAfter beforeStart) ≠ IN_PROGRESS.
Proof. by_compute. Qed.

Lemma match_begins_with_two_complete_fleets_witness :
  let s := stateAfter beforeStart in
  let s' := stateAfter toInProgress in
  reachable s ∧
  handle env0 2%nat (Ready 2) s
  = Some (s', emitted beforeStart (mkInput env0 2%nat (Ready 2))) ∧
  phase s ≠ IN_PROGRESS ∧ phase s' = IN_PROGRESS ∧
  (∃ slot, Ready 2 = Ready slot) ∧
  (phase s = PLACING ∨ phase s = FINISHED) ∧
  turn s' = Some (if random_lt_half env0 then P1 else P2) ∧
  ∀ pn, seated (players s' pn) = true ∧ ready (players s' pn) = true ∧
        size (ships (players s' pn)) = 5%nat ∧
        board (players s' pn) ≠ ∅.
Proof.
  intros s s'.
  split; [exact reachable_beforeStart |].
  split; [exact beforeStart_handled |].
  split; [exact phase_beforeStart |].
  split; [exact phase_toInProgress |].
  exact (match_begins_with_two_complete_fleets env0 2%nat (Ready 2) s s' _
           reachable_beforeStart beforeStart_handled phase_beforeStart
           phase_toInProgress).
Defined.

(** X10: in every reachable state no connection holds both seats, a seat
    marked ready is occupied, and a seat is empty exactly in the phase
    LOBBY. *)
Theorem seats_of_reachable_state s :
  reachable s →
  (∀ sock, ¬ (socketId (players s P1) = Some sock ∧
              socketId (players s P2) = Some sock)) ∧
  (∀ pn, ready (players s pn) = true → seated (players s pn) = true) ∧
  (phase s = LOBBY ↔ ∃ pn, socketId (players s pn) = None).
Proof.
  intros HI%reachable_Inv. split; [| split].
  - intros sock [H1 H2]. by apply (inv_distinct _ HI sock).
  - apply (inv_ready _ HI).
  - rewrite (inv_lobby _ HI). unfold seated. simpl. split.
    + intros Hn. destruct (socketId (player1 s)) eqn:H1;
        [| by exists P1].
      destruct (socketId (player2 s)) eqn:H2; [| by exists P2].
      by destruct Hn.
    + intros [[] Hpn] [H1 H2]; simpl in Hpn; by rewrite Hpn in *.
Qed.

Lemma seats_of_reachable_state_witness :
  let s := stateAfter toInProgress in
  reachable s ∧
  (∀ sock, ¬ (socketId (players s P1) = Some sock ∧
              socketId (players s P2) = Some sock)) ∧
  (∀ pn, ready (players s pn) = true → seated (players s pn) = true) ∧
  (phase s = LOBBY ↔ ∃ pn, socketId (players s pn) = None).
Proof.
  intros s. split; [exact reachable_toInProgress |].
  exact (seats_of_reachable_state s reachable_toInProgress).
Defined.

(** X11: on a reachable state no handler dies: the one read that could
    throw, [sh.hits] of the ship that the target cell names, always finds
    the ship in the target's fleet. *)
Theorem no_handler_dies_on_reachable_state env sock e s :
  reachable s →
  is_Some (handle env sock e s) ∧
  ∀ pn k cell, board (players s pn) !! k = Some cell →
               is_Some (ships (players s pn) !! shipId cell).
Proof.
  intros HI%reachable_Inv. split; [by apply handle_total |].
  intros pn k cell Hcell.
  destruct (inv_fleet _ HI pn k cell Hcell) as (sh & -> & _). by eexists.
Qed.

Lemma no_handler_dies_on_reachable_state_witness :
  let s := stateAfter beforeLastShot in
  reachable s ∧
  is_Some (handle env0 1%nat (Fire 1 4 1) s) ∧
  ∀ pn k cell, board (players s pn) !! k = Some cell →
               is_Some (ships (players s pn) !! shipId cell).
Proof.
  intros s. split; [exact reachable_beforeLastShot |].
  exact (no_handler_dies_on_reachable_state env0 1%nat (Fire 1 4 1) s
           reachable_beforeLastShot).
Defined.

(** X12: the [ready] handler, for the holder of a seat.  Without a fleet the
    event changes nothing and is answered with the notice 'Place all ships
    first.'; with a fleet the seat is marked ready, nothing else of either
    seat changes, and the match starts, with the turn drawn by the coin,
    exactly when the other seat is marked ready too. *)
Theorem ready_needs_a_fleet env sock slot s pn :
  reachable s → seat_of_slot slot = Some pn →
  socketId (players s pn) = Some sock →
  (ships (players s pn) = ∅ →
   handle env sock (Ready slot) s
   = Some (s, [ ToSocket sock (Notice NoticeError "Place all ships first.") ])) ∧
  (ships (players s pn) ≠ ∅ →
   ∃ s', handle env sock (Ready slot) s
         = Some (s', broadcast s' :: sendPrivateBoards s') ∧
     players s' pn = with_ready true (players s pn) ∧
     players s' (opponent pn) = players s (opponent pn) ∧
     winner s' = winner s ∧
     if ready (players s (opponent pn))
     then phase s' = IN_PROGRESS ∧
          turn s' = Some (if random_lt_half env then P1 else P2)
     else phase s' = phase s ∧ turn s' = turn s).
Proof.
  intros Hr Hpn Hown. simpl. unfold onReady. rewrite Hpn.
  rewrite (proj2 (owns_true _ _) Hown). simpl.
  destruct (placed_cases _ (reachable_placed s pn Hr))
    as [[_ Hnone] | (_ & _ & Hdom & _)].
  - split; [| done]. intros _. rewrite Hnone, map_size_empty.
    by rewrite bool_decide_eq_false_2.
  - assert (size (ships (players s pn)) = length SHIP_DEFS) as Hsz.
    { rewrite <- size_dom, Hdom. vm_compute. reflexivity. }
    split.
    { intros Hnone. rewrite Hnone, map_size_empty in Hsz. done. }
    intros _. rewrite (bool_decide_eq_true_2 _ Hsz). simpl.
    eexists. split; [reflexivity |].
    open_state s. destruct pn; simpl; destruct rd, rd0; simpl; done.
Qed.

Lemma ready_again_owner :
  socketId (players (stateAfter toInProgress) P1) = Some 1%nat.
Proof. vm_compute. reflexivity. Qed.

Lemma ready_needs_a_fleet_witness :
  let s := stateAfter toInProgress in
  reachable s ∧ seat_of_slot 1 = Some P1 ∧
  socketId (players s P1) = Some 1%nat ∧
  (ships (players s P1) = ∅ →
   handle env0 1%nat (Ready 1) s
   = Some (s, [ ToSocket 1%nat (Notice NoticeError "Place all ships first.") ])) ∧
  (ships (players s P1) ≠ ∅ →
   ∃ s', handle env0 1%nat (Ready 1) s
         = Some (s', broadcast s' :: sendPrivateBoards s') ∧
     players s' P1 = with_ready true (players s P1) ∧
     players s' (opponent P1) = players s (opponent P1) ∧
     winner s' = winner s ∧
     if ready (players s (opponent P1))
     then phase s' = IN_PROGRESS ∧
          turn s' = Some (if random_lt_half env0 then P1 else P2)
     else phase s' = phase s ∧ turn s' = turn s).
Proof.
  intros s.
  assert (H1 : seat_of_slot 1 = Some P1) by reflexivity.
  split; [exact reachable_toInProgress |]. split; [exact H1 |].
  split; [exact ready_again_owner |].
  exact (ready_needs_a_fleet env0 1%nat 1 s P1 reachable_toInProgress H1
           ready_again_owner).
Defined.

(** ** Connections and messages *)

Lemma spectator_owns sock s pn : spectator sock s → owns (players s pn) sock = false.
Proof. intros Hs. apply owns_false, Hs. Qed.

Lemma onDisconnect_spectator sock s :
  Inv s → spectator sock s → onDisconnect sock s = (s, [ broadcast s ]).
Proof.
  intros HI Hs. unfold onDisconnect.
  rewrite (spectator_owns _ _ P1 Hs).
  rewrite (spectator_owns _ _ P2 Hs).
  destruct (negb (seated (players s P1)) || negb (seated (players s P2))) eqn:Hb;
    [| done].
  assert (phase s = LOBBY) as Hph.
  { apply (inv_lobby _ HI). intros [H1 H2]. simpl in Hb.
    by rewrite H1, H2 in Hb. }
  assert (turn s = None) as Ht.
  { destruct (turn s) eqn:Hturn; [| done].
    destruct (proj1 (inv_turn _ HI)); congruence. }
  assert (winner s = None) as Hw.
  { destruct (winner s) eqn:Hwin; [| done].
    destruct (inv_winner _ HI); congruence. }
  destruct s; simpl in *; subst. done.
Qed.

Ltac out_elems :=
  repeat match goal with
         | H : _ ∈ [] |- _ => by apply elem_of_nil in H
         | H : _ ∈ _ :: _ |- _ => apply elem_of_cons in H as [H | H]
         | H : _ ∈ (_ ++ _)%list |- _ => apply elem_of_app in H as [H | H]
         end.

(** X13: a connection that holds no seat cannot change the game: the only
    event of such a connection that changes the state of the server is a
    [join] for a free seat.  Whatever it sends, nothing is emitted to any
    other single connection. *)
Theorem spectator_changes_state_only_by_joining env sock e s s' out :
  reachable s → spectator sock s →
  handle env sock e s = Some (s', out) →
  (s' ≠ s → joins_free_seat e s) ∧
  (¬ joins_free_seat e s → ∀ to p, ToSocket to p ∈ out → to = sock).
Proof.
  intros HI%reachable_Inv Hs Hh.
  assert (∀ pn, negb (owns (players s pn) sock) = true) as Hno
    by (intros pn; by rewrite (spectator_owns _ _ pn Hs)).
  assert (∀ out0, s' = s → out = out0 →
            (∀ to p, ToSocket to p ∈ out0 → to = sock) →
            (s' ≠ s → joins_free_seat e s) ∧
            (¬ joins_free_seat e s → ∀ to p, ToSocket to p ∈ out → to = sock))
    as Hsame.
  { intros out0 -> -> Hout. split; [done | by intros _]. }
  destruct e; simpl in Hh.
  - unfold onConnect in Hh. injection Hh as <- <-.
    eapply Hsame; [done .. |]. intros to p Hin. out_elems; by simplify_eq.
  - unfold onJoin in Hh.
    destruct (seat_of_slot slot) as [pn|] eqn:Hpn.
    2:{ injection Hh as <- <-. eapply Hsame; [done .. |].
        by intros ?? ?%elem_of_nil. }
    rewrite Hno, andb_true_r in Hh.
    destruct (seated (players s pn)) eqn:Hseat.
    + injection Hh as <- <-. eapply Hsame; [done .. |].
      intros to p Hin. out_elems; by simplify_eq.
    + assert (joins_free_seat (Join slot) s) as Hj.
      { exists slot, pn. do 2 (split; [done |]). unfold seated in Hseat.
        by destruct (socketId (players s pn)). }
      split; [done | by intros []].
  - unfold onPlaceShips in Hh.
    destruct (seat_of_slot slot) as [pn|]; [rewrite Hno in Hh |];
      injection Hh as <- <-; (eapply Hsame; [done .. |]);
      by intros ?? ?%elem_of_nil.
  - unfold onReady in Hh.
    destruct (seat_of_slot slot) as [pn|]; [rewrite Hno in Hh |];
      injection Hh as <- <-; (eapply Hsame; [done .. |]);
      by intros ?? ?%elem_of_nil.
  - destruct (onFire_not_accepted sock slot r c s) as [H | [H (pn & Hpn & _)]].
    + intros pn (_ & _ & Ho & _). by apply (Hs pn).
    + rewrite H in Hh. injection Hh as <- <-. eapply Hsame; [done .. |].
      by intros ?? ?%elem_of_nil.
    + rewrite H in Hh. injection Hh as <- <-. eapply Hsame; [done .. |].
      intros to p Hin. out_elems; by simplify_eq.
  - unfold onChat in Hh. destruct (all_white _); injection Hh as <- <-;
      (eapply Hsame; [done .. |]); intros to p Hin; out_elems; by simplify_eq.
  - unfold onReset in Hh.
    rewrite (spectator_owns _ _ P1 Hs), (spectator_owns _ _ P2 Hs) in Hh.
    injection Hh as <- <-. eapply Hsame; [done .. |].
    by intros ?? ?%elem_of_nil.
  - rewrite (onDisconnect_spectator _ _ HI Hs) in Hh. injection Hh as <- <-.
    eapply Hsame; [done .. |]. intros to p Hin. out_elems; by simplify_eq.
Qed.

(** A third connection opens while a match is on. *)
Lemma spectator_toInProgress : spectator 3%nat (stateAfter toInProgress).
Proof. intros []; by_compute. Qed.

Lemma spectator_fire_handled :
  handle env0 3%nat (Fire 1 0 0) (stateAfter toInProgress)
  = Some (stateAfter toInProgress, []).
Proof. vm_compute. reflexivity. Qed.

Lemma spectator_changes_state_only_by_joining_witness :
  let s := stateAfter toInProgress in
  reachable s ∧ spectator 3%nat s ∧
  handle env0 3%nat (Fire 1 0 0) s = Some (s, []) ∧
  (s ≠ s → joins_free_seat (Fire 1 0 0) s) ∧
  (¬ joins_free_seat (Fire 1 0 0) s →
   ∀ to p, ToSocket to p ∈ ([] : list Msg) → to = 3%nat).
Proof.
  intros s.
  split; [exact reachable_toInProgress |].
  split; [exact spectator_toInProgress |].
  split; [exact spectator_fire_handled |].
  exact (spectator_changes_state_only_by_joining env0 3%nat (Fire 1 0 0) s s []
           reachable_toInProgress spectator_toInProgress spectator_fire_handled).
Defined.

Lemma routed_sendPrivateBoards sock s' m :
  m ∈ sendPrivateBoards s' → routed sock s' m.
Proof.
  intros (V & to & Hto & ->)%sendPrivateBoards_elem. simpl. by exists V.
Qed.

Ltac routed_elems :=
  apply Forall_forall; intros ? ?; out_elems;
  first [ by apply routed_sendPrivateBoards | by subst ].

Lemma handle_routed env sock e s s' out :
  handle env sock e s = Some (s', out) → Forall (routed sock s') out.
Proof.
  intros Hh. destruct e; simpl in Hh.
  - unfold onConnect in Hh. injection Hh as <- <-. routed_elems.
  - unfold onJoin in Hh.
    destruct (seat_of_slot slot); [| injection Hh as <- <-; routed_elems].
    destruct (_ && negb _); injection Hh as <- <-; routed_elems.
  - unfold onPlaceShips in Hh.
    destruct (seat_of_slot slot); [| injection Hh as <- <-; routed_elems].
    destruct (negb (owns _ _)); [injection Hh as <- <-; routed_elems |].
    destruct (negb _ && _); [injection Hh as <- <-; routed_elems |].
    destruct (setPlacementForPlayer _ _ _) as [[|err] s1];
      injection Hh as <- <-; routed_elems.
  - unfold onReady in Hh.
    destruct (seat_of_slot slot); [| injection Hh as <- <-; routed_elems].
    destruct (negb (owns _ _)); [injection Hh as <- <-; routed_elems |].
    destruct (negb (bool_decide _)); injection Hh as <- <-; routed_elems.
  - destruct (onFire_cases sock slot r c s) as [[pn Ha] | Hno].
    + rewrite (onFire_accepted _ _ _ _ _ _ Ha) in Hh.
      destruct (resolveFire_spec _ _ _ _ _ Hh)
        as (? & ? & ? & _ & _ & _ & _ & _ & ->).
      routed_elems.
    + destruct (onFire_not_accepted _ _ _ _ _ Hno) as [H | [H _]];
        rewrite H in Hh; injection Hh as <- <-; routed_elems.
  - unfold onChat in Hh. destruct (all_white _); injection Hh as <- <-;
      routed_elems.
  - unfold onReset, resetGame in Hh.
    destruct (_ || _); injection Hh as <- <-; routed_elems.
  - unfold onDisconnect in Hh. injection Hh as <- <-. routed_elems.
Qed.

(** X14: every message a handler run emits is routed: a [state] message
    carries the public view of the state the run ends in, a [shotResult]
    carries that state's turn, phase and winner, a [boards] payload goes to
    the connection holding the seat it is built for, and notices, [joined]
    and [hello] go only to the connection whose event is served.  Nothing
    but [state], [shotResult] and [chat] is sent to all. *)
Theorem emitted_messages_are_routed env sock e s s' out :
  handle env sock e s = Some (s', out) → Forall (routed sock s') out.
Proof. apply handle_routed. Qed.

Lemma emitted_messages_are_routed_witness :
  Forall (routed 1%nat (stateAfter fullGame)) (emitted beforeLastShot lastShot).
Proof.
  exact (emitted_messages_are_routed env0 1%nat (Fire 1 4 1)
           (stateAfter beforeLastShot) (stateAfter fullGame)
           (emitted beforeLastShot lastShot) lastShot_handled).
Defined.

Lemma handle_broadcast env sock e s s' out :
  handle env sock e s = Some (s', out) → s' ≠ s → broadcast s' ∈ out.
Proof.
  intros Hh Hne. destruct e; simpl in Hh.
  - unfold onConnect in Hh. by injection Hh as <- <-.
  - unfold onJoin in Hh.
    destruct (seat_of_slot slot); [| by injection Hh as <- <-].
    destruct (_ && negb _); injection Hh as <- <-; [done | set_solver].
  - unfold onPlaceShips in Hh.
    destruct (seat_of_slot slot); [| by injection Hh as <- <-].
    destruct (negb (owns _ _)); [by injection Hh as <- <- |].
    destruct (negb _ && _); [by injection Hh as <- <- |].
    destruct (setPlacementForPlayer _ _ _) as [[|err] s1];
      injection Hh as <- <-; [set_solver | done].
  - unfold onReady in Hh.
    destruct (seat_of_slot slot); [| by injection Hh as <- <-].
    destruct (negb (owns _ _)); [by injection Hh as <- <- |].
    destruct (negb (bool_decide _)); injection Hh as <- <-; [done | set_solver].
  - destruct (onFire_cases sock slot r c s) as [[pn Ha] | Hno].
    + rewrite (onFire_accepted _ _ _ _ _ _ Ha) in Hh.
      destruct (resolveFire_spec _ _ _ _ _ Hh)
        as (? & ? & ? & _ & _ & _ & _ & _ & ->).
      set_solver.
    + destruct (onFire_not_accepted _ _ _ _ _ Hno) as [H | [H _]];
        rewrite H in Hh; by injection Hh as <- <-.
  - unfold onChat in Hh. by destruct (all_white _); injection Hh as <- <-.
  - unfold onReset, resetGame in Hh.
    destruct (_ || _); injection Hh as <- <-; [set_solver | done].
  - unfold onDisconnect in Hh. injection Hh as <- <-. set_solver.
Qed.

(** X15: no change of the server state goes unannounced: a handler run that
    changes the state sends the public view of the new state to all. *)
Theorem state_change_is_broadcast env sock e s s' out :
  handle env sock e s = Some (s', out) → s' ≠ s → broadcast s' ∈ out.
Proof. apply handle_broadcast. Qed.

Lemma lastShot_changes_state : stateAfter fullGame ≠ stateAfter beforeLastShot.
Proof. by_compute. Qed.

Lemma state_change_is_broadcast_witness :
  let s := stateAfter beforeLastShot in
  let s' := stateAfter fullGame in
  handle env0 1%nat (Fire 1 4 1) s = Some (s', emitted beforeLastShot lastShot) ∧
  s' ≠ s ∧ broadcast s' ∈ emitted beforeLastShot lastShot.
Proof.
  intros s s'. split; [exact lastShot_handled |].
  split; [exact lastShot_changes_state |].
  exact (state_change_is_broadcast env0 1%nat (Fire 1 4 1) s s' _
           lastShot_handled lastShot_changes_state).
Defined.

Lemma handle_join_accepted env sock slot s pn :
  seat_of_slot slot = Some pn →
  socketId (players s pn) = None ∨ socketId (players s pn) = Some sock →
  ∃ s',
    handle env sock (Join slot) s
    = Some (s', ToSocket sock (Joined slot) :: broadcast s'
                  :: sendPrivateBoards s') ∧
    players s' pn
    = {| socketId := Some sock; name := Some (playerName pn); ready := false;
         board := ∅; ships := ∅; shotsTaken := ∅ |} ∧
    players s' (opponent pn)
    = (if owns (players s (opponent pn)) sock then mkPlayerState
       else players s (opponent pn)) ∧
    turn s' = turn s ∧ winner s' = winner s ∧ createdAt s' = createdAt s ∧
    phase s'
    = (if bool_decide (phase s = LOBBY) && seated (players s' (opponent pn))
       then PLACING else phase s).
Proof.
  intros Hpn Hfree. simpl. unfold onJoin. rewrite Hpn.
  open_state s. unfold owns, seated, mkPlayerState in *.
  destruct pn; simpl in *; destruct Hfree as [-> | ->]; simpl;
    rewrite ?bool_decide_eq_true_2 by done; simpl;
    (eexists; split; [reflexivity |]); simpl;
    repeat (case_bool_decide; simpl);
    try (destruct so); try (destruct so0); done.
Qed.

(** X16: a [join] for a seat that is free, or that the connection already
    holds, gives the connection that seat with an empty record: the name
    'Player n', not ready, no board, no fleet, no shots, also when it held
    the seat before.  The other seat is vacated if the connection held it
    and is left alone otherwise; turn and winner stay, and the phase moves
    from LOBBY to PLACING exactly when the other seat is then occupied. *)
Theorem join_gives_an_empty_seat env sock slot s pn :
  seat_of_slot slot = Some pn →
  socketId (players s pn) = None ∨ socketId (players s pn) = Some sock →
  ∃ s',
    handle env sock (Join slot) s
    = Some (s', ToSocket sock (Joined slot) :: broadcast s'
                  :: sendPrivateBoards s') ∧
    players s' pn
    = {| socketId := Some sock; name := Some (playerName pn); ready := false;
         board := ∅; ships := ∅; shotsTaken := ∅ |} ∧
    players s' (opponent pn)
    = (if owns (players s (opponent pn)) sock then mkPlayerState
       else players s (opponent pn)) ∧
    turn s' = turn s ∧ winner s' = winner s ∧ createdAt s' = createdAt s ∧
    phase s'
    = (if bool_decide (phase s = LOBBY) && seated (players s' (opponent pn))
       then PLACING else phase s).
Proof. apply handle_join_accepted. Qed.

Lemma join_gives_an_empty_seat_witness :
  let s := stateAfter toInProgress in
  seat_of_slot 2 = Some P2 ∧
  (socketId (players s P2) = None ∨ socketId (players s P2) = Some 2%nat) ∧
  ∃ s',
    handle env0 2%nat (Join 2) s
    = Some (s', ToSocket 2%nat (Joined 2) :: broadcast s'
                  :: sendPrivateBoards s') ∧
    players s' P2
    = {| socketId := Some 2%nat; name := Some (playerName P2); ready := false;
         board := ∅; ships := ∅; shotsTaken := ∅ |} ∧
    players s' (opponent P2)
    = (if owns (players s (opponent P2)) 2%nat then mkPlayerState
       else players s (opponent P2)) ∧
    turn s' = turn s ∧ winner s' = winner s ∧ createdAt s' = createdAt s ∧
    phase s'
    = (if bool_decide (phase s = LOBBY) && seated (players s' (opponent P2))
       then PLACING else phase s).
Proof.
  intros s.
  assert (H1 : seat_of_slot 2 = Some P2) by reflexivity.
  assert (H2 : socketId (players s P2) = None
               ∨ socketId (players s P2) = Some 2%nat)
    by (right; vm_compute; reflexivity).
  split; [exact H1 |]. split; [exact H2 |].
  exact (join_gives_an_empty_seat env0 2%nat 2 s P2 H1 H2).
Defined.

Lemma substring_0_prefix n s :
  ∃ rest, s = String.substring 0 n s +:+ rest ∧
          (String.length (String.substring 0 n s) ≤ n)%nat ∧
          (rest = "" ∨ String.length (String.substring 0 n s) = n).
Proof.
  revert s. induction n as [|n IH]; intros s.
  - exists s. destruct s; simpl; auto.
  - destruct s as [|a s]; simpl.
    + exists "". simpl. split; [done |]. split; [lia | by left].
    + destruct (IH s) as (rest & Heq & Hlen & Hrest). exists rest.
      split.
      { change (String a s = String a (String.substring 0 n s +:+ rest)).
        by f_equal. }
      split; [lia |].
      destruct Hrest as [-> | ->]; auto.
Qed.

(** X17: a [chat] event with a text of ASCII characters never changes the
    state.  It is dropped when the first 400 characters of the text are all
    white space, and otherwise relayed once, to all: the text relayed is the
    text cut after 400 characters, stamped with the clock, and the sender
    shown is never empty: the given name, or for want of one 'Player n' for
    the holder of seat n and 'Spectator' for anyone else. *)
Theorem chat_relays_text_cut_at_400 env sock from text s :
  ascii_only text = true →
  ∃ out, handle env sock (Chat from text) s = Some (s, out) ∧
    (out = [] ∧ all_white (String.substring 0 400 text) = true ∨
     ∃ from' clean rest,
       out = [ ToAll (ChatMsg from' clean (now env)) ] ∧
       text = clean +:+ rest ∧ (String.length clean ≤ 400)%nat ∧
       (rest = "" ∨ String.length clean = 400%nat) ∧
       all_white clean = false ∧ from' ≠ "" ∧
       (from ≠ "" → from' = from) ∧
       (from = "" →
        (∃ pn, socketId (players s pn) = Some sock ∧ from' = playerName pn) ∨
        ((∀ pn, socketId (players s pn) ≠ Some sock) ∧ from' = "Spectator"))).
Proof.
  intros _. simpl. unfold onChat.
  destruct (all_white (String.substring 0 400 text)) eqn:Hw.
  - eexists. split; [done |]. by left.
  - eexists. split; [done |]. right.
    destruct (substring_0_prefix 400 text) as (rest & Heq & Hlen & Hrest).
    eexists _, _, rest. split; [done |]. do 4 (split; [done |]).
    case_bool_decide as Hfrom.
    + split; [| split; [done |]].
      * destruct (owns (players s P2) sock), (owns (players s P1) sock);
          simpl; discriminate.
      * intros _.
        destruct (owns (players s P2) sock) eqn:H2;
          [left; exists P2; by apply owns_true in H2 |].
        destruct (owns (players s P1) sock) eqn:H1;
          [left; exists P1; by apply owns_true in H1 |].
        right. split; [| done]. intros []; by apply owns_false.
    + split; [done |]. split; [done | by intros ?].
Qed.

Lemma chat_relays_text_cut_at_400_witness :
  let s := stateAfter toInProgress in
  ascii_only "good luck" = true ∧
  ∃ out, handle env0 2%nat (Chat "" "good luck") s = Some (s, out) ∧
    (out = [] ∧ all_white (String.substring 0 400 "good luck") = true ∨
     ∃ from' clean rest,
       out = [ ToAll (ChatMsg from' clean (now env0)) ] ∧
       "good luck" = clean +:+ rest ∧ (String.length clean ≤ 400)%nat ∧
       (rest = "" ∨ String.length clean = 400%nat) ∧
       all_white clean = false ∧ from' ≠ "" ∧
       ("" ≠ "" → from' = "") ∧
       ("" = "" →
        (∃ pn, socketId (players s pn) = Some 2%nat ∧ from' = playerName pn) ∨
        ((∀ pn, socketId (players s pn) ≠ Some 2%nat) ∧ from' = "Spectator"))).
Proof.
  intros s. split; [reflexivity |].
  exact (chat_relays_text_cut_at_400 env0 2%nat "" "good luck" s eq_refl).
Defined.

Lemma resolveShot_board target key target' res sunk :
  resolveShot target key = Some (target', res, sunk) →
  (∀ k, board target' !! k
        = (λ cell, mkCell (shipId cell) (hit cell || bool_decide (k = key)))
            <$> board target !! k) ∧
  (∀ id sh', ships target' !! id = Some sh' →
     ∃ sh, ships target !! id = Some sh ∧ ship_name sh' = ship_name sh ∧
           ship_size sh' = ship_size sh ∧
           ship_hits sh ⊆ ship_hits sh' ∧
           ship_hits sh' ⊆ {[ key ]} ∪ ship_hits sh).
Proof.
  unfold resolveShot. intros Hres.
  assert (∀ k, board target !! k
               = (λ cell, mkCell (shipId cell) (hit cell || false))
                   <$> board target !! k) as Hid.
  { intros k. destruct (board target !! k) as [[id h]|]; simpl; [| done].
    by rewrite orb_false_r. }
  assert (∀ id sh', ships target !! id = Some sh' →
     ∃ sh, ships target !! id = Some sh ∧ ship_name sh' = ship_name sh ∧
           ship_size sh' = ship_size sh ∧
           ship_hits sh ⊆ ship_hits sh' ∧
           ship_hits sh' ⊆ {[ key ]} ∪ ship_hits sh) as Hsame.
  { intros id sh' Hsh. exists sh'. repeat split; [done | set_solver ..]. }
  destruct (board target !! key) as [cell|] eqn:Hcell.
  - destruct (hit cell) eqn:Hhit.
    + injection Hres as <- _ _. split; [| done].
      intros k. destruct (decide (k = key)) as [-> | Hne].
      * rewrite Hcell. simpl. rewrite Hhit. by destruct cell; simplify_eq/=.
      * rewrite (bool_decide_eq_false_2 _ Hne). apply Hid.
    + destruct (ships target !! shipId cell) as [sh|] eqn:Hsh; [| done].
      injection Hres as <- _ _. simpl. split.
      * intros k. rewrite lookup_insert.
        destruct (decide (key = k)) as [<- | Hne].
        -- rewrite Hcell. simpl. by rewrite bool_decide_eq_true_2, orb_true_r.
        -- rewrite bool_decide_eq_false_2 by done. apply Hid.
      * intros id sh'. rewrite lookup_insert.
        destruct (decide (shipId cell = id)) as [<- | Hne]; [| apply Hsame].
        intros [= <-]. exists sh. simpl. repeat split; [done | set_solver ..].
  - injection Hres as <- _ _. split; [| done].
    intros k. destruct (decide (k = key)) as [-> | Hne].
    + by rewrite Hcell.
    + rewrite (bool_decide_eq_false_2 _ Hne). apply Hid.
Qed.

(** X18: an accepted shot touches nothing on the target's board but the
    hit flag of the cell it aims at, which it sets: no cell is added,
    removed or moved to another ship, and no flag is cleared.  Each ship of
    the target keeps its name and size, and its hit set grows by at most the
    coordinate fired at.  The shooter's own board and fleet stay as they
    were. *)
Theorem shot_flags_only_the_cell_aimed_at env sock slot r c s pn s' out :
  fire_accepted sock slot r c s pn →
  handle env sock (Fire slot r c) s = Some (s', out) →
  (∀ k, board (players s' (opponent pn)) !! k
        = (λ cell, mkCell (shipId cell) (hit cell || bool_decide (k = (r, c))))
            <$> board (players s (opponent pn)) !! k) ∧
  (∀ id sh', ships (players s' (opponent pn)) !! id = Some sh' →
     ∃ sh, ships (players s (opponent pn)) !! id = Some sh ∧
           ship_name sh' = ship_name sh ∧ ship_size sh' = ship_size sh ∧
           ship_hits sh ⊆ ship_hits sh' ∧
           ship_hits sh' ⊆ {[ (r, c) ]} ∪ ship_hits sh) ∧
  board (players s' pn) = board (players s pn) ∧
  ships (players s' pn) = ships (players s pn).
Proof.
  intros Ha Hh. simpl in Hh. rewrite (onFire_accepted _ _ _ _ _ _ Ha) in Hh.
  destruct (resolveFire_spec _ _ _ _ _ Hh)
    as (target' & res & sunk & Hres & Hme & Hopp & _).
  rewrite Hme, Hopp.
  destruct (resolveShot_board _ _ _ _ _ Hres) as [Hb Hs]. done.
Qed.

Lemma shot_flags_only_the_cell_aimed_at_witness :
  let s := stateAfter beforeLastShot in
  let s' := stateAfter fullGame in
  fire_accepted 1%nat 1 4 1 s P1 ∧
  handle env0 1%nat (Fire 1 4 1) s = Some (s', emitted beforeLastShot lastShot) ∧
  (∀ k, board (players s' (opponent P1)) !! k
        = (λ cell, mkCell (shipId cell) (hit cell || bool_decide (k = (4, 1))))
            <$> board (players s (opponent P1)) !! k) ∧
  (∀ id sh', ships (players s' (opponent P1)) !! id = Some sh' →
     ∃ sh, ships (players s (opponent P1)) !! id = Some sh ∧
           ship_name sh' = ship_name sh ∧ ship_size sh' = ship_size sh ∧
           ship_hits sh ⊆ ship_hits sh' ∧
           ship_hits sh' ⊆ {[ (4, 1) ]} ∪ ship_hits sh) ∧
  board (players s' P1) = board (players s P1) ∧
  ships (players s' P1) = ships (players s P1).
Proof.
  intros s s'. split; [exact lastShot_accepted |].
  split; [exact lastShot_handled |].
  exact (shot_flags_only_the_cell_aimed_at env0 1%nat 1 4 1 s P1 s' _
           lastShot_accepted lastShot_handled).
Defined.

(** ** The client: escaping *)

Lemma chars_app s1 s2 : chars (s1 +:+ s2) = (chars s1 ++ chars s2)%list.
Proof. induction s1 as [|a s1 IH]; [done |]. simpl. by rewrite <- IH. Qed.

Lemma escapeChar_no_markup ch : Forall (λ a, ¬ markup_char a) (chars (escapeChar ch)).
Proof.
  unfold escapeChar, markup_char. repeat case_decide; subst; simpl;
    repeat constructor; try (intros [?|[?|[?|?]]]; congruence).
Qed.

(** X19: the text [escapeHtml] returns holds no less-than sign, no
    greater-than sign, no double quote and no single quote, whatever the
    input; a text without any of the five replaced characters is returned
    as it is. *)
Theorem escapeHtml_leaves_no_markup_character s :
  Forall (λ a, ¬ markup_char a) (chars (escapeHtml s)) ∧
  (Forall (λ a, ¬ special_char a) (chars s) → escapeHtml s = s).
Proof.
  split.
  - induction s as [|ch s IH]; simpl; [constructor |].
    rewrite chars_app. apply Forall_app. split; [apply escapeChar_no_markup | done].
  - induction s as [|ch s IH]; simpl; [done |].
    intros [Hch Hs]%Forall_cons. rewrite (IH Hs).
    unfold escapeChar, special_char, markup_char in *.
    repeat case_decide; subst; simpl; try done; exfalso; apply Hch; auto.
Qed.

Lemma escapeChar_inj a1 a2 r1 r2 :
  escapeChar a1 +:+ r1 = escapeChar a2 +:+ r2 → a1 = a2 ∧ r1 = r2.
Proof.
  unfold escapeChar. repeat case_decide; subst; simpl;
    intros Heq; injection Heq; intros; subst; try done; congruence.
Qed.

(** X20: [escapeHtml] loses nothing: two texts with the same escaped form
    are the same text. *)
Theorem escapeHtml_is_injective s1 s2 :
  escapeHtml s1 = escapeHtml s2 → s1 = s2.
Proof.
  revert s2. induction s1 as [|a1 s1 IH]; intros [|a2 s2]; simpl.
  - done.
  - unfold escapeChar. by repeat case_decide.
  - unfold escapeChar. by repeat case_decide.
  - intros [-> Heq]%escapeChar_inj. by rewrite (IH _ Heq).
Qed.

Lemma escapeHtml_is_injective_witness :
  escapeHtml "<b>" = escapeHtml "<b>" ∧ "<b>" = "<b>".
Proof.
  split; [reflexivity |].
  exact (escapeHtml_is_injective "<b>" "<b>" eq_refl).
Defined.

Example escapeHtml_sample :
  escapeHtml "<a href='x'>Tom & Jerry</a>"
  = "&lt;a href=&#39;x&#39;&gt;Tom &amp; Jerry&lt;/a&gt;".
Proof. vm_compute. reflexivity. Qed.

Example escapeHtml_double_quote :
  escapeHtml (String "034" "say") = "&quot;say" ∧
  Ascii.nat_of_ascii "034" = 34%nat.
Proof. split; vm_compute; reflexivity. Qed.

(** ** The client: random placement *)

Lemma row_cells_S r c n : row_cells r c (S n) = (r, c) :: row_cells r (c + 1) n.
Proof.
  unfold row_cells. rewrite Nat2Z.inj_succ, seqZ_cons by lia. simpl.
  do 3 f_equal; lia.
Qed.

Lemma col_cells_S r c n : col_cells r c (S n) = (r, c) :: col_cells (r + 1) c n.
Proof.
  unfold col_cells. rewrite Nat2Z.inj_succ, seqZ_cons by lia. simpl.
  do 3 f_equal; lia.
Qed.

Lemma drawCells_S d i n :
  drawCells d i (S n)
  = (draw_r0 d + (if draw_horizontal d then 0 else i),
     draw_c0 d + (if draw_horizontal d then i else 0)) :: drawCells d (i + 1) n.
Proof.
  unfold drawCells. destruct (draw_horizontal d).
  - rewrite row_cells_S. do 2 f_equal; [f_equal; lia | lia].
  - rewrite col_cells_S. do 2 f_equal; [f_equal; lia | lia].
Qed.

Lemma buildCells_spec d i n cells :
  buildCells d i n cells = [] ∨
  (buildCells d i n cells = (cells ++ drawCells d i n)%list ∧
   Forall (λ k, k.1 < BOARD_SIZE ∧ k.2 < BOARD_SIZE) (drawCells d i n)).
Proof.
  revert i cells. induction n as [|n IH]; intros i cells; simpl.
  - right. unfold drawCells, row_cells, col_cells.
    destruct (draw_horizontal d); simpl; by rewrite app_nil_r.
  - case_bool_decide as Hout; [by left |].
    destruct (IH (i + 1) (cells ++ [(draw_r0 d + (if draw_horizontal d then 0 else i),
                                    draw_c0 d + (if draw_horizontal d then i else 0))])%list)
      as [-> | [-> Hin]]; [by left |].
    right. rewrite drawCells_S, <- app_assoc. split; [done |].
    constructor; [simpl; lia | done].
Qed.

Lemma elem_of_row_cells k r c n :
  k ∈ row_cells r c n ↔ k.1 = r ∧ c ≤ k.2 < c + Z.of_nat n.
Proof.
  unfold row_cells. rewrite list_elem_of_fmap. setoid_rewrite elem_of_seqZ.
  destruct k as [kr kc]. simpl. split.
  - intros (c' & [= -> ->] & ?). done.
  - intros (-> & ?). by exists kc.
Qed.

Lemma elem_of_col_cells k r c n :
  k ∈ col_cells r c n ↔ k.2 = c ∧ r ≤ k.1 < r + Z.of_nat n.
Proof.
  unfold col_cells. rewrite list_elem_of_fmap. setoid_rewrite elem_of_seqZ.
  destruct k as [kr kc]. simpl. split.
  - intros (r' & [= -> ->] & ?). done.
  - intros (-> & ?). by exists kr.
Qed.

Lemma length_drawCells d i n : length (drawCells d i n) = n.
Proof.
  unfold drawCells, row_cells, col_cells.
  destruct (draw_horizontal d); rewrite length_fmap, length_seqZ; lia.
Qed.

Lemma NoDup_drawCells d i n : NoDup (drawCells d i n).
Proof.
  unfold drawCells, row_cells, col_cells.
  destruct (draw_horizontal d);
    (apply NoDup_fmap_2; [by intros ?? [= ?] | apply NoDup_seqZ]).
Qed.

(** The cells of a draw that stays on the grid make a legal ship. *)
Lemma drawCells_ship d n :
  draw_ok d →
  Forall (λ k, k.1 < BOARD_SIZE ∧ k.2 < BOARD_SIZE) (drawCells d 0 n) →
  straight (drawCells d 0 n) ∧ Forall in_bounds (drawCells d 0 n) ∧
  contiguous (drawCells d 0 n).
Proof.
  intros [Hr Hc] Hup. split; [| split].
  - unfold drawCells. destruct (draw_horizontal d).
    + left. eexists. apply row_cells_fst.
    + right. eexists. apply col_cells_snd.
  - apply Forall_forall. intros k Hk.
    pose proof (proj1 (Forall_forall _ _) Hup k Hk) as [H1 H2].
    unfold drawCells in Hk. unfold in_bounds.
    destruct (draw_horizontal d).
    + apply elem_of_row_cells in Hk. lia.
    + apply elem_of_col_cells in Hk. lia.
  - unfold contiguous. rewrite length_drawCells. unfold drawCells.
    destruct (draw_horizontal d); eexists _, _; [by left | by right].
Qed.

Lemma tryShip_Some rand size grid tries i cells i' :
  tryShip rand size grid tries i = (Some cells, i') →
  ∃ j, cells = drawCells (rand j) 0 size ∧
       Forall (λ k, k.1 < BOARD_SIZE ∧ k.2 < BOARD_SIZE) cells ∧
       ∀ k, k ∈ cells → k ∉ grid.
Proof.
  revert i. induction tries as [|tries IH]; intros i; simpl; [done |].
  case_bool_decide as Hlen; [apply IH |].
  destruct (existsb _ _) eqn:Hex; [apply IH |].
  intros [= <- _]. exists i.
  destruct (buildCells_spec (rand i) 0 size []) as [Hnil | [Heq Hup]];
    [by rewrite Hnil in Hlen |].
  simpl in Heq. rewrite Heq in *. do 2 (split; [done |]).
  intros k Hk Hgrid.
  assert (existsb (λ k, bool_decide (k ∈ grid)) (drawCells (rand i) 0 size)
          = true); [| congruence].
  apply existsb_exists. exists k. split; [by apply list_elem_of_In |].
  by apply bool_decide_eq_true_2.
Qed.

Lemma fleetCells_app p q : fleetCells (p ++ q) = (fleetCells p ++ fleetCells q)%list.
Proof. unfold fleetCells. by rewrite fmap_app, concat_app. Qed.

Lemma placeFleet_laid_out rand todo grid placement i p i' :
  (∀ n, draw_ok (rand n)) →
  Forall (λ ship, required !! cs_key ship = Some (cs_size ship)) todo →
  laid_out grid placement →
  placeFleet rand todo grid placement i = (Some p, i') →
  laid_out (list_to_set (fleetCells p)) p ∧
  keysOf p = (keysOf placement ++ (cs_key <$> todo))%list.
Proof.
  intros Hrand. revert grid placement i.
  induction todo as [|ship todo IH]; intros grid placement i Hreq Hl;
    cbn [placeFleet].
  - intros [= <- _]. rewrite fmap_nil, app_nil_r. split; [| done].
    destruct Hl as (? & ? & ? & ? & ? & _). by repeat split.
  - destruct (tryShip rand (cs_size ship) grid 500 i) as [[cells|] i1] eqn:Htry;
      [| done].
    apply tryShip_Some in Htry as (j & -> & Hup & Hfree).
    apply Forall_cons in Hreq as [Hsize Hreq].
    destruct (drawCells_ship _ _ (Hrand j) Hup) as (Hstr & Hin & Hcont).
    destruct Hl as (H2 & H3 & H4 & H5 & H6 & ->).
    intros Hp. apply IH in Hp as [Hl' Hkeys]; [| done |].
    + split; [done |]. rewrite Hkeys. unfold keysOf.
      by rewrite fmap_app, <- app_assoc.
    + unfold laid_out, rule2, rule3, rule4, rule5, rule6.
      rewrite !Forall_app, !Forall_singleton, fleetCells_app.
      cbn [sp_key sp_cells]. rewrite length_drawCells.
      repeat split; try done.
      * unfold fleetCells at 2. cbn [fmap list_fmap concat sp_cells].
        rewrite app_nil_r.
        apply NoDup_app. split; [done |]. split; [| apply NoDup_drawCells].
        intros k Hk Hk'. apply (Hfree k Hk'). by apply elem_of_list_to_set.
      * unfold fleetCells at 3. cbn [fmap list_fmap concat sp_cells].
        rewrite app_nil_r, list_to_set_app_L.
        set_solver.
Qed.

Lemma SHIPS_required :
  Forall (λ ship, required !! cs_key ship = Some (cs_size ship)) SHIPS.
Proof. repeat constructor. Qed.

Lemma SHIPS_keys : cs_key <$> SHIPS = allKeys.
Proof. reflexivity. Qed.

Lemma layout_board_fold p acc :
  (foldl placeShip acc p).1
  = foldl (λ b ship, placeCells (sp_key ship) (sp_cells ship) b) acc.1 p.
Proof.
  revert acc. induction p as [|ship p IH]; intros acc; simpl; [done |].
  by rewrite IH.
Qed.

Lemma randomizePlacement_valid fuel rand i p i' :
  (∀ n, draw_ok (rand n)) →
  randomizePlacement fuel rand i = Some (p, i') →
  validatePlacement p = Ok ∧ keysOf p = allKeys ∧
  drawLocalPlacement p = (layout p).1.
Proof.
  intros Hrand. revert i.
  induction fuel as [|fuel IH]; intros i; cbn [randomizePlacement]; [done |].
  destruct (placeFleet rand SHIPS ∅ [] i) as [[q|] i1] eqn:Hq; [| apply IH].
  intros [= -> ->].
  apply placeFleet_laid_out in Hq as [(H2 & H3 & H4 & H5 & H6 & _) Hkeys];
    [| done | apply SHIPS_required |].
  2:{ unfold laid_out, rule2, rule3, rule4, rule5, rule6, fleetCells. simpl.
      repeat split; constructor. }
  rewrite SHIPS_keys in Hkeys. cbn [keysOf fmap list_fmap app] in Hkeys.
  split; [| split; [done |]].
  - apply validatePlacement_Ok. split; [split; [| done] |].
    + split.
      * apply Forall_forall. intros ship Hship. rewrite <- Hkeys.
        unfold keysOf. apply list_elem_of_fmap. by exists ship.
      * rewrite Hkeys. apply allKeys_NoDup.
    + unfold rule7. rewrite Hkeys. by apply Forall_forall.
  - unfold drawLocalPlacement, layout. by rewrite layout_board_fold.
Qed.

(** X21: whatever the random draws, a placement that [randomizePlacement]
    returns passes the server's [validatePlacement]; it lists the five
    kinds in the order of [SHIP_DEFS], and the board the client paints from
    it is the board the server stores for it. *)
Theorem randomizePlacement_is_accepted fuel rand i p i' :
  (∀ n, draw_ok (rand n)) →
  randomizePlacement fuel rand i = Some (p, i') →
  validatePlacement p = Ok ∧ keysOf p = allKeys ∧
  drawLocalPlacement p = (layout p).1.
Proof. apply randomizePlacement_valid. Qed.

Lemma rowsDraws_ok n : draw_ok (rowsDraws n).
Proof.
  unfold draw_ok, rowsDraws, BOARD_SIZE. simpl.
  pose proof (Z.mod_pos_bound (Z.of_nat n) 10). lia.
Qed.

Lemma rowsDraws_placement :
  randomizePlacement 1 rowsDraws 0 = Some (sampleFleet, 5%nat).
Proof. vm_compute. reflexivity. Qed.

Lemma randomizePlacement_is_accepted_witness :
  (∀ n, draw_ok (rowsDraws n)) ∧
  randomizePlacement 1 rowsDraws 0 = Some (sampleFleet, 5%nat) ∧
  validatePlacement sampleFleet = Ok ∧ keysOf sampleFleet = allKeys ∧
  drawLocalPlacement sampleFleet = (layout sampleFleet).1.
Proof.
  split; [exact rowsDraws_ok |]. split; [exact rowsDraws_placement |].
  exact (randomizePlacement_is_accepted 1 rowsDraws 0 sampleFleet 5
           rowsDraws_ok rowsDraws_placement).
Defined.

(** ** The client in step with the server *)

Lemma seat_of_slot_Some slot pn : seat_of_slot slot = Some pn → slot = slot_of pn.
Proof.
  unfold seat_of_slot. repeat case_decide; intros [= <-]; by subst.
Qed.

Lemma seat_of_slot_of pn : seat_of_slot (slot_of pn) = Some pn.
Proof. by destruct pn. Qed.

Lemma slot_of_inj pn pn' : slot_of pn = slot_of pn' → pn = pn'.
Proof. by destruct pn, pn'. Qed.

Lemma deliver_app sock out1 out2 cl :
  deliver sock (out1 ++ out2) cl = deliver sock out2 (deliver sock out1 cl).
Proof. apply foldl_app. Qed.

Lemma receive_quiet sock m cl :
  quiet m →
  mySlot (receive sock cl m) = mySlot cl ∧ oppFog (receive sock cl m) = oppFog cl.
Proof.
  destruct m as [to p | p]; simpl; [case_decide; [| done] |];
    destruct p; simpl; done.
Qed.

Lemma deliver_quiet sock out cl :
  Forall quiet out →
  mySlot (deliver sock out cl) = mySlot cl ∧
  oppFog (deliver sock out cl) = oppFog cl.
Proof.
  intros Hq. revert cl. induction Hq as [|m out Hm _ IH]; intros cl; [done |].
  unfold deliver. simpl. fold (deliver sock out (receive sock cl m)).
  destruct (IH (receive sock cl m)) as [-> ->]. by apply receive_quiet.
Qed.

Lemma deliver_pub sock sock' s' out cl :
  Forall (routed sock' s') out →
  pub_synced s' cl ∨ broadcast s' ∈ out →
  pub_synced s' (deliver sock out cl).
Proof.
  intros Hr. revert cl. induction Hr as [|m out Hm _ IH]; intros cl Hor.
  - destruct Hor as [? | ?%elem_of_nil]; done.
  - unfold deliver. simpl. fold (deliver sock out (receive sock cl m)).
    apply IH. destruct m as [to p | p]; simpl in *.
    + destruct Hor as [Hs | [[=] | Hin]%elem_of_cons]; [| by right].
      left. case_decide; [| done]. destruct p; simpl in *; try done.
      destruct Hm as [_ ->]. done.
    + destruct p; simpl in *; try done.
      * left. subst st. done.
      * left. destruct Hm as (-> & -> & ->). done.
      * destruct Hor as [Hs | [[=] | Hin]%elem_of_cons]; [by left | by right].
Qed.

Lemma deliver_sendPrivateBoards sock s' cl :
  (∀ so, socketId (player1 s') = Some so → socketId (player2 s') ≠ Some so) →
  mySlot (deliver sock (sendPrivateBoards s') cl) = mySlot cl ∧
  (∀ V, socketId (players s' V) = Some sock →
        oppFog (deliver sock (sendPrivateBoards s') cl)
        = opponent_fog (boardsFor s' V)) ∧
  (spectator sock s' →
   oppFog (deliver sock (sendPrivateBoards s') cl) = oppFog cl).
Proof.
  intros Hd. unfold sendPrivateBoards, spectator. simpl.
  destruct (socketId (player1 s')) as [a|] eqn:H1,
           (socketId (player2 s')) as [b|] eqn:H2; simpl;
    repeat (case_decide; simpl); subst;
    try (by destruct (Hd _ eq_refl));
    (split; [done |]); split.
  all: try (intros []; simpl; rewrite ?H1, ?H2; intros; by simplify_eq).
  all: intros Hs; try done.
  all: try (by destruct (Hs P1); simpl; rewrite H1).
  all: by destruct (Hs P2); simpl; rewrite H2.
Qed.

Lemma onReady_cases env sock slot s :
  (∃ out, onReady env sock slot s = (s, out) ∧ Forall quiet out) ∨
  (onReady env sock slot s
   = ((onReady env sock slot s).1,
      broadcast (onReady env sock slot s).1
        :: sendPrivateBoards (onReady env sock slot s).1) ∧
   ∀ pn, socketId (players (onReady env sock slot s).1 pn)
         = socketId (players s pn)).
Proof.
  unfold onReady. destruct (seat_of_slot slot) as [pn'|];
    [| left; eexists; split; [done | constructor]].
  destruct (negb (owns _ _));
    [left; eexists; split; [done | constructor] |].
  destruct (negb (bool_decide _));
    [left; eexists; split; [done | by repeat constructor] |].
  right. split; [done |]. open_state s.
  destruct pn'; simpl;
    match goal with |- context [if ?b then _ else _] => destruct b end;
    by intros [].
Qed.

(** The three shapes of a handler run, as a client sees them: nothing
    changed and nothing sent that touches [mySlot] or the fog; a reset or a
    disconnect that leaves no match on; or a run that sends the board
    payloads of the new state after anything else that touches them. *)
Lemma handle_shape env sock' e s s' out :
  Inv s → handle env sock' e s = Some (s', out) →
  (s' = s ∧ Forall quiet out) ∨
  (phase s' ≠ IN_PROGRESS ∧ Forall quiet out ∧
   ∀ pn, socketId (players s' pn) = socketId (players s pn) ∨
         (e = Disconnect ∧ socketId (players s pn) = Some sock' ∧
          socketId (players s' pn) = None)) ∨
  (∃ pre post,
     out = (pre ++ sendPrivateBoards s' ++ post)%list ∧ Forall quiet post ∧
     (((∀ pn, socketId (players s' pn) = socketId (players s pn)) ∧
       (pre = [ broadcast s' ] ∨ ∃ r, pre = [ ToAll (ShotResultMsg r) ])) ∨
      (∃ slot pn,
         seat_of_slot slot = Some pn ∧
         pre = [ ToSocket sock' (Joined slot); broadcast s' ] ∧
         socketId (players s' pn) = Some sock' ∧
         (socketId (players s pn) = None ∨
          socketId (players s pn) = Some sock') ∧
         (socketId (players s' (opponent pn))
          = socketId (players s (opponent pn)) ∧
          socketId (players s (opponent pn)) ≠ Some sock' ∨
          socketId (players s' (opponent pn)) = None ∧
          socketId (players s (opponent pn)) = Some sock')))).
Proof.
  intros HI Hh. destruct e; simpl in Hh.
  - left. unfold onConnect in Hh. injection Hh as <- <-.
    split; [done | by repeat constructor].
  - destruct (seat_of_slot slot) as [pn|] eqn:Hpn.
    2:{ left. unfold onJoin in Hh. rewrite Hpn in Hh. injection Hh as <- <-.
        split; [done | constructor]. }
    destruct (decide (socketId (players s pn) = None
                      ∨ socketId (players s pn) = Some sock')) as [Hfree | Htaken].
    + right. right.
      destruct (handle_join_accepted env sock' slot s pn Hpn Hfree)
        as (s1 & Heq & Hme & Hopp & _).
      simpl in Heq. rewrite Heq in Hh. injection Hh as <- <-.
      exists [ ToSocket sock' (Joined slot); broadcast s1 ], [].
      split; [by rewrite app_nil_r |]. split; [constructor |].
      right. exists slot, pn. do 2 (split; [done |]).
      split; [by rewrite Hme |]. split; [done |].
      rewrite Hopp. destruct (owns (players s (opponent pn)) sock') eqn:Ho.
      * right. by apply owns_true in Ho.
      * left. by apply owns_false in Ho.
    + left. unfold onJoin in Hh. rewrite Hpn in Hh.
      assert (seated (players s pn) && negb (owns (players s pn) sock') = true)
        as Hc.
      { unfold seated, owns.
        destruct (socketId (players s pn)) as [a|]; [| by destruct Htaken; left].
        simpl. rewrite bool_decide_eq_false_2; [done |].
        intros Heq. destruct Htaken. by right. }
      rewrite Hc in Hh. injection Hh as <- <-.
      split; [done | by repeat constructor].
  - destruct (onPlaceShips_cases sock' slot shipsPayload s)
      as [(pn & Hpn & Ho & Hph & _) | [_ Heq]].
    + destruct (validatePlacement shipsPayload) as [|err] eqn:Hv.
      * right. right.
        assert (place_accepted sock' slot shipsPayload s pn) as Ha by done.
        destruct (onPlaceShips_accepted _ _ _ _ _ Ha)
          as (s1 & Heq & _ & _ & _ & Hid & _ & _ & Hopp & _).
        rewrite Heq in Hh. injection Hh as <- <-.
        exists [ broadcast s1 ],
               [ ToSocket sock' (Notice NoticeOk "Placement saved.") ].
        split; [done |]. split; [by repeat constructor |]. left.
        split; [| by left]. intros pn'.
        destruct (decide (pn' = pn)) as [-> | Hne]; [done |].
        assert (pn' = opponent pn) as -> by (by destruct pn, pn').
        by rewrite Hopp.
      * left. rewrite (onPlaceShips_invalid _ _ _ _ _ _ Hpn Ho Hph Hv) in Hh.
        injection Hh as <- <-. split; [done | by repeat constructor].
    + left. rewrite Heq in Hh. injection Hh as <- <-.
      split; [done | constructor].
  - destruct (onReady_cases env sock' slot s) as [(out0 & Heq & Hq) | [Heq Hid]].
    + left. rewrite Heq in Hh. by injection Hh as <- <-.
    + right. right. rewrite Heq in Hh. injection Hh as <- <-.
      exists [ broadcast (onReady env sock' slot s).1 ], [].
      split; [by rewrite app_nil_r |]. split; [constructor |]. left.
      split; [done | by left].
  - destruct (onFire_cases sock' slot r c s) as [[pn Ha] | Hno].
    + right. right. rewrite (onFire_accepted _ _ _ _ _ _ Ha) in Hh.
      destruct (resolveFire_spec _ _ _ _ _ Hh)
        as (target' & res & sunk & Hres & Hme & Hopp & _ & _ & ->).
      eexists [ _ ], [ broadcast s' ]. split; [done |].
      split; [by repeat constructor |]. left. split; [| right; by eexists].
      intros pn'. destruct (decide (pn' = pn)) as [-> | Hne].
      * by rewrite Hme.
      * assert (pn' = opponent pn) as -> by (by destruct pn, pn').
        rewrite Hopp. by destruct (resolveShot_frame _ _ _ _ _ Hres) as (-> & _).
    + left. destruct (onFire_not_accepted _ _ _ _ _ Hno) as [H | [H _]];
        rewrite H in Hh; injection Hh as <- <-;
        (split; [done | by repeat constructor]).
  - left. unfold onChat in Hh. destruct (all_white _); injection Hh as <- <-;
      (split; [done | by repeat constructor]).
  - unfold onReset in Hh.
    destruct (owns (players s P1) sock' || owns (players s P2) sock') eqn:Ho.
    + right. left.
      destruct (onReset_honored env sock' s Ho) as (s1 & Heq & Hkeep & _ & _ & Hph).
      unfold onReset in Heq. rewrite Ho in Heq. rewrite Heq in Hh.
      injection Hh as <- <-. split; [rewrite Hph; by destruct (bothSeated s) |].
      split; [by repeat constructor |]. intros pn. left. apply Hkeep.
    + left. injection Hh as <- <-. split; [done | constructor].
  - change (Some (onDisconnect sock' s) = Some (s', out)) in Hh.
    destruct (decide (socketId (players s P1) = Some sock'
                      ∨ socketId (players s P2) = Some sock')) as [Hseat | Hspec].
    + right. left.
      assert (∃ pn, socketId (players s pn) = Some sock') as [pn Hpn]
        by (destruct Hseat; [by exists P1 | by exists P2]).
      destruct (onDisconnect_seated sock' s pn HI Hpn)
        as (s1 & Heq & Hme & Hopp & Hph & _).
      rewrite Heq in Hh. injection Hh as <- <-.
      split; [congruence |]. split; [by repeat constructor |].
      intros pn'. destruct (decide (pn' = pn)) as [-> | Hne].
      * right. by rewrite Hme.
      * assert (pn' = opponent pn) as -> by (by destruct pn, pn').
        left. by rewrite Hopp.
    + left. rewrite onDisconnect_spectator in Hh.
      * injection Hh as <- <-. split; [done | by repeat constructor].
      * done.
      * intros []; simpl; intros ?; apply Hspec; auto.
Qed.

Lemma seat_synced_ext sock s cl cl' :
  mySlot cl' = mySlot cl → oppFog cl' = oppFog cl →
  seat_synced sock s cl → seat_synced sock s cl'.
Proof. unfold seat_synced. by intros -> ->. Qed.

Lemma Inv_owner_unique s sock pn pn' :
  Inv s → socketId (players s pn) = Some sock →
  socketId (players s pn') = Some sock → pn = pn'.
Proof.
  intros HI H1 H2. destruct pn, pn'; try done; simpl in *.
  - by destruct (inv_distinct _ HI sock).
  - by destruct (inv_distinct _ HI sock).
Qed.

(** After the board payloads of [s'] the fog of a seated client is the
    fog of its seat. *)
Lemma deliver_boards_seat_synced sock s' post cl slot pn :
  Inv s' → Forall quiet post →
  mySlot cl = Some slot → slot = slot_of pn →
  socketId (players s' pn) = Some sock →
  seat_synced sock s' (deliver sock (sendPrivateBoards s' ++ post) cl).
Proof.
  intros HI Hq Hms -> Hown. rewrite deliver_app.
  destruct (deliver_quiet sock post (deliver sock (sendPrivateBoards s') cl) Hq)
    as [Hm Hf].
  destruct (deliver_sendPrivateBoards sock s' cl (inv_distinct _ HI))
    as (Hm' & Hf' & _).
  unfold seat_synced. rewrite Hm, Hm', Hms. exists pn. do 2 (split; [done |]).
  intros _. rewrite Hf, (Hf' pn Hown). apply fogBoard_dom.
Qed.

Lemma deliver_boards_spectator sock s' post cl :
  Inv s' → Forall quiet post →
  mySlot cl = None → spectator sock s' →
  seat_synced sock s' (deliver sock (sendPrivateBoards s' ++ post) cl).
Proof.
  intros HI Hq Hms Hspec. rewrite deliver_app.
  destruct (deliver_quiet sock post (deliver sock (sendPrivateBoards s') cl) Hq)
    as [Hm _].
  destruct (deliver_sendPrivateBoards sock s' cl (inv_distinct _ HI))
    as (Hm' & _).
  unfold seat_synced. by rewrite Hm, Hm', Hms.
Qed.

(** One handler run, served for any connection but not the disconnect of
    the client's own, keeps client and server in agreement. *)
Lemma Sync_step env sock' e sock s s' out cl :
  Inv s → Sync sock s cl →
  handle env sock' e s = Some (s', out) →
  ¬ (sock' = sock ∧ e = Disconnect) →
  Sync sock s' (deliver sock out cl).
Proof.
  intros HI [Hpub Hseat] Hh Hnd.
  pose proof (Inv_handle _ _ _ _ _ _ HI Hh) as HI'.
  split.
  { eapply deliver_pub; [by eapply handle_routed |].
    destruct (decide (s' = s)) as [-> | Hne]; [by left |].
    right. by eapply handle_broadcast. }
  destruct (handle_shape _ _ _ _ _ _ HI Hh)
    as [[-> Hq] | [(Hph & Hq & Hids) | (pre & post & -> & Hq & Hcase)]].
  - destruct (deliver_quiet sock out cl Hq) as [Hm Hf].
    by apply (seat_synced_ext sock s cl).
  - destruct (deliver_quiet sock out cl Hq) as [Hm Hf].
    unfold seat_synced in *. rewrite Hm.
    destruct (mySlot cl) as [slot|].
    + destruct Hseat as (pn & -> & Hown & _). exists pn. split; [done |].
      split; [| done].
      destruct (Hids pn) as [-> | (-> & Hown' & _)]; [done |].
      destruct Hnd. split; [congruence | done].
    + intros pn. destruct (Hids pn) as [-> | (_ & _ & ->)]; [apply Hseat | done].
  - rewrite deliver_app.
    destruct Hcase as [[Hids Hpre] | (slot & pn & Hpn & -> & Hme & Hbefore & Hopp)].
    + assert (mySlot (deliver sock pre cl) = mySlot cl) as Hm.
      { destruct Hpre as [-> | [r ->]]; done. }
      unfold seat_synced in Hseat.
      destruct (mySlot cl) as [slot|] eqn:Hms.
      * destruct Hseat as (pn & -> & Hown & _).
        eapply deliver_boards_seat_synced; [done .. |]. by rewrite Hids.
      * apply deliver_boards_spectator; [done .. |].
        intros pn. rewrite Hids. apply Hseat.
    + destruct (decide (sock' = sock)) as [-> | Hne].
      * eapply (deliver_boards_seat_synced _ _ _ _ slot pn); [done .. | | |done].
        -- simpl. by rewrite decide_True.
        -- by apply seat_of_slot_Some.
      * assert (mySlot (deliver sock [ToSocket sock' (Joined slot); broadcast s'] cl)
                = mySlot cl) as Hm by (simpl; by rewrite decide_False).
        unfold seat_synced in Hseat.
        destruct (mySlot cl) as [slot0|] eqn:Hms.
        -- destruct Hseat as (pn0 & -> & Hown & _).
           eapply deliver_boards_seat_synced; [done .. |].
           assert (pn0 = opponent pn) as ->.
           { destruct (decide (pn0 = pn)) as [-> | ?]; [| by destruct pn0, pn].
             destruct Hbefore; congruence. }
           destruct Hopp as [[-> _] | [_ ?]]; congruence.
        -- apply deliver_boards_spectator; [done .. |].
           intros pn'. destruct (decide (pn' = pn)) as [-> | ?].
           ++ rewrite Hme. congruence.
           ++ assert (pn' = opponent pn) as -> by (by destruct pn', pn).
              destruct Hopp as [[-> _] | [-> _]]; [apply Hseat | done].
Qed.

Lemma session_Sync sock inputs s cl s1 cl1 :
  reachable s → Sync sock s cl → Forall (stays sock) inputs →
  session sock inputs s cl = Some (s1, cl1) →
  reachable s1 ∧ Sync sock s1 cl1.
Proof.
  revert s cl. induction inputs as [|i inputs IH]; intros s cl Hr HS Hst; simpl.
  - by intros [= <- <-].
  - destruct (handle _ _ _ s) as [[s' out]|] eqn:Hh; [| done].
    apply Forall_cons in Hst as [Hi Hst].
    apply IH; [by eapply reachable_step | | done].
    eapply Sync_step; [by apply reachable_Inv | done | exact Hh | exact Hi].
Qed.

Lemma Sync_tryFire sock s cl r c :
  Inv s → Sync sock s cl →
  (∀ e, tryFire cl r c = Some e →
        ∃ pn, e = Fire (slot_of pn) r c ∧
              fire_accepted sock (slot_of pn) r c s pn) ∧
  (∀ pn, fire_accepted sock (slot_of pn) r c s pn →
         tryFire cl r c = Some (Fire (slot_of pn) r c)).
Proof.
  intros HI [(Hph & Ht & Hw) Hseat]. unfold tryFire, seat_synced in *. split.
  - intros e. destruct (mySlot cl) as [slot|]; [| done].
    destruct Hseat as (pn & -> & Hown & Hfog).
    case_bool_decide as H0; [done |].
    case_bool_decide as Hp; [| done]. simpl.
    case_bool_decide as Hturn; [| done]. simpl.
    case_bool_decide as Hk; [done |]. intros [= <-].
    exists pn. split; [done |]. rewrite Hph in Hp.
    split; [done |]. split; [apply seat_of_slot_of |]. split; [done |].
    split.
    + rewrite Ht in Hturn. destruct (turn s) as [t|]; [| done].
      simpl in Hturn. injection Hturn as Hturn. by rewrite (slot_of_inj _ _ Hturn).
    + rewrite <- (Hfog Hp). by rewrite elem_of_dom.
  - intros pn (Hp & _ & Hown & Hturn & Hk).
    destruct (mySlot cl) as [slot|].
    + destruct Hseat as (pn' & -> & Hown' & Hfog).
      assert (pn' = pn) as -> by by eapply Inv_owner_unique.
      rewrite bool_decide_eq_false_2 by by destruct pn.
      rewrite Hph, Ht, Hturn. simpl.
      rewrite !bool_decide_eq_true_2 by done. simpl.
      rewrite bool_decide_eq_false_2; [done |].
      rewrite <- elem_of_dom, (Hfog Hp). done.
    + by destruct (Hseat pn).
Qed.

(** X22: the guards of the client's [tryFire] are the guards of the
    server's [fire] handler.  Take a connection that opens holding no seat
    and does not disconnect, any events served since, and a client that has
    taken in every message emitted so far.  Then a click on a cell makes the
    client emit a [fire] event exactly when the server accepts that event:
    the client never sends a shot that the server drops or answers with an
    error, and never holds back one that the server would take. *)
Theorem client_fires_iff_server_accepts env sock s0 inputs s cl r c :
  reachable s0 → spectator sock s0 → Forall (stays sock) inputs →
  session sock (mkInput env sock Connect :: inputs) s0 initialClient
  = Some (s, cl) →
  (∀ e, tryFire cl r c = Some e →
        ∃ pn, e = Fire (slot_of pn) r c ∧
              fire_accepted sock (slot_of pn) r c s pn) ∧
  (∀ pn, fire_accepted sock (slot_of pn) r c s pn →
         tryFire cl r c = Some (Fire (slot_of pn) r c)).
Proof.
  intros Hr Hspec Hst. cbn [session in_env in_sock in_event handle].
  unfold onConnect. intros Hs.
  apply session_Sync in Hs as [Hr' HS]; [| done | | done].
  - by apply Sync_tryFire; [apply reachable_Inv |].
  - unfold Sync, pub_synced, seat_synced, deliver. simpl.
    rewrite !decide_True by done. simpl. done.
Qed.

Lemma spectator_initial sock t0 : spectator sock (initialState t0).
Proof. by intros []. Qed.

Lemma stays_toInProgress : Forall (stays 1%nat) (tail toInProgress).
Proof. repeat constructor; by intros [_ [=]]. Qed.

Lemma session_toInProgress :
  session 1%nat (mkInput env0 1%nat Connect :: tail toInProgress)
          (initialState 0) initialClient
  = Some (stateAfter toInProgress, clientAfterStart).
Proof. vm_compute. reflexivity. Qed.

Lemma client_fires_iff_server_accepts_witness :
  let s := stateAfter toInProgress in
  reachable (initialState 0) ∧ spectator 1%nat (initialState 0) ∧
  Forall (stays 1%nat) (tail toInProgress) ∧
  session 1%nat (mkInput env0 1%nat Connect :: tail toInProgress)
          (initialState 0) initialClient
  = Some (s, clientAfterStart) ∧
  (∀ e, tryFire clientAfterStart 0 0 = Some e →
        ∃ pn, e = Fire (slot_of pn) 0 0 ∧
              fire_accepted 1%nat (slot_of pn) 0 0 s pn) ∧
  (∀ pn, fire_accepted 1%nat (slot_of pn) 0 0 s pn →
         tryFire clientAfterStart 0 0 = Some (Fire (slot_of pn) 0 0)).
Proof.
  intros s.
  split; [exact (reachable_initial 0) |].
  split; [exact (spectator_initial 1%nat 0) |].
  split; [exact stays_toInProgress |].
  split; [exact session_toInProgress |].
  exact (client_fires_iff_server_accepts env0 1%nat (initialState 0)
           (tail toInProgress) s clientAfterStart 0 0 (reachable_initial 0)
           (spectator_initial 1%nat 0) stays_toInProgress session_toInProgress).
Defined.

Example client_fires_after_start :
  tryFire clientAfterStart 0 0 = Some (Fire 1 0 0).
Proof. vm_compute. reflexivity. Qed.

Lemma resolveShot_fogEntry target key target' res sunk :
  resolveShot target key = Some (target', res, sunk) →
  fogEntry (board target') key
  = match res with ShotHit => FogH | ShotMiss => FogM end.
Proof.
  unfold resolveShot, fogEntry.
  destruct (board target !! key) as [cell|] eqn:Hcell.
  - destruct (hit cell) eqn:Hhit.
    + intros [= <- <- _]. by rewrite Hcell, Hhit.
    + destruct (ships target !! shipId cell); [| done].
      intros [= <- <- _]. simpl. by rewrite lookup_insert_eq.
  - intros [= <- <- _]. by rewrite Hcell.
Qed.

(** X23: what the [shotResult] of an accepted shot reports is what the
    fog sent to the shooter right after it shows at that coordinate: 'H'
    for a hit and 'M' for a miss.  So the mark the client sets from the
    [shotResult] is the mark the [boards] payload then brings. *)
Theorem shot_result_is_the_fog_mark env sock slot r c s pn s' res rest cl :
  fire_accepted sock slot r c s pn →
  handle env sock (Fire slot r c) s
  = Some (s', ToAll (ShotResultMsg res) :: rest) →
  opponent_fog (boardsFor s' pn) !! (r, c)
  = Some (match shot_result res with ShotHit => FogH | ShotMiss => FogM end) ∧
  ToSocket sock (BoardsMsg (boardsFor s' pn)) ∈ rest ∧
  (mySlot cl = Some slot →
   oppFog (onMessage (ShotResultMsg res) cl) !! (r, c)
   = opponent_fog (boardsFor s' pn) !! (r, c)).
Proof.
  intros Ha Hh. simpl in Hh. rewrite (onFire_accepted _ _ _ _ _ _ Ha) in Hh.
  destruct (resolveFire_spec _ _ _ _ _ Hh)
    as (target' & res' & sunk & Hres & Hme & Hopp & _ & _ & Hout).
  injection Hout as -> ->.
  destruct Ha as (_ & Hpn & Hown & _).
  assert (opponent_fog (boardsFor s' pn) !! (r, c)
          = Some (match res' with ShotHit => FogH | ShotMiss => FogM end))
    as Hfog.
  { simpl. rewrite fogBoard_lookup, Hme. simpl.
    rewrite decide_True by set_solver. rewrite Hopp.
    by rewrite (resolveShot_fogEntry _ _ _ _ _ Hres). }
  split; [exact Hfog |]. split.
  - apply elem_of_app. left. apply sendPrivateBoards_elem.
    exists pn, sock. split; [| done]. rewrite Hme. done.
  - intros Hms. rewrite Hfog. simpl.
    rewrite Hms, (seat_of_slot_Some _ _ Hpn).
    rewrite bool_decide_eq_true_2 by done.
    by rewrite lookup_insert_eq.
Qed.

Lemma shot_result_is_the_fog_mark_witness :
  let s := stateAfter beforeLastShot in
  let s' := stateAfter fullGame in
  let out := emitted beforeLastShot lastShot in
  ∃ res rest,
    out = ToAll (ShotResultMsg res) :: rest ∧
    fire_accepted 1%nat 1 4 1 s P1 ∧
    handle env0 1%nat (Fire 1 4 1) s
    = Some (s', ToAll (ShotResultMsg res) :: rest) ∧
    opponent_fog (boardsFor s' P1) !! (4, 1)
    = Some (match shot_result res with ShotHit => FogH | ShotMiss => FogM end) ∧
    ToSocket 1%nat (BoardsMsg (boardsFor s' P1)) ∈ rest ∧
    (mySlot clientAfterStart = Some 1 →
     oppFog (onMessage (ShotResultMsg res) clientAfterStart) !! (4, 1)
     = opponent_fog (boardsFor s' P1) !! (4, 1)).
Proof.
  intros s s' out.
  destruct (resolveFire_spec P1 (4, 1) s s' out) as
    (target' & res & sunk & _ & _ & _ & _ & _ & Hout).
  { rewrite <- (onFire_accepted 1%nat 1 4 1 s P1 lastShot_accepted).
    exact lastShot_handled. }
  pose proof lastShot_handled as Hh. fold s s' out in Hh. rewrite Hout in Hh.
  eexists _, _. split; [exact Hout |].
  split; [exact lastShot_accepted |]. split; [exact Hh |].
  exact (shot_result_is_the_fog_mark env0 1%nat 1 4 1 s P1 s' _ _
           clientAfterStart lastShot_accepted Hh).
Defined.

(** X24: the button that randomizes and sends always gets its placement
    saved while ships may be placed.  For a client in step with the server,
    as in X22, and a placement [randomizePlacement] returned: in the phases
    LOBBY and PLACING the server stores the placement, the board it stores
    is the board the client painted, and the client is told 'Placement
    saved.'; in the other phases the event is dropped without any answer. *)
Theorem randomized_placement_is_saved
    env sock s0 inputs s cl fuel rand i p i' e :
  reachable s0 → spectator sock s0 → Forall (stays sock) inputs →
  session sock (mkInput env sock Connect :: inputs) s0 initialClient
  = Some (s, cl) →
  (∀ n, draw_ok (rand n)) →
  randomizePlacement fuel rand i = Some (p, i') →
  sendPlacement cl p = Some e →
  ∃ pn, socketId (players s pn) = Some sock ∧ e = PlaceShips (slot_of pn) p ∧
    (phase s = LOBBY ∨ phase s = PLACING →
     ∃ s', handle env sock e s
           = Some (s', broadcast s' :: sendPrivateBoards s'
                         ++ [ ToSocket sock (Notice NoticeOk "Placement saved.") ]) ∧
       board (players s' pn) = drawLocalPlacement p ∧
       size (ships (players s' pn)) = 5%nat ∧
       ready (players s' pn) = false) ∧
    (phase s = IN_PROGRESS ∨ phase s = FINISHED →
     handle env sock e s = Some (s, [])).
Proof.
  intros Hr Hspec Hst Hs Hrand Hp He.
  cbn [session in_env in_sock in_event handle] in Hs. unfold onConnect in Hs.
  apply session_Sync in Hs as [Hr' [_ Hseat]]; [| done | | done].
  2:{ unfold Sync, pub_synced, seat_synced, deliver. simpl.
      rewrite !decide_True by done. simpl. done. }
  unfold sendPlacement, seat_synced in *.
  destruct (mySlot cl) as [slot|]; [| done].
  destruct Hseat as (pn & -> & Hown & _).
  case_bool_decide; [done |]. injection He as <-.
  exists pn. do 2 (split; [done |]).
  destruct (randomizePlacement_valid _ _ _ _ _ Hrand Hp) as (Hv & _ & Hdraw).
  split.
  - intros Hph.
    assert (place_accepted sock (slot_of pn) p s pn) as Ha.
    { split; [apply seat_of_slot_of |]. split; [done |].
      split; [tauto | done]. }
    destruct (onPlaceShips_accepted _ _ _ _ _ Ha)
      as (s' & Heq & Hb & Hsh & Hrd & _).
    exists s'. simpl. rewrite Heq. split; [done |].
    split; [by rewrite Hb, Hdraw |]. split; [| done].
    rewrite Hsh, <- size_dom.
    pose proof (reachable_placed _ pn
                  (reachable_step env sock (PlaceShips (slot_of pn) p) s s' _
                     Hr' (f_equal Some Heq))) as Hpl.
    destruct (placed_cases _ Hpl) as [[Hnone _] | (_ & _ & Hdom & _)].
    + exfalso. rewrite Hb in Hnone.
      pose proof (valid_board_size p (proj1 (validatePlacement_Ok p) Hv)) as Hsz.
      rewrite Hnone, map_size_empty in Hsz. done.
    + rewrite <- Hsh, Hdom. vm_compute. reflexivity.
  - intros Hph.
    destruct (onPlaceShips_cases sock (slot_of pn) p s)
      as [(pn' & _ & _ & [?|?] & _) | [_ Heq]].
    + destruct Hph; congruence.
    + destruct Hph; congruence.
    + simpl. by rewrite Heq.
Qed.

Lemma sendPlacement_after_start :
  sendPlacement clientAfterStart sampleFleet = Some (PlaceShips 1 sampleFleet).
Proof. vm_compute. reflexivity. Qed.

Lemma randomized_placement_is_saved_witness :
  let s := stateAfter toInProgress in
  reachable (initialState 0) ∧ spectator 1%nat (initialState 0) ∧
  Forall (stays 1%nat) (tail toInProgress) ∧
  session 1%nat (mkInput env0 1%nat Connect :: tail toInProgress)
          (initialState 0) initialClient
  = Some (s, clientAfterStart) ∧
  (∀ n, draw_ok (rowsDraws n)) ∧
  randomizePlacement 1 rowsDraws 0 = Some (sampleFleet, 5%nat) ∧
  sendPlacement clientAfterStart sampleFleet
  = Some (PlaceShips 1 sampleFleet) ∧
  ∃ pn, socketId (players s pn) = Some 1%nat ∧
    PlaceShips 1 sampleFleet = PlaceShips (slot_of pn) sampleFleet ∧
    (phase s = LOBBY ∨ phase s = PLACING →
     ∃ s', handle env0 1%nat (PlaceShips 1 sampleFleet) s
           = Some (s', broadcast s' :: sendPrivateBoards s'
                         ++ [ ToSocket 1%nat (Notice NoticeOk "Placement saved.") ]) ∧
       board (players s' pn) = drawLocalPlacement sampleFleet ∧
       size (ships (players s' pn)) = 5%nat ∧
       ready (players s' pn) = false) ∧
    (phase s = IN_PROGRESS ∨ phase s = FINISHED →
     handle env0 1%nat (PlaceShips 1 sampleFleet) s = Some (s, [])).
Proof.
  intros s.
  split; [exact (reachable_initial 0) |].
  split; [exact (spectator_initial 1%nat 0) |].
  split; [exact stays_toInProgress |].
  split; [exact session_toInProgress |].
  split; [exact rowsDraws_ok |]. split; [exact rowsDraws_placement |].
  split; [exact sendPlacement_after_start |].
  exact (randomized_placement_is_saved env0 1%nat (initialState 0)
           (tail toInProgress) s clientAfterStart 1 rowsDraws 0 sampleFleet 5
           (PlaceShips 1 sampleFleet) (reachable_initial 0)
           (spectator_initial 1%nat 0) stays_toInProgress session_toInProgress
           rowsDraws_ok rowsDraws_placement sendPlacement_after_start).
Defined.

